(** * CryptoProt: modular arithmetic, Shamir sharing, threshold ElGamal and
      the RSA accumulator, embedded from the Python sources.

    Python integers are [Z]; [%] is [Z.modulo] (both take the sign of the
    divisor), [&] is [Z.land], [>>] is [Z.shiftr].  Exceptions are the
    [Raise] results of a small error monad.  The random source is a tape of
    integers that [randint] consumes. *)

From Stdlib Require Import ZArith Lia List String.
From Stdlib Require Import Zdivisibility Zcong.
From Stdlib Require Import Zmod.ZmodInv.
From stdpp Require Import base list strings pretty.
From Equations Require Import Equations.

Local Open Scope Z_scope.

(** ** Python exceptions and results *)

Inductive exn : Type :=
| ZeroDivisionError
| ValueError
| IndexError.

Inductive result (A : Type) : Type :=
| Ok (a : A)
| Raise (e : exn).
Arguments Ok {A} a.
Arguments Raise {A} e.

#[global] Instance result_ret : MRet result := fun A a => Ok a.
#[global] Instance result_bind : MBind result := fun A B f m =>
  match m with
  | Ok a => f a
  | Raise e => Raise e
  end.

(** [a % b]. *)
Definition py_mod (a b : Z) : result Z :=
  if b =? 0 then Raise ZeroDivisionError else Ok (a mod b).

(** [range(a, b)]. *)
Definition range (a b : Z) : list Z := seqZ a (b - a).

(** [for a in l: s = body(a, s)]. *)
Fixpoint for_each {A S : Type} (l : list A) (body : A -> S -> result S) (s : S)
  : result S :=
  match l with
  | [] => Ok s
  | a :: l' => s' ← body a s; for_each l' body s'
  end.

(** [enumerate(l)]. *)
Definition enumerate {A : Type} (l : list A) : list (Z * A) :=
  imap (fun i a => (Z.of_nat i, a)) l.

(** List subscripts: [l[i]] counts from the end for a negative [i] and
    raises [IndexError] outside [-len(l) <= i < len(l)]. *)
Definition py_index (len : nat) (i : Z) : option nat :=
  if 0 <=? i then
    if i <? Z.of_nat len then Some (Z.to_nat i) else None
  else
    if - Z.of_nat len <=? i then Some (Z.to_nat (Z.of_nat len + i)) else None.

Definition getitem {A : Type} (l : list A) (i : Z) : result A :=
  match py_index (length l) i with
  | Some k => match l !! k with
              | Some a => Ok a
              | None => Raise IndexError
              end
  | None => Raise IndexError
  end.

Definition setitem {A : Type} (l : list A) (i : Z) (v : A) : result (list A) :=
  match py_index (length l) i with
  | Some k => Ok (<[k:=v]> l)
  | None => Raise IndexError
  end.

(** The built-in three-argument [pow(b, e, m)]: [ValueError] for [m = 0];
    for a negative exponent the inverse of [b] modulo [m] is raised to
    [-e], and [ValueError] is raised when [b] is not invertible. *)
Definition py_pow (b e m : Z) : result Z :=
  if m =? 0 then Raise ValueError
  else if 0 <=? e then Ok (b ^ e mod m)
  else if Z.gcd b m =? 1 then Ok (Z.invmod b m ^ (- e) mod m)
  else Raise ValueError.

(** ** The random source *)

(** The values the generator will return, in order. *)
Definition tape : Type := nat -> Z.

Definition tape_tail (t : tape) : tape := fun k => t (S k).

(** [random.randint(a, b)]: the next tape entry, brought into [a..b];
    [ValueError] on an empty range. *)
Definition randint (a b : Z) (t : tape) : result (Z * tape) :=
  if a <=? b then Ok (a + t 0%nat mod (b - a + 1), tape_tail t)
  else Raise ValueError.

(** ** ModularArithmetic: [power] and [modInverse]

    The same text of [power] is in Exercise04 (a and b, with the names
    [a], [x], [res]), Exercise09 and both files of Exercise10; [modInverse]
    is in Exercise09 and both files of Exercise10. *)

(** The [while (e > 0)] loop of [power]. *)
Equations? power_loop (result x e p : Z) : Z by wf (Z.to_nat e) lt :=
  power_loop result x e p with Z_gt_dec e 0 := {
    | left _ =>
        if Z.land e 1 =? 0
        then power_loop result ((x * x) mod p) (Z.shiftr e 1) p
        else power_loop ((result * x) mod p) x (e - 1) p
    | right _ => result }.
Proof.
  - rewrite Z.shiftr_div_pow2 by lia. change (2 ^ 1) with 2.
    apply Z2Nat.inj_lt; try lia.
    + apply Z.div_pos; lia.
    + apply Z.div_lt; lia.
  - lia.
Qed.

Definition power (x e p : Z) : result Z :=
  x ← py_mod x p;
  if x =? 0 then Ok 0 else Ok (power_loop 1 x e p).

Definition modInverse (x q : Z) : result Z :=
  let x := if x <? 0 then q + x else x in
  power x (q - 2) q.

(** [a // b]. *)
Definition py_floordiv (a b : Z) : result Z :=
  if b =? 0 then Raise ZeroDivisionError else Ok (a / b).

(** ** Loops that need not end

    A [while True] loop that draws from the random source runs on fuel:
    the result is [None] when the fuel is used up before the loop ends. *)
Definition run (A : Type) : Type := option (result A).

Definition run_bind {A B : Type} (m : run A) (k : A -> run B) : run B :=
  match m with
  | None => None
  | Some (Raise e) => Some (Raise e)
  | Some (Ok a) => k a
  end.

Definition run_lift {A : Type} (r : result A) : run A := Some r.

(** [randomsubgroup(q, p)]: the same text in both files of Exercise04 and
    both files of Exercise10. *)
Fixpoint randomsubgroup (fuel : nat) (q p : Z) (t : tape) : run (Z * tape) :=
  match fuel with
  | O => None
  | S fuel =>
      run_bind
        (run_lift ('(h, t) ← randint 2 (p - 1) t;
                   e ← py_floordiv (p - 1) q;
                   g ← power h e p;
                   Ok (g, t)))
        (fun '(g, t) =>
           if negb (g =? 1) then Some (Ok (g, t))
           else randomsubgroup fuel q p t)
  end.

(** ** Exercise09: Shamir secret sharing ([Ordiales_Inaky_09.py]) *)

Module Ex09.

(** The secret first, then [f] random coefficients from [randint(0, q)]. *)
Definition generateCoefficients (x f q : Z) (t : tape) : result (list Z * tape) :=
  for_each (range 0 f)
    (fun _ '(coeffs, t) =>
       '(c, t) ← randint 0 q t;
       Ok (coeffs ++ [c], t))
    ([x], t).

Definition polynomial (val : Z) (coefficients : list Z) (f q : Z) : result Z :=
  for_each (range 0 (f + 1))
    (fun i polVal =>
       c ← getitem coefficients i;
       pw ← power val i q;
       py_mod (polVal + c * pw) q)
    0.

Definition share (x f n q : Z) (t : tape) : result (list (Z * Z) * tape) :=
  '(coeffs, t) ← generateCoefficients x f q t;
  shares ← for_each (range 1 (n + 1))
    (fun i shares =>
       polVal ← polynomial i coeffs f q;
       Ok (shares ++ [(i, polVal)]))
    [];
  Ok (shares, t).

(** The inner [for j] loop of [reconstruct]: numerator and denominator of
    the Lagrange coefficient of share [i]. *)
Definition reconstruct_inner (shares : list (Z * Z)) (q : Z) (l i : Z)
  : result (Z * Z) :=
  for_each (range 0 l)
    (fun j '(numerator, denominator) =>
       if bool_decide (i <> j) then
         sj ← getitem shares j;
         numerator ← py_mod (numerator * sj.1) q;
         sj ← getitem shares j;
         si ← getitem shares i;
         denominator ← py_mod (denominator * (sj.1 - si.1)) q;
         Ok (numerator, denominator)
       else Ok (numerator, denominator))
    (1, 1).

Definition reconstruct (shares : list (Z * Z)) (q : Z) : result Z :=
  let l := Z.of_nat (length shares) in
  for_each (range 0 l)
    (fun i secret =>
       '(numerator, denominator) ← reconstruct_inner shares q l i;
       si ← getitem shares i;
       let numerator := numerator * si.2 in
       inv ← modInverse denominator q;
       py_mod (secret + inv * numerator) q)
    0.

End Ex09.

(** ** Exercise10, the reference solution ([sol10.py]) *)

Module Sol10.

(** [f] random coefficients from [randint(0, q-1)], then the secret. *)
Definition generateCoefficients (x f q : Z) (t : tape) : result (list Z * tape) :=
  '(coefficients, t) ← for_each (range 1 (f + 1))
    (fun _ '(coefficients, t) =>
       '(c, t) ← randint 0 (q - 1) t;
       Ok (coefficients ++ [c], t))
    ([], t);
  Ok (coefficients ++ [x], t).

Definition polynomial (val : Z) (coefficients : list Z) (f q : Z) : result Z :=
  for_each (enumerate coefficients)
    (fun '(i, coeff) total =>
       pw ← power val (f - i) q;
       py_mod (total + coeff * pw) q)
    0.

(** The x-coordinate of every share is drawn at random in [0..q-1]. *)
Definition share (x f n q : Z) (t : tape) : result (list (Z * Z) * tape) :=
  '(coefficients, t) ← generateCoefficients x f q t;
  for_each (range 0 n)
    (fun _ '(shares, t) =>
       '(val, t) ← randint 0 (q - 1) t;
       share ← polynomial val coefficients f q;
       Ok (shares ++ [(val, share)], t))
    ([], t).

Definition KeyGen (p q g n f : Z) (t : tape)
  : result ((Z * list (Z * Z)) * tape) :=
  '(s, t) ← randint 2 (q - 1) t;
  '(shares, t) ← share s f n q t;
  pk ← power g s p;
  Ok ((pk, shares), t).

Definition encrypt (p q g pk m : Z) (t : tape) : result ((Z * Z) * tape) :=
  '(r, t) ← randint 2 (q - 1) t;
  R ← power g r p;
  K ← power pk r p;
  C ← py_mod (K * m) p;
  Ok ((R, C), t).

Definition decrypt (p q g pk : Z) (sk : Z * Z) (c : Z * Z) : result (Z * Z) :=
  let '(x_i, sk_i) := sk in
  let '(R, C) := c in
  d_i ← power R sk_i p;
  Ok (x_i, d_i).

(** The inner [for j] loop of [recover]: the Lagrange exponent of the
    decryption share at position [i] with x-coordinate [x_i]. *)
Definition recover_exp (q : Z) (D : list (Z * Z)) (i x_i : Z) : result Z :=
  for_each (enumerate D)
    (fun '(j, share_j) exp =>
       let '(x_j, d_j) := share_j in
       if bool_decide (i <> j) then
         xq ← py_mod x_j q;
         inv ← modInverse (x_j - x_i) q;
         py_mod (exp * xq * inv) q
       else Ok exp)
    1.

Definition recover (p q g : Z) (D : list (Z * Z)) (c : Z * Z) : result Z :=
  let '(R, C) := c in
  prod ← for_each (enumerate D)
    (fun '(i, share_i) prod =>
       let '(x_i, d_i) := share_i in
       exp ← recover_exp q D i x_i;
       pw ← power d_i exp p;
       py_mod (prod * pw) p)
    1;
  inv ← modInverse prod p;
  py_mod (C * inv) p.

(** The loop of [main] that collects the decryption shares of the chosen
    parties, [for s_i in s: D.append(decrypt(p,g,q,pk,s_i,c))]; [main]
    passes [g] and [q] in this order, and [decrypt] reads neither. *)
Definition decrypt_all (p q g pk : Z) (s : list (Z * Z)) (c : Z * Z)
  : result (list (Z * Z)) :=
  for_each s
    (fun s_i D =>
       d ← decrypt p g q pk s_i c;
       Ok (D ++ [d]))
    [].

End Sol10.

(** ** Exercise10, the submitted solution ([Ordiales_Inaky_10-1.py]) *)

Module Ordiales10.
Section WithHash.

(** [int.from_bytes(SHA256.new(value.to_bytes(...)).digest(), 'big')]:
  the hash of the library, as a function on integers. *)
Variable sha256_int : Z -> Z.

Definition generateCoefficients (x f p : Z) (t : tape) : result (list Z * tape) :=
for_each (range 0 f)
  (fun _ '(coeffs, t) =>
     '(c, t) ← randint 0 (p - 1) t;
     Ok (coeffs ++ [c], t))
  ([x], t).

Definition polynomial (val : Z) (coefficients : list Z) (f p : Z) : result Z :=
for_each (range 0 (f + 1))
  (fun i polVal =>
     c ← getitem coefficients i;
     pw ← power val i p;
     py_mod (polVal + c * pw) p)
  0.

Definition share (x f n p : Z) (t : tape) : result (list (Z * Z) * tape) :=
'(coeffs, t) ← generateCoefficients x f p t;
shares ← for_each (range 1 (n + 1))
  (fun i shares =>
     polVal ← polynomial i coeffs f p;
     Ok (shares ++ [(i, polVal)]))
  [];
Ok (shares, t).

(** Returns the list [[x, y, xi]]: secret key, public key, shares.  The
  secret is shared with modulus [p]. *)
Definition KeyGen (g q p f n : Z) (t : tape)
: result ((Z * Z * list (Z * Z)) * tape) :=
'(x, t) ← randint 2 (q - 1) t;
y ← power g x p;
'(xi, t) ← share x f n p t;
Ok ((x, y, xi), t).

Definition Enc (g q p pk m : Z) (t : tape) : result ((Z * Z) * tape) :=
'(r, t) ← randint 2 (q - 1) t;
R ← power g r p;
value ← power pk r p;
let hash_value := sha256_int value in
let C := Z.lxor m hash_value in
Ok ((R, C), t).

Definition Dec (ski : Z * Z) (R p : Z) : result (Z * Z) :=
di ← power R ski.2 p;
Ok (ski.1, di).

(** The Lagrange coefficient [lamb] that [Recover] computes for the
  share at position [i]: the inner [for j] loop and the two lines after
  it.  Every reduction is modulo [p]. *)
Definition Recover_lamb (S : list (Z * Z)) (p : Z) (n i : Z) : result Z :=
'(numerator, denominator) ← for_each (range 0 n)
  (fun j '(numerator, denominator) =>
     if bool_decide (i <> j) then
       sj ← getitem S j;
       numerator ← py_mod (numerator * sj.1) p;
       sj ← getitem S j;
       si ← getitem S i;
       denominator ← py_mod (denominator * (sj.1 - si.1)) p;
       Ok (numerator, denominator)
     else Ok (numerator, denominator))
  (1, 1);
inv ← modInverse denominator p;
py_mod (inv * numerator) p.

Definition Recover (S : list (Z * Z)) (C p q : Z) : result Z :=
let n := Z.of_nat (length S) in
value ← for_each (range 0 n)
  (fun i value =>
     lamb ← Recover_lamb S p n i;
     si ← getitem S i;
     pw ← power si.2 lamb p;
     py_mod (value * pw) p)
  1;
let hash_value := sha256_int value in
Ok (Z.lxor hash_value C).

(** [reconstruct] and its inner [for j] loop, the text of Exercise09. *)
Definition reconstruct_inner (shares : list (Z * Z)) (q : Z) (l i : Z)
  : result (Z * Z) :=
  for_each (range 0 l)
    (fun j '(numerator, denominator) =>
       if bool_decide (i <> j) then
         sj ← getitem shares j;
         numerator ← py_mod (numerator * sj.1) q;
         sj ← getitem shares j;
         si ← getitem shares i;
         denominator ← py_mod (denominator * (sj.1 - si.1)) q;
         Ok (numerator, denominator)
       else Ok (numerator, denominator))
    (1, 1).

Definition reconstruct (shares : list (Z * Z)) (q : Z) : result Z :=
  let l := Z.of_nat (length shares) in
  for_each (range 0 l)
    (fun i secret =>
       '(numerator, denominator) ← reconstruct_inner shares q l i;
       si ← getitem shares i;
       let numerator := numerator * si.2 in
       inv ← modInverse denominator q;
       py_mod (secret + inv * numerator) q)
    0.

(** The check of [main] that decrypts with the whole secret key:
    [val = power(R, sk, p)], hashed and xor-ed with [C]. *)
Definition main_decrypt_with_sk (R C sk p : Z) : result Z :=
  val ← power R sk p;
  let hash_val := sha256_int val in
  Ok (Z.lxor hash_val C).

End WithHash.
End Ordiales10.

(** ** Exercise11: the accumulator ([accumulator.py]) *)

Module Acc.

Record Accumulator : Type := mkAccumulator {
  p : Z;
  q : Z;
  N : Z;
  phi : Z;
  seed : Z;
  n : Z;
  x : list string;
  w : list Z;
  security : Z;
  r : Z;
  alpha : Z
}.

(** [secrets.randbelow(n)]. *)
Definition randbelow (n : Z) (t : tape) : result (Z * tape) :=
  if 0 <? n then Ok (t 0%nat mod n, tape_tail t) else Raise ValueError.

Section WithHashToPrime.

(** [hash_to_prime(input, seed)] hashes with SHA-256 and searches the
  next probable prime with a Miller-Rabin test whose generator it
  seeds itself: a function of its two arguments, taken as given. *)
Variable hash_to_prime : string -> Z -> Z.

(** [self.H = lambda i, x: hash_to_prime(str(i)+x, self.seed)] *)
Definition H (self : Accumulator) (i : Z) (x : string) : Z :=
hash_to_prime (pretty i +:+ x) (seed self).

(** [__init__(self, p, q, n, seed, security)]; [time_ns] is the reading of
  the clock that replaces a [seed] of [None]. *)
Definition init (p q n : Z) (seed : option Z) (security : Z)
  (time_ns : Z) (t : tape) : result (Accumulator * tape) :=
let N := p * q in
let phi := (p - 1) * (q - 1) in
let seed := match seed with None => time_ns | Some s => s end in
let x := replicate (Z.to_nat n) ""%string in
let w := replicate (Z.to_nat n) 0 in
'(r, t) ← randbelow N t;
let self := mkAccumulator p q N phi seed n x w security r 0 in
prod ← for_each (range 0 n)
  (fun i prod =>
     xi ← getitem x i;
     let px := H self i xi in
     inv ← py_pow px (-1) phi;
     inv ← py_mod inv N;
     Ok (prod * inv))
  1;
alpha ← py_pow r prod N;
w ← for_each (range 0 n)
  (fun i w =>
     xi ← getitem x i;
     let p := H self i xi in
     e ← py_pow p (-1) phi;
     wi ← py_pow alpha e N;
     setitem w i wi)
  w;
Ok (mkAccumulator p q N phi seed n x w security r alpha, t).

(** [update(self, i, v)]: the returned flag and the object after the
  call.  An exception leaves no result: the state in which Python
  would leave the object when an exception interrupts the method is not
  part of the model. *)
Definition update (self : Accumulator) (i : Z) (v : string)
: result (bool * Accumulator) :=
xi ← getitem (x self) i;
if String.eqb xi v then Ok (false, self)
else
  let pv := H self i v in
  xi ← getitem (x self) i;
  let px := H self i xi in
  hi ← py_pow px (-1) (phi self);
  alpha' ← py_pow (alpha self) (hi * pv) (N self);
  w' ← for_each (range 0 (n self))
    (fun j w =>
       if bool_decide (j <> i) then
         wj ← getitem w j;
         wj ← py_pow wj (hi * pv) (N self);
         setitem w j wj
       else Ok w)
    (w self);
  x' ← setitem (x self) i v;
  Ok (true, mkAccumulator (p self) (q self) (N self) (phi self) (seed self)
              (n self) x' w' (security self) (r self) alpha').

(** The exponent [hi*pv] by which [update(i, v)] raises [alpha] and the
  witnesses, [xi] being the value stored in the slot. *)
Definition update_exponent (self : Accumulator) (i : Z) (xi v : string) : Z :=
Z.invmod (H self i xi) (phi self) * H self i v.

Definition proof (self : Accumulator) (i : Z) (x : string) : result Z :=
let p := H self i x in
wi ← getitem (w self) i;
py_pow wi p (N self).

Definition is_member (self : Accumulator) (i : Z) (x' : string) : result bool :=
xi ← getitem (x self) i;
if negb (String.eqb xi x') then Ok false
else
  proof ← proof self i x';
  Ok (proof =? alpha self).




(** A sequence of [update] calls, as the demonstration at the end of the
  file makes them; the flags are dropped. *)
Definition updates (self : Accumulator) (calls : list (Z * string))
: result Accumulator :=
for_each calls
  (fun '(i, v) self => '(_, self) ← update self i v; Ok self)
  self.

(** The witness of slot [i] is the one that [__init__] computes from the
  current [alpha]: [pow(alpha, pow(H(i, x[i]), -1, phi), N)]. *)
Definition fresh_witness (self : Accumulator) (i : nat) : Prop :=
exists xi wi,
  x self !! i = Some xi /\ w self !! i = Some wi /\
  wi = alpha self ^ Z.invmod (H self (Z.of_nat i) xi) (phi self) mod N self.

(** An accumulator built for [p0], [q0] and [n0] slots whose slot [i] still
  holds the empty string and the witness computed for it. *)
Record untouched (p0 q0 n0 : Z) (i : nat) (self : Accumulator) : Prop := {
ut_N : N self = p0 * q0;
ut_phi : phi self = (p0 - 1) * (q0 - 1);
ut_n : n self = n0;
ut_len_x : length (x self) = Z.to_nat n0;
ut_len_w : length (w self) = Z.to_nat n0;
ut_x : x self !! i = Some ""%string;
ut_w : fresh_witness self i
}.

End WithHashToPrime.
End Acc.

(** ** Exercise04: exponential ElGamal ([ex04_4-2-b.py], [ex04_4-2-a.py]) *)

Module Ex04b.

Definition keyGen (fuel : nat) (g q p : Z) (t : tape) : run ((Z * Z) * tape) :=
  run_bind (randomsubgroup fuel q p t)
    (fun '(h, t) =>
       run_lift ('(e, t) ← randint 2 (q - 1) t;
                 x ← power h e p;
                 y ← power g x p;
                 Ok ((y, x), t))).

(** [m] is a list of numbers; the factors of every [C] entry are not
    reduced modulo [p] after the multiplication. *)
Definition enc (fuel : nat) (y : Z) (m : list Z) (g q p : Z) (t : tape)
  : run ((Z * list Z) * tape) :=
  run_bind (randomsubgroup fuel q p t)
    (fun '(h, t) =>
       run_lift ('(e, t) ← randint 2 (q - 1) t;
                 r ← power h e p;
                 R ← power g r p;
                 C ← for_each m
                       (fun e C =>
                          a ← power g e p;
                          b ← power y r p;
                          Ok (C ++ [a * b]))
                       [];
                 Ok ((R, C), t))).

(** [dec(x, m_enc, p, maxvalue)]; [g] is the module-level variable that the
    script assigns from [Parameters] before it calls [dec].  The test
    [power(g,i,p) - h == 0.0] compares an integer with a float zero. *)
Definition dec (g : Z) (x : Z) (m_enc : Z * list Z) (p maxvalue : Z)
  : result (list Z) :=
  let R := m_enc.1 in
  let C := m_enc.2 in
  for_each C
    (fun e m_dec =>
       k ← power R x p;
       h ← py_floordiv e k;
       for_each (range 0 maxvalue)
         (fun i m_dec =>
            gi ← power g i p;
            if gi - h =? 0 then Ok (m_dec ++ [i]) else Ok m_dec)
         m_dec)
    [].

End Ex04b.

Module Ex04a.

(** [enc(y, m, g, q, p)] for a single number [m]. *)
Definition enc (fuel : nat) (y m g q p : Z) (t : tape) : run ((Z * Z) * tape) :=
  run_bind (randomsubgroup fuel q p t)
    (fun '(h, t) =>
       run_lift ('(e, t) ← randint 2 (q - 1) t;
                 r ← power h e p;
                 R ← power g r p;
                 a ← power g m p;
                 b ← power y r p;
                 Ok ((R, a * b), t))).

(** The statement of the script that multiplies two ciphertexts,
    [m_encs = ((m_enc1[0]*m_enc2[0])%p, (m_enc1[1]*m_enc2[1])%p)]. *)
Definition m_encs (m_enc1 m_enc2 : Z * Z) (p : Z) : result (Z * Z) :=
  R ← py_mod (m_enc1.1 * m_enc2.1) p;
  C ← py_mod (m_enc1.2 * m_enc2.2) p;
  Ok (R, C).

End Ex04a.

(** ** Exercise11: the primality test and the hash to a prime
       ([accumulator.py]) *)

Module Primality.

(** [random.randrange(a, b)]: the next tape entry, brought into [a..b-1];
    [ValueError] on an empty range. *)
Definition randrange (a b : Z) (t : tape) : result (Z * tape) :=
  if a <? b then Ok (a + t 0%nat mod (b - a), tape_tail t)
  else Raise ValueError.

(** The first loop of [miller_rabin], [while s % 2 == 0: s = s // 2;
    d += 1]; it never ends for [s = 0], which is [None]. *)
Equations? split_twos (s d : Z) : option (Z * Z) by wf (Z.abs_nat s) lt :=
  split_twos s d with Z.eq_dec s 0 := {
    | left _ => None
    | right _ with Z.eq_dec (s mod 2) 0 := {
        | left _ => split_twos (s / 2) (d + 1)
        | right _ => Some (s, d) } }.
Proof. pose proof (Z.div_mod s 2). lia. Qed.

(** The inner loop [while x != (n-1)]: [Ok true] when the loop ends,
    [Ok false] for the [return False] inside it. *)
Fixpoint witness_loop (fuel : nat) (n d i x : Z) : run bool :=
  if negb (x =? n - 1) then
    match fuel with
    | O => None
    | S fuel =>
        if i =? d - 1 then Some (Ok false)
        else
          run_bind (run_lift (py_mod (x ^ 2) n))
            (fun x => witness_loop fuel n d (i + 1) x)
    end
  else Some (Ok true).

(** The [for _ in range(k)] loop of [miller_rabin], [rounds] being the
    number of rounds left. *)
Fixpoint rounds_loop (fuel : nat) (rounds : nat) (n s d : Z) (t : tape)
  : run (bool * tape) :=
  match rounds with
  | O => Some (Ok (true, t))
  | S rounds =>
      run_bind (run_lift ('(a, t) ← randrange 2 (n - 1) t;
                          x ← py_pow a s n;
                          Ok (x, t)))
        (fun '(x, t) =>
           if negb (x =? 1) then
             run_bind (witness_loop fuel n d 0 x)
               (fun passed =>
                  if passed then rounds_loop fuel rounds n s d t
                  else Some (Ok (false, t)))
           else rounds_loop fuel rounds n s d t)
  end.

Definition miller_rabin (fuel : nat) (n k : Z) (t : tape) : run (bool * tape) :=
  run_bind (option_map Ok (split_twos (n - 1) 0))
    (fun '(s, d) => rounds_loop fuel (Z.to_nat k) n s d t).

(** [is_prime(n)], with the default [k = 5] of [miller_rabin]. *)
Definition is_prime (fuel : nat) (n : Z) (t : tape) : run (bool * tape) :=
  if n <? 2 then Some (Ok (false, t))
  else if n <? 4 then Some (Ok (true, t))
  else if (n mod 2 =? 0) || (n mod 3 =? 0) then Some (Ok (false, t))
  else miller_rabin fuel n 5 t.

(** The loop [while not is_prime(p): p += 2] of [hash_to_prime]. *)
Fixpoint next_prime_loop (fuel search : nat) (p : Z) (t : tape) : run Z :=
  match search with
  | O => None
  | S search =>
      run_bind (is_prime fuel p t)
        (fun '(b, t) =>
           if negb b then next_prime_loop fuel search (p + 2) t
           else Some (Ok p))
  end.

Section WithLibraries.

(** [int(hashlib.sha256(str(input).encode()).hexdigest(), 16)] and the
    generator state that [random.seed(seed)] sets, both of the library. *)
Variable sha256_hex_int : string -> Z.
Variable seeded : Z -> tape.

(** [hash_to_prime(input, seed)]; [search] bounds the iterations of its
    loop and [fuel] those of the loop inside [miller_rabin]. *)
Definition hash_to_prime (fuel search : nat) (input : string) (seed : Z) : run Z :=
  let t := seeded seed in
  let p := sha256_hex_int input * 2 ^ 64 + 1 in
  next_prime_loop fuel search p t.

End WithLibraries.
End Primality.

(** ** Specification vocabulary *)

(** The value a computation returns, [0] when it raises. *)
Definition value_of (m : result Z) : Z :=
  match m with
  | Ok v => v
  | Raise _ => 0
  end.

(** The polynomial with coefficients [cs], constant term first, at [x]. *)
Definition peval (cs : list Z) (x : Z) : Z :=
  foldr (fun c acc => c + x * acc) 0 cs.

(** Product and sum of a list of integers. *)
Definition zprod (l : list Z) : Z := foldr Z.mul 1 l.
Definition zsum (l : list Z) : Z := foldr Z.add 0 l.

(** Polynomials as coefficient lists, constant term first: sum, scalar
    multiple, product with [a - X], the product of [z - X] over a list of
    [z], the sum of a list of polynomials, and the quotient of the division
    by [X - r]. *)
Fixpoint padd (p1 p2 : list Z) : list Z :=
  match p1, p2 with
  | [], _ => p2
  | _, [] => p1
  | a :: p1', b :: p2' => (a + b) :: padd p1' p2'
  end.

Definition pscale (c : Z) (p : list Z) : list Z := Z.mul c <$> p.

Definition plin (a : Z) (p : list Z) : list Z :=
  padd (pscale a p) (0 :: pscale (-1) p).

Definition proots (zs : list Z) : list Z := foldr plin [1] zs.

Definition psum (ps : list (list Z)) : list Z := foldr padd [] ps.

Fixpoint pquot (r : Z) (cs : list Z) : list Z :=
  match cs with
  | [] => []
  | c :: cs' =>
      match cs' with
      | [] => []
      | _ :: _ => peval cs' r :: pquot r cs'
      end
  end.

(** The Lagrange term of the share [sh] at position [i], for interpolation
    at 0 over the x-coordinates [xs], with the inverse of the denominator
    written as its power [q - 2]. *)
Definition lagrange_term (q : Z) (xs : list Z) (i : nat) (sh : Z * Z) : Z :=
  sh.2 * (zprod (delete i xs)
          * zprod ((fun xj => xj - sh.1) <$> delete i xs) ^ (q - 2)).

(** ** Executable checks and the inputs of the worked examples *)

(** Trial division. *)
Definition primeb (n : Z) : bool :=
  (1 <? n) && forallb (fun d => negb (n mod d =? 0)) (seqZ 2 (n - 2)).

(** A stand-in for [hash_to_prime] in the worked examples: the prime 3
    for the input ["0"], the prime 5 for every other input. *)
Definition example_hash (input : string) (seed : Z) : Z :=
  if String.eqb input "0" then 3 else 5.


(** A tape on which every draw is 2. *)
Definition example_tape : tape := fun _ => 2.

(** A tape whose draws are 3, 10, 17, ... *)
Definition example_tape_distinct : tape := fun k => Z.of_nat k * 7 + 3.

(** The accumulator that [Accumulator(p=3, q=5, n=2, seed=128)] builds with
    [example_hash] when the base drawn is [r = 2]. *)
Definition example_acc : Acc.Accumulator :=
  Acc.mkAccumulator 3 5 15 8 128 2 [""%string; ""%string] [2; 8] 2048 2 8.

(** * Properties *)

Lemma bind_Ok_inv {A B : Type} (m : result A) (f : A -> result B) (b : B) :
  (m ≫= f) = Ok b -> exists a, m = Ok a /\ f a = Ok b.
Proof. destruct m as [a | e]; simpl; [eauto | discriminate]. Qed.

Lemma elem_of_middle {A : Type} (pre post : list A) (a : A) : a ∈ pre ++ a :: post.
Proof. apply elem_of_app. right. left. Qed.

Section PythonPrelude.
Context {A S : Type}.

Lemma py_mod_ok (a b : Z) : b <> 0 -> py_mod a b = Ok (a mod b).
Proof. intros Hb. unfold py_mod. destruct (Z.eqb_spec b 0); [lia | reflexivity]. Qed.

Lemma py_index_nonneg (len : nat) (i : Z) :
  0 <= i < Z.of_nat len -> py_index len i = Some (Z.to_nat i).
Proof.
  intros Hi. unfold py_index.
  destruct (Z.leb_spec 0 i); [| lia]. destruct (Z.ltb_spec i (Z.of_nat len)); [reflexivity | lia].
Qed.


Lemma getitem_nonneg (l : list A) (i : Z) (a : A) :
  0 <= i -> l !! Z.to_nat i = Some a -> getitem l i = Ok a.
Proof.
  intros Hi Hl. unfold getitem.
  pose proof (lookup_lt_Some _ _ _ Hl).
  rewrite py_index_nonneg by lia. rewrite Hl. reflexivity.
Qed.

Lemma getitem_nat (l : list A) (k : nat) (a : A) :
  l !! k = Some a -> getitem l (Z.of_nat k) = Ok a.
Proof. intros Hl. apply getitem_nonneg; [lia |]. rewrite Nat2Z.id. exact Hl. Qed.


Lemma setitem_nat (l : list A) (k : nat) (v : A) :
  (k < length l)%nat -> setitem l (Z.of_nat k) v = Ok (<[k:=v]> l).
Proof.
  intros Hk. unfold setitem. rewrite py_index_nonneg by lia.
  rewrite Nat2Z.id. reflexivity.
Qed.

(** Loop rule: an invariant over the part of the list already visited,
    with every visit returning normally. *)
Lemma for_each_inv (I : list A -> S -> Prop) (l : list A)
    (body : A -> S -> result S) (s0 : S) :
  I [] s0 ->
  (forall pre a post s, l = pre ++ a :: post -> I pre s ->
     exists s', body a s = Ok s' /\ I (pre ++ [a]) s') ->
  exists s', for_each l body s0 = Ok s' /\ I l s'.
Proof.
  intros H0 Hstep.
  assert (forall post pre s, l = pre ++ post -> I pre s ->
            exists s', for_each post body s = Ok s' /\ I l s') as Hgen.
  { induction post as [| a post IH]; intros pre s Hl HI.
    - rewrite app_nil_r in Hl. subst. eauto.
    - destruct (Hstep pre a post s Hl HI) as (s' & Hb & HI').
      simpl. rewrite Hb. simpl.
      apply (IH (pre ++ [a])); [| exact HI'].
      rewrite <- app_assoc. exact Hl. }
  apply (Hgen l [] s0); [reflexivity | exact H0].
Qed.


End PythonPrelude.

(** [loop_invariant I as pat] applies the loop rule to the [for_each] of
    the goal. *)
Tactic Notation "loop_invariant" uconstr(I) "as" simple_intropattern(pat) :=
  match goal with
  | |- context [for_each ?l ?body ?s0] => destruct (for_each_inv I l body s0) as pat
  end.

(** [for j in range(len(w)): w[j] = f(j, w[j])]: the loop that rewrites an
    array in place is [imap]. *)
Lemma for_each_range_imap {A : Type} (f : nat -> A -> A) (w : list A)
    (body : Z -> list A -> result (list A)) :
  (forall (k : nat) (a : A) (w' : list A),
     w' !! k = Some a -> w !! k = Some a -> length w' = length w ->
     body (Z.of_nat k) w' = Ok (<[k := f k a]> w')) ->
  for_each (range 0 (Z.of_nat (length w))) body w = Ok (imap f w).
Proof.
  intros Hbody.
  assert (forall post pre (f' : nat -> A -> A),
            w = pre ++ post ->
            forall pre', length pre' = length pre ->
            (forall k, f' k = f (length pre + k)%nat) ->
            for_each (seqZ (Z.of_nat (length pre)) (Z.of_nat (length post))) body
              (pre' ++ post) = Ok (pre' ++ imap f' post)) as Hgen.
  { induction post as [| a post IH]; intros pre f' Hw pre' Hlen Hf.
    - reflexivity.
    - cbn [length]. rewrite Nat2Z.inj_succ, seqZ_cons by lia. simpl.
      rewrite (Hbody (length pre) a).
      + simpl.
        assert (<[length pre := f (length pre) a]> (pre' ++ a :: post)
                = pre' ++ f (length pre) a :: post) as ->.
        { rewrite insert_app_r_alt by lia. rewrite Hlen, Nat.sub_diag. reflexivity. }
        replace (Z.succ (Z.of_nat (length pre))) with (Z.of_nat (length (pre ++ [a])))
          by (rewrite length_app; simpl; lia).
        rewrite Z.pred_succ.
        rewrite (cons_middle _ pre' post), app_assoc.
        rewrite (IH (pre ++ [a]) (f' ∘ Datatypes.S)).
        * rewrite <- app_assoc. simpl. rewrite Hf, Nat.add_0_r. reflexivity.
        * rewrite <- app_assoc. exact Hw.
        * rewrite !length_app. simpl. lia.
        * intros k. simpl. rewrite Hf, length_app. simpl. f_equal. lia.
      + rewrite <- Hlen. rewrite lookup_app_r by lia. rewrite Nat.sub_diag. reflexivity.
      + rewrite Hw. rewrite lookup_app_r by lia. rewrite Nat.sub_diag. reflexivity.
      + rewrite Hw, !length_app. simpl. lia. }
  unfold range. rewrite Z.sub_0_r.
  apply (Hgen w [] f eq_refl []); [reflexivity | reflexivity].
Qed.

(** ** [power] *)

Lemma power_loop_eq (result x e p : Z) :
  power_loop result x e p =
  if 0 <? e then
    if Z.land e 1 =? 0
    then power_loop result ((x * x) mod p) (Z.shiftr e 1) p
    else power_loop ((result * x) mod p) x (e - 1) p
  else result.
Proof.
  rewrite power_loop_equation_1.
  destruct (Z_gt_dec e 0) as [He | He]; simpl.
  - destruct (Z.ltb_spec 0 e); [reflexivity | lia].
  - destruct (Z.ltb_spec 0 e); [lia | reflexivity].
Qed.

Lemma land_1_even (e : Z) : (Z.land e 1 =? 0) = Z.even e.
Proof.
  change 1 with (Z.ones 1). rewrite Z.land_ones by lia.
  change (2 ^ 1) with 2. rewrite Zeven_mod. reflexivity.
Qed.

(** The loop invariant: [result * x ^ e] is constant modulo [p]. *)
Lemma power_loop_spec (e : Z) :
  0 <= e -> forall result x p,
  0 <= result < p -> power_loop result x e p = (result * x ^ e) mod p.
Proof.
  intros He. pattern e. apply (Zlt_0_ind); [clear e He | exact He].
  intros e IH He result x p Hr.
  rewrite power_loop_eq.
  destruct (Z.ltb_spec 0 e) as [Hpos | Hz].
  - rewrite land_1_even. destruct (Z.even e) eqn:Hev.
    + apply Zeven_bool_iff in Hev. destruct (Zeven_ex _ Hev) as [k ->].
      rewrite Z.shiftr_div_pow2 by lia. change (2 ^ 1) with 2.
      replace (2 * k / 2) with k by (rewrite Z.mul_comm, Z.div_mul; lia).
      rewrite IH by lia.
      rewrite <- Z.mul_mod_idemp_r, Z.mod_pow_l, Z.mul_mod_idemp_r by lia.
      rewrite Z.pow_mul_r, Z.pow_2_r by lia. reflexivity.
    + rewrite IH by (try lia; apply Z.mod_pos_bound; lia).
      rewrite Z.mul_mod_idemp_l by lia.
      replace e with (Z.succ (e - 1)) at 2 by lia.
      rewrite Z.pow_succ_r by lia. f_equal. ring.
  - assert (e = 0) as -> by lia. rewrite Z.pow_0_r, Z.mul_1_r.
    symmetry. apply Z.mod_small. lia.
Qed.

Lemma power_zero (base e m : Z) :
  m <> 0 -> base mod m = 0 -> power base e m = Ok 0.
Proof.
  intros Hm Hz. unfold power. rewrite py_mod_ok by exact Hm. simpl.
  rewrite Hz. reflexivity.
Qed.

Lemma power_nonzero (base e m : Z) :
  0 <= e -> 0 < m -> base mod m <> 0 -> power base e m = Ok (base ^ e mod m).
Proof.
  intros He Hm Hnz. unfold power. rewrite py_mod_ok by lia. simpl.
  destruct (Z.eqb_spec (base mod m) 0) as [Hz | _]; [contradiction |].
  assert (1 < m) by (destruct (Z.eq_dec m 1) as [-> |]; [rewrite Z.mod_1_r in Hnz |]; lia).
  rewrite power_loop_spec by lia.
  rewrite Z.mul_1_l, Z.mod_pow_l. reflexivity.
Qed.

(** C8. For every integer base, every exponent [e >= 0] and every modulus
    [m > 0], [power base e m] returns [base ^ e mod m] when [base mod m] is
    nonzero and returns [0] when [base mod m] is [0], whatever [e] is
    (also for [e = 0]). *)
Theorem power_correct (base e m : Z) :
  0 <= e -> 0 < m ->
  power base e m = Ok (if base mod m =? 0 then 0 else base ^ e mod m).
Proof.
  intros He Hm.
  destruct (Z.eqb_spec (base mod m) 0) as [Hz | Hnz].
  - apply power_zero; [lia | exact Hz].
  - apply power_nonzero; assumption.
Qed.

Lemma power_correct_witness :
  power 3 5 7 = Ok (if 3 mod 7 =? 0 then 0 else 3 ^ 5 mod 7).
Proof. apply (power_correct 3 5 7); lia. Defined.

(** ** Totality of the arithmetic helpers *)

Lemma power_total (x e p : Z) : p <> 0 -> exists v, power x e p = Ok v.
Proof.
  intros Hp. unfold power. rewrite py_mod_ok by exact Hp. simpl.
  destruct (x mod p =? 0); eauto.
Qed.

Lemma modInverse_total (x q : Z) : q <> 0 -> exists v, modInverse x q = Ok v.
Proof. intros Hq. unfold modInverse. apply power_total. exact Hq. Qed.

Lemma modInverse_zero (q : Z) : q <> 0 -> modInverse 0 q = Ok 0.
Proof.
  intros Hq. unfold modInverse, power. simpl.
  rewrite py_mod_ok by exact Hq. rewrite Z.mod_0_l by exact Hq. reflexivity.
Qed.

Lemma randint_ok (a b : Z) (t : tape) :
  a <= b ->
  randint a b t = Ok (a + t 0%nat mod (b - a + 1), tape_tail t) /\
  a <= a + t 0%nat mod (b - a + 1) <= b.
Proof.
  intros Hab. unfold randint. destruct (Z.leb_spec a b); [| lia].
  split; [reflexivity |].
  pose proof (Z.mod_pos_bound (t 0%nat) (b - a + 1)). lia.
Qed.

Lemma range_elem (a b i : Z) : i ∈ range a b <-> a <= i < b.
Proof. unfold range. rewrite elem_of_seqZ. lia. Qed.

Lemma range_length (a b : Z) : length (range a b) = Z.to_nat (b - a).
Proof. unfold range. apply length_seqZ. Qed.

Lemma getitem_total {A : Type} (l : list A) (i : Z) :
  0 <= i < Z.of_nat (length l) -> exists a, getitem l i = Ok a /\ l !! Z.to_nat i = Some a.
Proof.
  intros Hi. destruct (lookup_lt_is_Some_2 l (Z.to_nat i)) as [a Ha]; [lia |].
  exists a. split; [| exact Ha]. apply getitem_nonneg; [lia | exact Ha].
Qed.

(** ** Number theory: powers modulo a prime and modulo a product of two
       primes *)

Lemma pow_mod_one (a e m : Z) : 0 <= e -> 1 < m -> a mod m = 1 -> a ^ e mod m = 1.
Proof.
  intros He Hm Ha. rewrite <- Z.mod_pow_l, Ha, Z.pow_1_l by exact He.
  apply Z.mod_small. lia.
Qed.

Lemma coprime_mul_nonzero_mod (a p q : Z) :
  1 < p -> Z.gcd a (p * q) = 1 -> a mod p <> 0.
Proof.
  intros Hp Hg Hz. apply Z.mod_divide in Hz; [| lia].
  assert ((p | 1)) as Hd.
  { rewrite <- Hg. apply Z.gcd_greatest; [exact Hz | apply Z.divide_mul_l, Z.divide_refl]. }
  apply Z.divide_1_r_nonneg in Hd; lia.
Qed.

(** Euler's theorem for an RSA modulus. *)
Lemma euler_pq (p q a : Z) :
  Z.prime p -> Z.prime q -> p <> q -> Z.gcd a (p * q) = 1 ->
  a ^ ((p - 1) * (q - 1)) mod (p * q) = 1.
Proof.
  intros Hp Hq Hpq Hg.
  pose proof (Z.prime_ge_2 _ Hp). pose proof (Z.prime_ge_2 _ Hq).
  assert (a ^ ((p - 1) * (q - 1)) mod p = 1) as H1.
  { rewrite Z.pow_mul_r by lia. apply pow_mod_one; [lia | lia |].
    apply Z.fermat_nz; [exact Hp |]. apply (coprime_mul_nonzero_mod a p q); [lia | exact Hg]. }
  assert (a ^ ((p - 1) * (q - 1)) mod q = 1) as H2.
  { rewrite Z.mul_comm, Z.pow_mul_r by lia. apply pow_mod_one; [lia | lia |].
    apply Z.fermat_nz; [exact Hq |]. apply (coprime_mul_nonzero_mod a q p); [lia |].
    rewrite Z.mul_comm. exact Hg. }
  set (X := a ^ ((p - 1) * (q - 1))) in *.
  assert ((p | X - 1)) as D1.
  { apply Z.mod_divide; [lia |]. rewrite <- Zminus_mod_idemp_l, H1. reflexivity. }
  assert ((q | X - 1)) as D2.
  { apply Z.mod_divide; [lia |]. rewrite <- Zminus_mod_idemp_l, H2. reflexivity. }
  destruct D2 as [m Hm].
  assert ((p | m)) as [m' Hm'].
  { rewrite Hm in D1. apply (Z.divide_prime_mul _ _ _ Hp) in D1 as [D | D]; [exact D |].
    apply (Z.divide_prime_prime _ _ Hp Hq) in D. contradiction. }
  assert (X = 1 + m' * (p * q)) as -> by lia.
  rewrite Z.mod_add by lia. apply Z.mod_small. nia.
Qed.

(** Exponents that agree modulo [phi] give the same power of a unit. *)
Lemma pow_cong_exponent (a N phi e1 e2 : Z) :
  1 < N -> 0 < phi -> a ^ phi mod N = 1 ->
  0 <= e1 -> 0 <= e2 -> e1 mod phi = e2 mod phi ->
  a ^ e1 mod N = a ^ e2 mod N.
Proof.
  intros HN Hphi Ha He1 He2 Heq.
  assert (forall e, 0 <= e -> a ^ e mod N = a ^ (e mod phi) mod N) as Hred.
  { intros e He.
    assert (0 <= e / phi) by (apply Z.div_pos; lia).
    assert (0 <= e mod phi) by (apply Z.mod_pos_bound; lia).
    rewrite (Z.div_mod e phi) at 1 by lia.
    rewrite Z.pow_add_r, Z.pow_mul_r by nia.
    rewrite <- Z.mul_mod_idemp_l by lia.
    rewrite (pow_mod_one (a ^ phi)) by (assumption || lia).
    rewrite Z.mul_1_l. reflexivity. }
  rewrite (Hred e1), (Hred e2), Heq by assumption. reflexivity.
Qed.

(** ** The accumulator *)

Lemma py_pow_nonneg (b e m : Z) : m <> 0 -> 0 <= e -> py_pow b e m = Ok (b ^ e mod m).
Proof.
  intros Hm He. unfold py_pow.
  destruct (Z.eqb_spec m 0); [lia |]. destruct (Z.leb_spec 0 e); [reflexivity | lia].
Qed.

Lemma py_pow_inverse (b m : Z) :
  m <> 0 -> Z.gcd b m = 1 -> py_pow b (-1) m = Ok (Z.invmod b m).
Proof.
  intros Hm Hg. unfold py_pow.
  destruct (Z.eqb_spec m 0); [lia |]. simpl.
  rewrite Hg. simpl. rewrite Z.pow_1_r, Z.mod_invmod. reflexivity.
Qed.

Section AccumulatorProperties.
Import Acc.
Variable hash_to_prime : string -> Z -> Z.

Abbreviation H := (Acc.H hash_to_prime).
Abbreviation update := (Acc.update hash_to_prime).
Abbreviation proof := (Acc.proof hash_to_prime).
Abbreviation is_member := (Acc.is_member hash_to_prime).
Abbreviation update_exponent := (Acc.update_exponent hash_to_prime).

(** What [update] returns when the slot holds another value. *)
Lemma update_changed (self : Accumulator) (i : Z) (v xi : string) (k : nat) :
  py_index (length (x self)) i = Some k ->
  x self !! k = Some xi -> xi <> v ->
  length (w self) = Z.to_nat (n self) ->
  N self <> 0 -> 0 < phi self ->
  Z.gcd (H self i xi) (phi self) = 1 -> 0 <= H self i v ->
  let e := update_exponent self i xi v in
  update self i v =
  Ok (true, mkAccumulator (p self) (q self) (N self) (phi self) (seed self)
              (n self) (<[k:=v]> (x self))
              (imap (fun j wj => if bool_decide (Z.of_nat j <> i)
                                 then wj ^ e mod N self else wj) (w self))
              (security self) (r self) (alpha self ^ e mod N self)).
Proof.
  intros Hidx Hxi Hne Hlen HN Hphi Hgcd Hpv e.
  assert (0 <= e) as He.
  { unfold e, update_exponent. apply Z.mul_nonneg_nonneg; [| exact Hpv].
    unfold Z.invmod. apply Z.mod_pos_bound. lia. }
  assert (getitem (x self) i = Ok xi) as Hget
    by (unfold getitem; rewrite Hidx, Hxi; reflexivity).
  unfold Acc.update. rewrite Hget. simpl.
  destruct (String.eqb_spec xi v) as [-> | _]; [congruence |].
  rewrite py_pow_inverse by (trivial; lia). simpl.
  change (Z.invmod (H self i xi) (phi self) * H self i v) with e.
  rewrite py_pow_nonneg by assumption. simpl.
  assert (range 0 (n self) = range 0 (Z.of_nat (length (w self)))) as ->.
  { unfold range, seqZ. rewrite Hlen, !Z.sub_0_r, Nat2Z.id. reflexivity. }
  rewrite (for_each_range_imap
             (fun j wj => if bool_decide (Z.of_nat j <> i)
                          then wj ^ e mod N self else wj)).
  - simpl. unfold setitem. rewrite Hidx. reflexivity.
  - intros j a w' Hw' _ Hlen'. cbv beta. case_bool_decide.
    + rewrite (getitem_nat _ _ _ Hw'). simpl.
      rewrite py_pow_nonneg by assumption. simpl.
      apply setitem_nat. apply (lookup_lt_Some _ _ _ Hw').
    + rewrite list_insert_id by exact Hw'. reflexivity.
Qed.

Lemma update_same_value_noop_aux (self : Accumulator) (i : Z) (v : string) :
  0 <= i -> x self !! Z.to_nat i = Some v -> update self i v = Ok (false, self).
Proof.
  intros Hi Hv. unfold Acc.update.
  rewrite (getitem_nonneg _ _ _ Hi Hv). simpl.
  rewrite String.eqb_refl. reflexivity.
Qed.

Section Invariant.
Variables p0 q0 n0 : Z.
Hypothesis prime_p0 : Z.prime p0.
Hypothesis prime_q0 : Z.prime q0.
Hypothesis p0_q0 : p0 <> q0.
Hypothesis hash_pos : forall s sd, 0 < hash_to_prime s sd.
Hypothesis hash_coprime :
  forall s sd, Z.gcd (hash_to_prime s sd) ((p0 - 1) * (q0 - 1)) = 1.

Let N0 := p0 * q0.
Let phi0 := (p0 - 1) * (q0 - 1).

Lemma N0_gt_1 : 1 < N0.
Proof.
  pose proof (Z.prime_ge_2 _ prime_p0). pose proof (Z.prime_ge_2 _ prime_q0).
  unfold N0. nia.
Qed.

Lemma phi0_ge_2 : 2 <= phi0.
Proof.
  pose proof (Z.prime_ge_2 _ prime_p0). pose proof (Z.prime_ge_2 _ prime_q0).
  unfold phi0. nia.
Qed.










End Invariant.

(** C9. For every in-range slot index [i] whose stored value [x[i]]
    already equals [v], [update(i, v)] returns [False] and leaves the whole
    state unchanged: [alpha], every witness and every stored value are
    the same object before and after the call. *)
Theorem update_same_value_noop (self : Accumulator) (i : Z) (v : string) :
  0 <= i < n self -> x self !! Z.to_nat i = Some v ->
  update self i v = Ok (false, self).
Proof.
  intros [Hi _]. apply update_same_value_noop_aux. exact Hi.
Qed.



End AccumulatorProperties.

(** ** Worked examples of the accumulator *)

Lemma primeb_sound (n : Z) : primeb n = true -> Z.prime n.
Proof.
  unfold primeb. intros [Hn Hall]%andb_prop.
  apply Z.ltb_lt in Hn. split; [exact Hn |].
  intros d Hd Hdiv. rewrite forallb_forall in Hall.
  assert (In d (seqZ 2 (n - 2))) as Hin
    by (apply list_elem_of_In, elem_of_seqZ; lia).
  apply Hall in Hin. apply negb_true_iff, Z.eqb_neq in Hin.
  apply Hin, Z.mod_divide; [lia | exact Hdiv].
Qed.

Lemma example_hash_pos (s : string) (sd : Z) : 0 < example_hash s sd.
Proof. unfold example_hash. destruct (String.eqb s "0"); lia. Qed.

Example example_acc_init :
  Acc.init example_hash 3 5 2 (Some 128) 2048 0 example_tape
  = Ok (example_acc, tape_tail example_tape).
Proof. reflexivity. Qed.



Lemma update_same_value_noop_witness :
  Acc.update example_hash example_acc 0 "" = Ok (false, example_acc).
Proof.
  apply (update_same_value_noop example_hash example_acc 0 "").
  - simpl. lia.
  - reflexivity.
Defined.





(** ** Shamir sharing: what the share-producing operations return *)

Lemma seqZ_middle (s m : Z) (pre post : list Z) (a : Z) :
  seqZ s m = pre ++ a :: post -> a = s + Z.of_nat (length pre).
Proof.
  intros Hl.
  assert (seqZ s m !! length pre = Some a) as Hk
    by (rewrite Hl; apply list_lookup_middle; reflexivity).
  apply lookup_seqZ in Hk. lia.
Qed.

Lemma peval_app (l : list Z) (c x : Z) :
  peval (l ++ [c]) x = peval l x + c * x ^ Z.of_nat (length l).
Proof.
  induction l as [| d l IH]; cbn [app length].
  - cbn. rewrite Z.pow_0_r. ring.
  - change (peval (d :: l ++ [c]) x) with (d + x * peval (l ++ [c]) x).
    change (peval (d :: l) x) with (d + x * peval l x).
    rewrite IH, Nat2Z.inj_succ, Z.pow_succ_r by lia. ring.
Qed.

Section Ex09Properties.
Import Ex09.

Lemma generateCoefficients_spec (x f q : Z) (t : tape) :
  0 <= q ->
  exists cs t', generateCoefficients x f q t = Ok (x :: cs, t') /\
                length cs = Z.to_nat f.
Proof.
  intros Hq. unfold generateCoefficients.
  loop_invariant (fun pre (s : list Z * tape) =>
      exists cs, s.1 = x :: cs /\ length cs = length pre)
    as ([coeffs t'] & Hrun & cs & Hc & Hlen).
  - exists []. split; reflexivity.
  - intros pre a post [coeffs t0] _ (cs & Hc & Hlen). simpl in Hc. subst coeffs.
    destruct (randint_ok 0 q t0 Hq) as [-> _]. simpl.
    eexists. split; [reflexivity |]. simpl.
    eexists (cs ++ [_]). split; [reflexivity |]. rewrite !length_app. simpl. lia.
  - simpl in Hc. subst coeffs. exists cs, t'. split; [exact Hrun |].
    rewrite Hlen, range_length. f_equal. lia.
Qed.

Lemma polynomial_total (val : Z) (cs : list Z) (f q : Z) :
  0 < q -> (Z.to_nat (f + 1) <= length cs)%nat ->
  exists v, polynomial val cs f q = Ok v /\ 0 <= v < q.
Proof.
  intros Hq Hlen. unfold polynomial.
  loop_invariant (fun _ s => 0 <= s < q)
    as (v & Hrun & Hv).
  - lia.
  - intros pre i post s Hl _.
    assert (i ∈ range 0 (f + 1)) as Hi by (rewrite Hl; apply elem_of_middle).
    apply range_elem in Hi.
    destruct (getitem_total cs i) as (c & -> & _); [lia |]. simpl.
    destruct (power_total val i q) as (pw & ->); [lia |]. simpl.
    rewrite py_mod_ok by lia. eexists. split; [reflexivity |].
    apply Z.mod_pos_bound. lia.
  - eauto.
Qed.

(** [polynomial] evaluates the polynomial of the coefficient list, constant
    term first, at a point that is not a multiple of [q]. *)
Lemma polynomial_value (val : Z) (cs : list Z) (f q : Z) :
  0 < q -> val mod q <> 0 -> length cs = Z.to_nat (f + 1) ->
  polynomial val cs f q = Ok (peval cs val mod q).
Proof.
  intros Hq Hval Hlen. unfold polynomial.
  loop_invariant (fun pre s => s = peval (take (length pre) cs) val mod q)
    as (v & Hrun & Hv).
  - simpl. rewrite Z.mod_0_l by lia. reflexivity.
  - intros pre i post s Hl ->.
    assert (i ∈ range 0 (f + 1)) as Hi by (rewrite Hl; apply elem_of_middle).
    apply range_elem in Hi.
    apply seqZ_middle in Hl. rewrite Z.add_0_l in Hl. subst i.
    destruct (getitem_total cs (Z.of_nat (length pre))) as (c & -> & Hc); [lia |].
    rewrite Nat2Z.id in Hc. simpl.
    rewrite power_nonzero by (assumption || lia). simpl.
    rewrite py_mod_ok by lia. eexists. split; [reflexivity |].
    rewrite length_app. simpl. rewrite Nat.add_1_r.
    rewrite (take_S_r _ _ _ Hc), peval_app.
    rewrite length_take_le by (apply lookup_lt_Some in Hc; lia).
    rewrite Z.add_mod_idemp_l by lia.
    rewrite <- Z.add_mod_idemp_r, Z.mul_mod_idemp_r by lia.
    rewrite Z.add_mod_idemp_r by lia. reflexivity.
  - rewrite Hrun, Hv. rewrite range_length, take_ge by lia. reflexivity.
Qed.

Lemma share_loop (coeffs : list Z) (f n q : Z) :
  0 < q -> (Z.to_nat (f + 1) <= length coeffs)%nat ->
  for_each (range 1 (n + 1))
    (fun i shares =>
       polVal ← polynomial i coeffs f q;
       Ok (shares ++ [(i, polVal)]))
    []
  = Ok ((fun i => (i, value_of (polynomial i coeffs f q))) <$> seqZ 1 n).
Proof.
  intros Hq Hlen.
  loop_invariant (fun pre s =>
      s = (fun i => (i, value_of (polynomial i coeffs f q))) <$> pre)
    as (shares & -> & ->).
  - reflexivity.
  - intros pre i post s _ ->.
    destruct (polynomial_total i coeffs f q) as (v & Hv & _); [lia | lia |].
    rewrite Hv. simpl. eexists. split; [reflexivity |].
    rewrite fmap_app. simpl. rewrite Hv. reflexivity.
  - unfold range. replace (n + 1 - 1) with n by lia. reflexivity.
Qed.

Lemma share_spec (x f n q : Z) (t : tape) :
  0 < q ->
  exists cs t',
    generateCoefficients x f q t = Ok (x :: cs, t') /\
    length cs = Z.to_nat f /\
    share x f n q t =
      Ok ((fun i => (i, value_of (polynomial i (x :: cs) f q))) <$> seqZ 1 n, t').
Proof.
  intros Hq.
  destruct (generateCoefficients_spec x f q t) as (cs & t' & Hgen & Hlen); [lia |].
  exists cs, t'. split; [exact Hgen |]. split; [exact Hlen |].
  unfold share. rewrite Hgen. simpl.
  rewrite share_loop by (simpl; lia). reflexivity.
Qed.

(** The submitted Exercise10 file repeats these three functions; only the
    range of the random coefficients differs. *)
Lemma Ordiales10_share_spec (x f n p : Z) (t : tape) :
  0 < p ->
  exists cs t',
    Ordiales10.generateCoefficients x f p t = Ok (x :: cs, t') /\
    length cs = Z.to_nat f /\
    Ordiales10.share x f n p t =
      Ok ((fun i => (i, value_of (Ordiales10.polynomial i (x :: cs) f p))) <$> seqZ 1 n, t').
Proof.
  intros Hp.
  destruct (generateCoefficients_spec x f (p - 1) t) as (cs & t' & Hgen & Hlen); [lia |].
  exists cs, t'. split; [exact Hgen |]. split; [exact Hlen |].
  unfold Ordiales10.share.
  change (Ordiales10.generateCoefficients x f p t)
    with (generateCoefficients x f (p - 1) t).
  rewrite Hgen. simpl.
  change Ordiales10.polynomial with polynomial.
  rewrite share_loop by (simpl; lia). reflexivity.
Qed.

(** The shares [share_spec] describes: [n] of them, with the indices
    [1..n] in order and values in [0, q). *)
Lemma indexed_shares_shape (vals : Z -> Z) (n q : Z) :
  (forall i, 0 <= vals i < q) ->
  let shares := (fun i => (i, vals i)) <$> seqZ 1 n in
  length shares = Z.to_nat n /\ shares.*1 = seqZ 1 n /\
  Forall (fun sh => 0 <= sh.2 < q) shares.
Proof.
  intros Hvals shares. unfold shares. split; [| split].
  - rewrite length_fmap. apply length_seqZ.
  - rewrite <- list_fmap_compose. apply list_fmap_id.
  - apply Forall_fmap, Forall_forall. intros i _. simpl. apply Hvals.
Qed.

Lemma polynomial_value_range (val : Z) (cs : list Z) (f q : Z) :
  0 < q -> (Z.to_nat (f + 1) <= length cs)%nat ->
  0 <= value_of (polynomial val cs f q) < q.
Proof.
  intros Hq Hlen. destruct (polynomial_total val cs f q) as (v & -> & Hv); assumption.
Qed.

End Ex09Properties.

(** ** The reference solution of Exercise10: sharing *)

Lemma enumerate_middle {A : Type} (l : list A) (pre post : list (Z * A)) (e : Z * A) :
  enumerate l = pre ++ e :: post ->
  e.1 = Z.of_nat (length pre) /\ l !! length pre = Some e.2.
Proof.
  intros Hl.
  assert (enumerate l !! length pre = Some e) as Hk
    by (rewrite Hl; apply list_lookup_middle; reflexivity).
  unfold enumerate in Hk. rewrite list_lookup_imap in Hk.
  destruct (l !! length pre) as [a |]; [| discriminate].
  injection Hk as <-. split; reflexivity.
Qed.

Lemma enumerate_length {A : Type} (l : list A) : length (enumerate l) = length l.
Proof. unfold enumerate. apply length_imap. Qed.

Section Sol10Properties.
Import Sol10.

Lemma Sol10_generateCoefficients_spec (x f q : Z) (t : tape) :
  0 < q ->
  exists cs t', generateCoefficients x f q t = Ok (cs ++ [x], t') /\
                length cs = Z.to_nat f.
Proof.
  intros Hq. unfold generateCoefficients.
  loop_invariant (fun pre (s : list Z * tape) => length s.1 = length pre)
    as ([cs t'] & -> & Hlen).
  - reflexivity.
  - intros pre a post [cs t0] _ Hlen.
    destruct (randint_ok 0 (q - 1) t0) as [-> _]; [lia |]. simpl.
    eexists. split; [reflexivity |]. simpl in *. rewrite !length_app. simpl. lia.
  - simpl in *. exists cs, t'. split; [reflexivity |].
    rewrite Hlen, range_length. f_equal. lia.
Qed.

Lemma Sol10_polynomial_total (val : Z) (coefficients : list Z) (f q : Z) :
  0 < q -> exists v, polynomial val coefficients f q = Ok v /\ 0 <= v < q.
Proof.
  intros Hq. unfold polynomial.
  loop_invariant (fun _ s => 0 <= s < q)
    as (v & Hrun & Hv).
  - lia.
  - intros pre [i coeff] post s _ _.
    destruct (power_total val (f - i) q) as (pw & ->); [lia |]. simpl.
    rewrite py_mod_ok by lia. eexists. split; [reflexivity |].
    apply Z.mod_pos_bound. lia.
  - eauto.
Qed.

(** [polynomial] of the reference solution reads the coefficient list from
    the leading coefficient down to the constant term. *)
Lemma Sol10_polynomial_value (val : Z) (coefficients : list Z) (f q : Z) :
  0 < q -> val mod q <> 0 -> Z.of_nat (length coefficients) = f + 1 ->
  polynomial val coefficients f q = Ok (peval (rev coefficients) val mod q).
Proof.
  intros Hq Hval Hlen. unfold polynomial.
  loop_invariant (fun pre s =>
      s = (val ^ (f + 1 - Z.of_nat (length pre))
      * peval (rev (take (length pre) coefficients)) val) mod q)
    as (v & Hrun & Hv).
  - simpl. rewrite Z.mul_0_r, Z.mod_0_l by lia. reflexivity.
  - intros pre [i coeff] post s Hl ->.
    apply enumerate_middle in Hl as [Hi Hc]. simpl in Hi, Hc. subst i.
    pose proof (lookup_lt_Some _ _ _ Hc) as Hk.
    rewrite power_nonzero by (assumption || lia). simpl.
    rewrite py_mod_ok by lia. eexists. split; [reflexivity |].
    rewrite length_app. simpl. rewrite Nat.add_1_r.
    rewrite (take_S_r _ _ _ Hc), rev_app_distr. simpl.
    change (foldr (fun c acc => c + val * acc) 0 ?l) with (peval l val).
    rewrite Z.add_mod_idemp_l by lia.
    rewrite <- Z.add_mod_idemp_r, Z.mul_mod_idemp_r by lia.
    rewrite Z.add_mod_idemp_r by lia. f_equal.
    replace (f + 1 - Z.of_nat (length pre)) with (Z.succ (f - Z.of_nat (length pre))) by lia.
    replace (f + 1 - Z.of_nat (S (length pre))) with (f - Z.of_nat (length pre)) by lia.
    rewrite Z.pow_succ_r by lia. ring.
  - rewrite Hrun, Hv. rewrite enumerate_length, take_ge by lia.
    replace (f + 1 - Z.of_nat (length coefficients)) with 0 by lia.
    rewrite Z.pow_0_r, Z.mul_1_l. reflexivity.
Qed.

Lemma Sol10_share_spec (x f n q : Z) (t : tape) :
  0 < q ->
  exists cs t1 shares t',
    generateCoefficients x f q t = Ok (cs ++ [x], t1) /\
    length cs = Z.to_nat f /\
    share x f n q t = Ok (shares, t') /\
    length shares = Z.to_nat n /\
    Forall (fun sh => 0 <= sh.1 <= q - 1 /\ 0 <= sh.2 < q /\
                      polynomial sh.1 (cs ++ [x]) f q = Ok sh.2) shares.
Proof.
  intros Hq.
  destruct (Sol10_generateCoefficients_spec x f q t Hq) as (cs & t1 & Hgen & Hlen).
  exists cs, t1. unfold share. rewrite Hgen. simpl.
  loop_invariant (fun pre (s : list (Z * Z) * tape) =>
      length s.1 = length pre /\
      Forall (fun sh => 0 <= sh.1 <= q - 1 /\ 0 <= sh.2 < q /\
      polynomial sh.1 (cs ++ [x]) f q = Ok sh.2) s.1)
    as ([shares t'] & Hrun & Hl & Hall).
  - split; [reflexivity | constructor].
  - intros pre a post [shares t0] _ [Hl Hall]. simpl in Hl, Hall.
    destruct (randint_ok 0 (q - 1) t0) as [-> Hval]; [lia |]. simpl.
    destruct (Sol10_polynomial_total (0 + t0 0%nat mod (q - 1 - 0 + 1)) (cs ++ [x]) f q Hq)
      as (v & Hv & Hvr).
    rewrite Hv. simpl. eexists. split; [reflexivity |]. simpl.
    split; [rewrite !length_app; simpl; lia |].
    apply Forall_app. split; [exact Hall |]. constructor; [| constructor].
    simpl. split; [lia |]. split; [lia | exact Hv].
  - simpl in Hl, Hall. exists shares, t'.
    split; [reflexivity |]. split; [exact Hlen |]. split; [exact Hrun |].
    split; [| exact Hall]. rewrite Hl, range_length. f_equal. lia.
Qed.

Lemma Sol10_KeyGen_spec (p q g n f : Z) (t : tape) :
  3 <= q -> p <> 0 ->
  exists s cs pk shares t',
    KeyGen p q g n f t = Ok ((pk, shares), t') /\
    2 <= s <= q - 1 /\ power g s p = Ok pk /\
    length cs = Z.to_nat f /\ length shares = Z.to_nat n /\
    Forall (fun sh => 0 <= sh.1 <= q - 1 /\ 0 <= sh.2 < q /\
                      polynomial sh.1 (cs ++ [s]) f q = Ok sh.2) shares.
Proof.
  intros Hq Hp. unfold KeyGen.
  destruct (randint_ok 2 (q - 1) t) as [-> Hs]; [lia |]. simpl.
  set (s := 2 + t 0%nat mod (q - 1 - 2 + 1)) in *.
  destruct (Sol10_share_spec s f n q (tape_tail t)) as
    (cs & t1 & shares & t' & _ & Hlen & -> & Hn & Hall); [lia |]. simpl.
  destruct (power_total g s p Hp) as (pk & Hpk). rewrite Hpk. simpl.
  exists s, cs, pk, shares, t'. repeat split; try assumption; lia.
Qed.

End Sol10Properties.

Lemma Ordiales10_KeyGen_spec (g q p f n : Z) (t : tape) :
  3 <= q -> 0 < p ->
  exists x y shares t',
    Ordiales10.KeyGen g q p f n t = Ok ((x, y, shares), t') /\
    length shares = Z.to_nat n /\ shares.*1 = seqZ 1 n.
Proof.
  intros Hq Hp. unfold Ordiales10.KeyGen.
  destruct (randint_ok 2 (q - 1) t) as [-> _]; [lia |]. simpl.
  set (x := 2 + t 0%nat mod (q - 1 - 2 + 1)).
  destruct (power_total g x p) as (y & ->); [lia |]. simpl.
  destruct (Ordiales10_share_spec x f n p (tape_tail t) Hp) as (cs & t' & _ & Hlen & ->).
  simpl. eexists x, y, _, t'. split; [reflexivity |].
  split.
  - rewrite length_fmap. apply length_seqZ.
  - rewrite <- list_fmap_compose. apply list_fmap_id.
Qed.

(** X21. What the share-producing operations do return: each returns
    exactly [n] shares whose values lie in [0, m), [m] being the modulus
    it shares with ([q] in [KeyGen] of the reference solution, [p] in
    [KeyGen] of the submitted Exercise10 file).  [share] of Exercise09 and
    [share] and [KeyGen] of the submitted Exercise10 file index the shares
    [1..n] in order; [share] and [KeyGen] of the reference solution give
    every share an x-coordinate in [0..q-1]. *)
Theorem shares_shape (x f n m g q p : Z) (t : tape) :
  0 < m -> 3 <= q -> 0 < p ->
  (exists shares t',
      Ex09.share x f n m t = Ok (shares, t') /\
      length shares = Z.to_nat n /\ shares.*1 = seqZ 1 n /\
      Forall (fun sh => 0 <= sh.2 < m) shares)
  /\ (exists shares t',
      Ordiales10.share x f n m t = Ok (shares, t') /\
      length shares = Z.to_nat n /\ shares.*1 = seqZ 1 n /\
      Forall (fun sh => 0 <= sh.2 < m) shares)
  /\ (exists shares t',
      Sol10.share x f n m t = Ok (shares, t') /\
      length shares = Z.to_nat n /\
      Forall (fun sh => 0 <= sh.1 <= m - 1 /\ 0 <= sh.2 < m) shares)
  /\ (exists pk shares t',
      Sol10.KeyGen p q g n f t = Ok ((pk, shares), t') /\
      length shares = Z.to_nat n /\
      Forall (fun sh => 0 <= sh.1 <= q - 1 /\ 0 <= sh.2 < q) shares)
  /\ (exists sk pk shares t',
      Ordiales10.KeyGen g q p f n t = Ok ((sk, pk, shares), t') /\
      length shares = Z.to_nat n /\ shares.*1 = seqZ 1 n /\
      Forall (fun sh => 0 <= sh.2 < p) shares).
Proof.
  intros Hm Hq Hp. repeat apply conj.
  - destruct (share_spec x f n m t Hm) as (cs & t' & _ & Hlen & Hshare).
    eexists _, t'. split; [exact Hshare |].
    apply (indexed_shares_shape (fun i => value_of (Ex09.polynomial i (x :: cs) f m))).
    intros i. apply polynomial_value_range; [exact Hm | simpl; lia].
  - destruct (Ordiales10_share_spec x f n m t Hm) as (cs & t' & _ & Hlen & Hshare).
    eexists _, t'. split; [exact Hshare |].
    apply (indexed_shares_shape (fun i => value_of (Ordiales10.polynomial i (x :: cs) f m))).
    intros i. apply polynomial_value_range; [exact Hm | simpl; lia].
  - destruct (Sol10_share_spec x f n m t Hm)
      as (cs & t1 & shares & t' & _ & _ & Hshare & Hlen & Hall).
    exists shares, t'. split; [exact Hshare |]. split; [exact Hlen |].
    eapply Forall_impl; [exact Hall |]. intros sh (H1 & H2 & _). split; assumption.
  - destruct (Sol10_KeyGen_spec p q g n f t) as
      (s & cs & pk & shares & t' & Hkg & _ & _ & _ & Hlen & Hall); [lia | lia |].
    exists pk, shares, t'. split; [exact Hkg |]. split; [exact Hlen |].
    eapply Forall_impl; [exact Hall |]. intros sh (H1 & H2 & _). split; assumption.
  - unfold Ordiales10.KeyGen.
    destruct (randint_ok 2 (q - 1) t) as [-> _]; [lia |]. simpl.
    set (sk := 2 + t 0%nat mod (q - 1 - 2 + 1)).
    destruct (power_total g sk p) as (y & ->); [lia |]. simpl.
    destruct (Ordiales10_share_spec sk f n p (tape_tail t) Hp)
      as (cs & t' & _ & Hlen & ->).
    simpl. eexists sk, y, _, t'. split; [reflexivity |].
    apply (indexed_shares_shape
             (fun i => value_of (Ordiales10.polynomial i (sk :: cs) f p))).
    intros i. apply polynomial_value_range; [exact Hp | simpl; lia].
Qed.

Lemma shares_shape_witness :
  (exists shares t',
      Ex09.share 5 1 2 7 example_tape = Ok (shares, t') /\
      length shares = 2%nat /\ shares.*1 = [1; 2] /\
      Forall (fun sh => 0 <= sh.2 < 7) shares)
  /\ (exists shares t',
      Sol10.share 5 1 2 7 example_tape = Ok (shares, t') /\
      length shares = 2%nat /\
      Forall (fun sh => 0 <= sh.1 <= 7 - 1 /\ 0 <= sh.2 < 7) shares).
Proof.
  destruct (shares_shape 5 1 2 7 2 11 23 example_tape) as (H1 & _ & H3 & _); try lia.
  split; [exact H1 | exact H3].
Defined.

(** C7. Two of the share-producing operations break the shape of a
    share.  [share] and [KeyGen] of the reference solution draw every
    x-coordinate with [randint(0, q-1)] and check nothing: on a tape whose
    draws repeat, every share gets the x-coordinate 2, where the indices
    [1..n] are required.  [KeyGen] of the submitted Exercise10 file calls
    [share(x, f, n, p)]: it shares modulo [p], not modulo the subgroup
    order [q], and for [q = 11], [p = 23] returns the share values 15 and
    12, outside [0, q). *)
Theorem share_operations_break_shape :
  (exists t', Sol10.share 5 1 2 7 example_tape = Ok ([(2, 2); (2, 2)], t')) /\
  (exists t', Sol10.KeyGen 23 11 2 3 1 example_tape
              = Ok ((16, [(2, 8); (2, 8); (2, 8)]), t')) /\
  (exists t', Ordiales10.KeyGen 2 11 23 1 3 example_tape_distinct
              = Ok ((5, 9, [(1, 15); (2, 2); (3, 12)]), t')).
Proof.
  repeat split; eexists; vm_compute; reflexivity.
Qed.

(** ** [reconstruct] on degenerate share sets *)

Lemma reconstruct_inner_total (shares : list (Z * Z)) (q i : Z) :
  q <> 0 -> 0 <= i < Z.of_nat (length shares) ->
  exists nd, Ex09.reconstruct_inner shares q (Z.of_nat (length shares)) i = Ok nd.
Proof.
  intros Hq Hi. unfold Ex09.reconstruct_inner.
  loop_invariant (fun _ _ => True)
    as (nd & Hrun & _).
  - exact I.
  - intros pre j post [num den] Hl _.
    assert (j ∈ range 0 (Z.of_nat (length shares))) as Hj
      by (rewrite Hl; apply elem_of_middle).
    apply range_elem in Hj.
    case_bool_decide; [| eauto].
    destruct (getitem_total shares j) as (sj & -> & _); [lia |]. simpl.
    rewrite py_mod_ok by exact Hq. simpl.
    destruct (getitem_total shares i) as (si & -> & _); [lia |]. simpl.
    rewrite py_mod_ok by exact Hq. simpl. eauto.
  - eauto.
Qed.

(** C5, as amended.  [reconstruct] raises nothing for a modulus [q <> 0]:
    for every list of shares, also one in which an x-coordinate appears
    twice, it returns an integer; the modular inverse of 0 does not fail
    either, [modInverse(0, q)] returns 0. *)
Theorem reconstruct_total (shares : list (Z * Z)) (q : Z) :
  q <> 0 ->
  modInverse 0 q = Ok 0 /\ exists v, Ex09.reconstruct shares q = Ok v.
Proof.
  intros Hq. split; [apply modInverse_zero; exact Hq |].
  unfold Ex09.reconstruct.
  loop_invariant (fun _ _ => True)
    as (v & Hrun & _).
  - exact I.
  - intros pre i post secret Hl _.
    assert (i ∈ range 0 (Z.of_nat (length shares))) as Hi
      by (rewrite Hl; apply elem_of_middle).
    apply range_elem in Hi.
    destruct (reconstruct_inner_total shares q i Hq) as ([num den] & ->); [lia |]. simpl.
    destruct (getitem_total shares i) as (si & -> & _); [lia |]. simpl.
    destruct (modInverse_total den q Hq) as (inv & ->). simpl.
    rewrite py_mod_ok by exact Hq. eauto.
  - eauto.
Qed.

Lemma reconstruct_total_witness :
  modInverse 0 7 = Ok 0 /\ exists v, Ex09.reconstruct [(1, 5); (1, 6)] 7 = Ok v.
Proof. apply (reconstruct_total [(1, 5); (1, 6)] 7). lia. Defined.

(** C5 as stated fails: on two shares with the same x-coordinate
    [reconstruct] returns 0, and no exception is raised. *)
Lemma reconstruct_duplicate_counterexample :
  Ex09.reconstruct [(1, 5); (1, 6)] 7 = Ok 0.
Proof. vm_compute. reflexivity. Qed.

(** ** Recombination in the submitted Exercise10 file *)

(** C3. [Recover] of the submitted file reduces the Lagrange coefficients
    modulo [p], not modulo [q].  With [p = 23], [q = 11], [g = 2], the key
    [pk = 16] with secret 4 shared as [(1, 6)], [(2, 8)], and [R = 16], the
    decryption shares of parties 1 and 2 are [(1, 4)] and [(2, 12)]: the
    coefficient of the second is [22 = -1 mod 23], where the reference
    solution computes [10 = -1 mod 11]; the value [Recover] hashes is 16,
    not the masking value [pk^r = 16^4 = 9 (mod 23)]; [Recover] does not
    depend on [q] at all. *)
Theorem Recover_reduces_mod_p :
  Ordiales10.Dec (1, 6) 16 23 = Ok (1, 4) /\
  Ordiales10.Dec (2, 8) 16 23 = Ok (2, 12) /\
  Ordiales10.Recover_lamb [(1, 4); (2, 12)] 23 2 1 = Ok 22 /\
  Sol10.recover_exp 11 [(1, 4); (2, 12)] 1 2 = Ok 10 /\
  power 16 4 23 = Ok 9 /\
  (forall sha256_int C,
     Ordiales10.Recover sha256_int [(1, 4); (2, 12)] C 23 11
     = Ok (Z.lxor (sha256_int 16) C)) /\
  (forall sha256_int S C p q q',
     Ordiales10.Recover sha256_int S C p q = Ordiales10.Recover sha256_int S C p q').
Proof.
  repeat split; try (vm_compute; reflexivity).
Qed.

(** ** Polynomials over the integers modulo a prime *)

Lemma peval_cons (c : Z) (cs : list Z) (x : Z) : peval (c :: cs) x = c + x * peval cs x.
Proof. reflexivity. Qed.

Lemma peval_padd (p1 p2 : list Z) (x : Z) :
  peval (padd p1 p2) x = peval p1 x + peval p2 x.
Proof.
  revert p2. induction p1 as [| a p1 IH]; intros [| b p2]; simpl padd;
    rewrite ?peval_cons; try (cbn; lia).
  rewrite IH. ring.
Qed.

Lemma peval_pscale (c : Z) (p : list Z) (x : Z) : peval (pscale c p) x = c * peval p x.
Proof.
  induction p as [| a p IH]; [cbn; lia |].
  change (pscale c (a :: p)) with (c * a :: pscale c p).
  rewrite !peval_cons, IH. ring.
Qed.

Lemma peval_plin (a : Z) (p : list Z) (x : Z) : peval (plin a p) x = (a - x) * peval p x.
Proof. unfold plin. rewrite peval_padd, peval_cons, !peval_pscale. ring. Qed.

Lemma zprod_cons (a : Z) (l : list Z) : zprod (a :: l) = a * zprod l.
Proof. reflexivity. Qed.

Lemma zprod_app (l1 l2 : list Z) : zprod (l1 ++ l2) = zprod l1 * zprod l2.
Proof.
  induction l1 as [| a l1 IH]; simpl app; rewrite ?zprod_cons; [cbn; lia |].
  rewrite IH. ring.
Qed.

Lemma zsum_cons (a : Z) (l : list Z) : zsum (a :: l) = a + zsum l.
Proof. reflexivity. Qed.

Lemma zsum_app (l1 l2 : list Z) : zsum (l1 ++ l2) = zsum l1 + zsum l2.
Proof.
  induction l1 as [| a l1 IH]; simpl app; rewrite ?zsum_cons; [cbn; lia |].
  rewrite IH. ring.
Qed.

Lemma peval_proots (zs : list Z) (x : Z) :
  peval (proots zs) x = zprod ((fun z => z - x) <$> zs).
Proof.
  induction zs as [| z zs IH]; [cbn; lia |].
  change (proots (z :: zs)) with (plin z (proots zs)).
  rewrite peval_plin, IH. reflexivity.
Qed.

Lemma peval_psum (ps : list (list Z)) (x : Z) :
  peval (psum ps) x = zsum ((fun p => peval p x) <$> ps).
Proof.
  induction ps as [| p ps IH]; [reflexivity |].
  change (psum (p :: ps)) with (padd p (psum ps)).
  rewrite peval_padd, IH. reflexivity.
Qed.

Lemma length_padd (p1 p2 : list Z) :
  length (padd p1 p2) = Nat.max (length p1) (length p2).
Proof.
  revert p2. induction p1 as [| a p1 IH]; intros [| b p2]; simpl; try reflexivity.
  rewrite IH. reflexivity.
Qed.

Lemma length_pscale (c : Z) (p : list Z) : length (pscale c p) = length p.
Proof. unfold pscale. apply length_fmap. Qed.

Lemma length_plin (a : Z) (p : list Z) : length (plin a p) = S (length p).
Proof. unfold plin. rewrite length_padd. simpl. rewrite !length_pscale. lia. Qed.

Lemma length_proots (zs : list Z) : length (proots zs) = S (length zs).
Proof.
  induction zs as [| z zs IH]; [reflexivity |].
  change (proots (z :: zs)) with (plin z (proots zs)).
  rewrite length_plin, IH. reflexivity.
Qed.

Lemma length_psum (ps : list (list Z)) (n : nat) :
  Forall (fun p => (length p <= n)%nat) ps -> (length (psum ps) <= n)%nat.
Proof.
  induction 1 as [| p ps Hp _ IH]; [simpl; lia |].
  change (psum (p :: ps)) with (padd p (psum ps)).
  rewrite length_padd. lia.
Qed.

(** Division by [X - r]. *)
Lemma pquot_spec (r : Z) (cs : list Z) (x : Z) :
  peval cs x = (x - r) * peval (pquot r cs) x + peval cs r.
Proof.
  induction cs as [| c cs IH]; [cbn; lia |].
  destruct cs as [| c' cs]; [cbn; lia |].
  change (pquot r (c :: c' :: cs)) with (peval (c' :: cs) r :: pquot r (c' :: cs)).
  rewrite (peval_cons c), (peval_cons c (c' :: cs) r), (peval_cons (peval (c' :: cs) r)).
  rewrite IH at 1. ring.
Qed.

Lemma length_pquot (r : Z) (cs : list Z) : length (pquot r cs) = pred (length cs).
Proof.
  induction cs as [| c cs IH]; [reflexivity |].
  destruct cs as [| c' cs]; [reflexivity |].
  change (pquot r (c :: c' :: cs)) with (peval (c' :: cs) r :: pquot r (c' :: cs)).
  cbn [length] in *. rewrite IH. reflexivity.
Qed.

Section PrimeField.
Variable q : Z.
Hypothesis prime_q : Z.prime q.

Lemma q_ge_2 : 2 <= q.
Proof. apply Z.prime_ge_2. exact prime_q. Qed.

Lemma mul_mod_zero (a b : Z) : (a * b) mod q = 0 -> a mod q = 0 \/ b mod q = 0.
Proof.
  pose proof q_ge_2 as Hq. intros Hab.
  apply Z.mod_divide in Hab; [| lia].
  apply (Z.divide_prime_mul _ _ _ prime_q) in Hab as [Hd | Hd];
    [left | right]; apply Z.mod_divide; (lia || exact Hd).
Qed.

Lemma cong_sub_zero (a b : Z) : (a - b) mod q = 0 <-> a mod q = b mod q.
Proof. symmetry. apply Z.cong_iff_0. Qed.

(** A polynomial with more distinct roots than coefficients vanishes
    everywhere. *)
Lemma poly_roots_zero (roots : list Z) :
  NoDup ((fun r => r mod q) <$> roots) ->
  forall cs, (length cs <= length roots)%nat ->
  (forall r, r ∈ roots -> peval cs r mod q = 0) ->
  forall x, peval cs x mod q = 0.
Proof.
  pose proof q_ge_2 as Hq.
  induction roots as [| r roots IH]; intros Hnd cs Hlen Hroots x.
  - destruct cs; [| simpl in Hlen; lia]. apply Z.mod_0_l. lia.
  - rewrite fmap_cons in Hnd. apply NoDup_cons in Hnd as [Hr Hnd].
    assert (peval cs r mod q = 0) as Hcr by (apply Hroots; left).
    assert (forall y, peval (pquot r cs) y mod q = 0) as Hquot.
    { apply (IH Hnd).
      - rewrite length_pquot. simpl in Hlen. lia.
      - intros r' Hr'.
        assert (peval cs r' mod q = 0) as Hcr' by (apply Hroots; right; exact Hr').
        rewrite (pquot_spec r cs r') in Hcr'.
        rewrite <- Z.add_mod_idemp_r, Hcr, Z.add_0_r in Hcr' by lia.
        apply mul_mod_zero in Hcr' as [Hz | Hz]; [| exact Hz].
        exfalso. apply Hr. apply cong_sub_zero in Hz. rewrite <- Hz.
        apply (list_elem_of_fmap_2 (fun r => r mod q)). exact Hr'. }
    rewrite (pquot_spec r cs x).
    rewrite <- Z.add_mod_idemp_r, Hcr, Z.add_0_r by lia.
    rewrite <- Z.mul_mod_idemp_r, Hquot, Z.mul_0_r by lia.
    apply Z.mod_0_l. lia.
Qed.

Lemma zprod_mod_nonzero (l : list Z) :
  Forall (fun a => a mod q <> 0) l -> zprod l mod q <> 0.
Proof.
  pose proof q_ge_2 as Hq.
  induction 1 as [| a l Ha _ IH].
  - cbn. rewrite Z.mod_1_l by lia. lia.
  - rewrite zprod_cons. intros [Hz | Hz]%mul_mod_zero; contradiction.
Qed.

Lemma zprod_zero (l : list Z) : 0 ∈ l -> zprod l = 0.
Proof.
  induction l as [| a l IH]; intros Hin.
  - inversion Hin.
  - rewrite zprod_cons. apply elem_of_cons in Hin as [<- | Hin]; [lia |].
    rewrite IH by exact Hin. lia.
Qed.

(** Fermat's little theorem as the inverse that [modInverse] computes. *)
Lemma fermat_inverse (a : Z) : a mod q <> 0 -> (a ^ (q - 2) * a) mod q = 1.
Proof.
  pose proof q_ge_2 as Hq. intros Ha.
  rewrite <- (Z.fermat_nz q a prime_q Ha).
  replace (q - 1) with (Z.succ (q - 2)) by lia.
  rewrite Z.pow_succ_r by lia. f_equal. ring.
Qed.

Lemma zsum_imap_cong {A : Type} (f g : nat -> A -> Z) (l : list A) :
  (forall i a, l !! i = Some a -> f i a mod q = g i a mod q) ->
  zsum (imap f l) mod q = zsum (imap g l) mod q.
Proof.
  pose proof q_ge_2 as Hq.
  revert f g. induction l as [| a l IH]; intros f g Hfg; [reflexivity |].
  rewrite !imap_cons, !zsum_cons.
  rewrite <- Z.add_mod_idemp_l, <- (Z.add_mod_idemp_r (f 0%nat a mod q)) by lia.
  rewrite (Hfg 0%nat a eq_refl), (IH (f ∘ S) (g ∘ S)) by (intros i b Hb; apply Hfg; exact Hb).
  rewrite Z.add_mod_idemp_l, Z.add_mod_idemp_r by lia. reflexivity.
Qed.

Lemma zsum_imap_zero {A : Type} (f : nat -> A -> Z) (l : list A) :
  (forall i a, l !! i = Some a -> f i a mod q = 0) ->
  zsum (imap f l) mod q = 0.
Proof.
  pose proof q_ge_2 as Hq. intros Hf.
  rewrite (zsum_imap_cong f (fun _ _ => 0)).
  - clear Hf. induction l as [| a l IH]; [reflexivity |].
    rewrite imap_cons, zsum_cons, Z.add_0_l. exact IH.
  - intros i a Hi. rewrite (Hf i a Hi). reflexivity.
Qed.

Lemma zsum_imap_single {A : Type} (f : nat -> A -> Z) (l : list A) (k : nat) (a : A) :
  l !! k = Some a ->
  (forall i b, l !! i = Some b -> i <> k -> f i b mod q = 0) ->
  zsum (imap f l) mod q = f k a mod q.
Proof.
  pose proof q_ge_2 as Hq.
  revert f k. induction l as [| b l IH]; intros f k Hk Hf; [discriminate |].
  rewrite imap_cons, zsum_cons. destruct k as [| k].
  - injection Hk as ->.
    rewrite <- Z.add_mod_idemp_r by lia. rewrite zsum_imap_zero.
    + rewrite Z.add_0_r. reflexivity.
    + intros i c Hc. apply (Hf (S i) c Hc). lia.
  - rewrite <- Z.add_mod_idemp_l, (Hf 0%nat b eq_refl), Z.add_0_l by lia.
    apply (IH (f ∘ S) k Hk). intros i c Hc Hik. apply (Hf (S i) c Hc). lia.
Qed.

(** The points other than the one at position [k] differ from it modulo
    [q]. *)
Lemma others_differ (xs : list Z) (k : nat) (xk : Z) :
  NoDup ((fun x => x mod q) <$> xs) -> xs !! k = Some xk ->
  Forall (fun a => a mod q <> 0) ((fun xj => xj - xk) <$> delete k xs).
Proof.
  intros Hnd Hk. apply Forall_fmap, Forall_forall. intros z Hz. simpl.
  rewrite cong_sub_zero. intros Heq.
  pose proof (delete_Permutation _ _ _ Hk) as Hperm.
  rewrite Hperm, fmap_cons in Hnd. apply NoDup_cons in Hnd as [Hnotin _].
  apply Hnotin. rewrite <- Heq. apply (list_elem_of_fmap_2 (fun x => x mod q)). exact Hz.
Qed.

Lemma other_point_in_delete (xs : list Z) (i k : nat) (xk : Z) :
  xs !! k = Some xk -> i <> k -> xk ∈ delete i xs.
Proof.
  intros Hk Hik. destruct (Nat.lt_ge_cases k i) as [Hlt | Hge].
  - apply (list_elem_of_lookup_2 _ k). rewrite list_lookup_delete_lt by exact Hlt. exact Hk.
  - destruct k as [| k]; [lia |].
    apply (list_elem_of_lookup_2 _ k). rewrite list_lookup_delete_ge by lia. exact Hk.
Qed.

(** Lagrange interpolation at 0: the shares of a polynomial with at most
    as many coefficients as there are shares, at x-coordinates that are
    pairwise distinct modulo [q], recombine to its constant term. *)
Lemma lagrange_interpolation_zero (cs : list Z) (S : list (Z * Z)) :
  NoDup ((fun x => x mod q) <$> S.*1) ->
  (length cs <= length S)%nat ->
  (forall sh, sh ∈ S -> sh.2 mod q = peval cs sh.1 mod q) ->
  zsum (imap (lagrange_term q S.*1) S) mod q = peval cs 0 mod q.
Proof.
  pose proof q_ge_2 as Hq. intros Hnd Hlen Hys.
  set (xs := S.*1) in *.
  set (den := fun (i : nat) (sh : Z * Z) => zprod ((fun xj => xj - sh.1) <$> delete i xs)).
  set (T := fun (i : nat) (sh : Z * Z) =>
              pscale (sh.2 * den i sh ^ (q - 2)) (proots (delete i xs))).
  set (L := psum (imap T S)).
  assert (forall x, peval L x = zsum (imap (fun i sh => peval (T i sh) x) S)) as HL.
  { intros x. unfold L. rewrite peval_psum, fmap_imap. reflexivity. }
  assert (length xs = length S) as Hxs by (unfold xs; apply length_fmap).
  assert ((length L <= length S)%nat) as HlenL.
  { apply length_psum, Forall_lookup. intros i p Hp.
    apply list_lookup_imap_Some in Hp as (sh & Hsh & ->).
    unfold T. rewrite length_pscale, length_proots, length_delete.
    - apply lookup_lt_Some in Hsh. lia.
    - apply lookup_lt_is_Some. apply lookup_lt_Some in Hsh. lia. }
  assert (forall k sh, S !! k = Some sh -> peval L sh.1 mod q = sh.2 mod q) as Hinterp.
  { intros k sh Hk. rewrite HL.
    assert (xs !! k = Some sh.1) as Hxk by (unfold xs; rewrite list_lookup_fmap, Hk; reflexivity).
    rewrite (zsum_imap_single _ S k sh Hk).
    - unfold T. rewrite peval_pscale, peval_proots. fold (den k sh).
      replace (sh.2 * den k sh ^ (q - 2) * den k sh)
        with (sh.2 * (den k sh ^ (q - 2) * den k sh)) by ring.
      rewrite <- Z.mul_mod_idemp_r by lia. rewrite fermat_inverse.
      + rewrite Z.mul_1_r. reflexivity.
      + apply zprod_mod_nonzero, others_differ; assumption.
    - intros i sh' _ Hik. unfold T. rewrite peval_pscale, peval_proots.
      rewrite (zprod_zero ((fun z => z - sh.1) <$> delete i xs)).
      + rewrite Z.mul_0_r. apply Z.mod_0_l. lia.
      + apply list_elem_of_fmap. exists sh.1. split; [lia |].
        apply (other_point_in_delete xs i k); assumption. }
  assert (peval (padd cs (pscale (-1) L)) 0 mod q = 0) as Hzero.
  { apply (poly_roots_zero xs Hnd).
    - rewrite length_padd, length_pscale. lia.
    - intros r Hr. apply list_elem_of_lookup_1 in Hr as [k Hk].
      unfold xs in Hk. rewrite list_lookup_fmap in Hk.
      destruct (S !! k) as [sh |] eqn:Hsh; [| discriminate]. injection Hk as <-.
      rewrite peval_padd, peval_pscale.
      apply cong_sub_zero. replace (peval cs sh.1 + -1 * peval L sh.1 - 0)
        with (peval cs sh.1 - peval L sh.1) by ring.
      apply cong_sub_zero.
      replace (peval cs sh.1 - peval L sh.1 - 0) with (peval cs sh.1 - peval L sh.1) by ring.
      apply cong_sub_zero. rewrite (Hinterp k sh Hsh). symmetry. apply Hys.
      apply (list_elem_of_lookup_2 _ k). exact Hsh. }
  rewrite peval_padd, peval_pscale in Hzero.
  replace (peval cs 0 + -1 * peval L 0) with (peval cs 0 - peval L 0) in Hzero by ring.
  apply cong_sub_zero in Hzero. rewrite Hzero, HL.
  apply zsum_imap_cong. intros i sh _. f_equal.
  unfold lagrange_term, T. rewrite peval_pscale, peval_proots. fold xs. fold (den i sh).
  replace ((fun z => z - 0) <$> delete i xs) with (delete i xs).
  - ring.
  - rewrite <- (list_fmap_id (delete i xs)) at 1. apply list_fmap_ext.
    intros j z _. simpl. lia.
Qed.

End PrimeField.

(** ** [reconstruct] computes the Lagrange sum *)

Lemma mod_mul_cong (q a a' b b' : Z) :
  a mod q = a' mod q -> b mod q = b' mod q -> (a * b) mod q = (a' * b') mod q.
Proof. intros Ha Hb. rewrite (Zmult_mod a), (Zmult_mod a'), Ha, Hb. reflexivity. Qed.

Lemma mod_add_cong (q a a' b b' : Z) :
  a mod q = a' mod q -> b mod q = b' mod q -> (a + b) mod q = (a' + b') mod q.
Proof. intros Ha Hb. rewrite (Zplus_mod a), (Zplus_mod a'), Ha, Hb. reflexivity. Qed.

Lemma mod_pow_cong (q a a' e : Z) :
  a mod q = a' mod q -> a ^ e mod q = a' ^ e mod q.
Proof. intros Ha. rewrite <- (Z.mod_pow_l a), <- (Z.mod_pow_l a'), Ha. reflexivity. Qed.

Lemma zprod_imap_except (i : nat) (f : Z -> Z) (xs : list Z) :
  zprod (imap (fun j xj => if decide (j = i) then 1 else f xj) xs)
  = zprod (f <$> delete i xs).
Proof.
  revert i. induction xs as [| x xs IH]; intros i; [reflexivity |].
  rewrite imap_cons, zprod_cons. destruct i as [| i].
  - simpl. rewrite (imap_ext _ (fun _ => f)) by (intros; reflexivity).
    change (fun _ : nat => f) with (@const (Z -> Z) nat f).
    rewrite imap_const. apply Z.mul_1_l.
  - change (delete (S i) (x :: xs)) with (x :: delete i xs).
    rewrite fmap_cons, zprod_cons, <- IH.
    destruct (decide (0%nat = S i)); [lia |]. do 2 f_equal.
    apply imap_ext. intros j y _. simpl.
    destruct (decide (S j = S i)), (decide (j = i)); try reflexivity; lia.
Qed.

Lemma take_range_length {A : Type} (l : list A) :
  take (length (range 0 (Z.of_nat (length l)))) l = l.
Proof. rewrite range_length, take_ge by lia. reflexivity. Qed.

Section ReconstructValue.
Variable q : Z.
Hypothesis prime_q : Z.prime q.

Lemma modInverse_value (den : Z) :
  0 <= den -> den mod q <> 0 -> modInverse den q = Ok (den ^ (q - 2) mod q).
Proof.
  pose proof (Z.prime_ge_2 _ prime_q) as Hq. intros Hd Hnz.
  unfold modInverse. destruct (Z.ltb_spec den 0); [lia |].
  apply power_nonzero; (lia || assumption).
Qed.

Lemma reconstruct_inner_value (S : list (Z * Z)) (i : nat) (si : Z * Z) :
  S !! i = Some si ->
  exists num den,
    Ex09.reconstruct_inner S q (Z.of_nat (length S)) (Z.of_nat i) = Ok (num, den) /\
    num mod q = zprod (delete i S.*1) mod q /\
    den mod q = zprod ((fun xj => xj - si.1) <$> delete i S.*1) mod q /\
    0 <= den.
Proof.
  pose proof (Z.prime_ge_2 _ prime_q) as Hq. intros Hi.
  set (xs := S.*1).
  set (fn := fun (j : nat) (xj : Z) => if decide (j = i) then 1 else xj).
  set (fd := fun (j : nat) (xj : Z) => if decide (j = i) then 1 else xj - si.1).
  unfold Ex09.reconstruct_inner.
  loop_invariant (fun pre (s : Z * Z) =>
      s.1 mod q = zprod (imap fn (take (length pre) xs)) mod q /\
      s.2 mod q = zprod (imap fd (take (length pre) xs)) mod q /\
      0 <= s.2)
    as ([num den] & Hrun & Hn & Hd & Hpos).
  - simpl. repeat split; lia.
  - intros pre j post [num den] Hl (Hn & Hd & Hpos). simpl in Hn, Hd, Hpos.
    assert (j ∈ range 0 (Z.of_nat (length S))) as Hj by (rewrite Hl; apply elem_of_middle).
    apply range_elem in Hj.
    apply seqZ_middle in Hl. rewrite Z.add_0_l in Hl. subst j.
    set (k := length pre) in *.
    destruct (getitem_total S (Z.of_nat k)) as (sj & Hgj & Hsj); [lia |].
    rewrite Nat2Z.id in Hsj.
    assert (xs !! k = Some sj.1) as Hxk
      by (unfold xs; rewrite list_lookup_fmap, Hsj; reflexivity).
    assert (take (length (pre ++ [Z.of_nat k])) xs = take k xs ++ [sj.1]) as Htake.
    { rewrite length_app. simpl. fold k. rewrite Nat.add_1_r.
      apply take_S_r. exact Hxk. }
    assert (length (take k xs) = k) as Hlk
      by (apply length_take_le; apply lookup_lt_Some in Hxk; lia).
    rewrite Htake, !imap_app, !zprod_app, Hlk. simpl imap.
    rewrite Nat.add_0_r. unfold zprod at 2 4. simpl foldr. rewrite !Z.mul_1_r.
    case_bool_decide as Hik.
    + rewrite Hgj. simpl. rewrite py_mod_ok by lia. simpl.
      rewrite (getitem_nat _ _ _ Hi). simpl. rewrite py_mod_ok by lia. simpl.
      eexists. split; [reflexivity |]. simpl.
      unfold fn at 2, fd at 2.
      destruct (decide (k = i)) as [-> | _]; [lia |].
      rewrite !Z.mod_mod by lia.
      split; [apply mod_mul_cong; [exact Hn | reflexivity] |].
      split; [apply mod_mul_cong; [exact Hd | reflexivity] |].
      apply Z.mod_pos_bound. lia.
    + eexists. split; [reflexivity |]. simpl.
      unfold fn at 2, fd at 2.
      destruct (decide (k = i)) as [_ | Hne]; [| lia].
      rewrite !Z.mul_1_r. repeat split; assumption.
  - simpl in Hn, Hd, Hpos. exists num, den. split; [exact Hrun |].
    unfold xs in Hn, Hd.
    rewrite range_length, take_ge in Hn, Hd by (rewrite length_fmap; lia).
    unfold fn in Hn. unfold fd in Hd.
    rewrite (zprod_imap_except i (fun xj => xj)), list_fmap_id in Hn.
    rewrite (zprod_imap_except i (fun xj => xj - si.1)) in Hd.
    repeat split; assumption.
Qed.

(** [reconstruct] returns the Lagrange sum at 0 when the x-coordinates are
    pairwise distinct modulo [q]. *)
Lemma reconstruct_value (S : list (Z * Z)) :
  NoDup ((fun x => x mod q) <$> S.*1) ->
  Ex09.reconstruct S q = Ok (zsum (imap (lagrange_term q S.*1) S) mod q).
Proof.
  pose proof (Z.prime_ge_2 _ prime_q) as Hq. intros Hnd.
  unfold Ex09.reconstruct.
  loop_invariant (fun pre secret =>
      secret = zsum (imap (lagrange_term q S.*1) (take (length pre) S)) mod q)
    as (v & Hrun & Hv).
  - simpl. rewrite Z.mod_0_l by lia. reflexivity.
  - intros pre i post secret Hl ->.
    assert (i ∈ range 0 (Z.of_nat (length S))) as Hi by (rewrite Hl; apply elem_of_middle).
    apply range_elem in Hi.
    apply seqZ_middle in Hl. rewrite Z.add_0_l in Hl. subst i.
    set (k := length pre) in *.
    destruct (getitem_total S (Z.of_nat k)) as (si & Hgi & Hsi); [lia |].
    rewrite Nat2Z.id in Hsi.
    destruct (reconstruct_inner_value S k si Hsi) as (num & den & -> & Hn & Hd & Hpos).
    simpl. rewrite Hgi. simpl.
    assert (den mod q <> 0) as Hnz.
    { rewrite Hd. apply zprod_mod_nonzero; [exact prime_q |].
      apply others_differ; [exact Hnd |].
      rewrite list_lookup_fmap, Hsi. reflexivity. }
    rewrite modInverse_value by assumption. simpl.
    rewrite py_mod_ok by lia. eexists. split; [reflexivity |].
    rewrite length_app. simpl. fold k. rewrite Nat.add_1_r.
    rewrite (take_S_r _ _ _ Hsi), imap_app, zsum_app.
    rewrite length_take_le by (apply lookup_lt_Some in Hsi; lia).
    simpl imap. rewrite Nat.add_0_r. unfold zsum at 3. simpl foldr. rewrite Z.add_0_r.
    apply mod_add_cong; [apply Z.mod_mod; lia |].
    unfold lagrange_term.
    replace (den ^ (q - 2) mod q * (num * si.2))
      with (si.2 * (num * (den ^ (q - 2) mod q))) by ring.
    apply mod_mul_cong; [reflexivity |].
    apply mod_mul_cong; [exact Hn |].
    rewrite Z.mod_mod by lia. apply mod_pow_cong. exact Hd.
  - rewrite Hrun, Hv, take_range_length. reflexivity.
Qed.

End ReconstructValue.

Lemma submseteq_NoDup {A : Type} (l k : list A) : l ⊆+ k -> NoDup k -> NoDup l.
Proof.
  intros Hsub Hnd. apply submseteq_Permutation in Hsub as [k' Hk'].
  rewrite Hk' in Hnd. apply NoDup_app in Hnd as [Hl _]. exact Hl.
Qed.

Lemma NoDup_mod_small (q : Z) (xs : list Z) :
  NoDup xs -> Forall (fun x => 0 <= x < q) xs -> NoDup ((fun x => x mod q) <$> xs).
Proof.
  intros Hnd Hall. apply NoDup_fmap_2_strong; [| exact Hnd].
  rewrite Forall_forall in Hall.
  intros x y Hx Hy. rewrite !Z.mod_small by (apply Hall; assumption). trivial.
Qed.

(** C1. Shamir round trip: for a prime [q > n], a secret [0 <= s < q], a
    threshold [f >= 1] and [n >= f+1] parties, [share] returns [n] shares,
    and [reconstruct] applied to any [f+1] of them, whichever they are and
    in whatever order, returns [s]. *)
Theorem shamir_round_trip (s f n q : Z) (t : tape) :
  Z.prime q -> 0 <= s < q -> 1 <= f -> f + 1 <= n -> n < q ->
  exists shares t',
    Ex09.share s f n q t = Ok (shares, t') /\
    length shares = Z.to_nat n /\
    forall S, S ⊆+ shares -> length S = Z.to_nat (f + 1) ->
      Ex09.reconstruct S q = Ok s.
Proof.
  intros Hprime Hs Hf Hn Hq.
  destruct (share_spec s f n q t) as (cs & t' & _ & Hlen & Hshare); [lia |].
  set (coeffs := s :: cs) in *.
  set (shares := (fun i => (i, value_of (Ex09.polynomial i coeffs f q))) <$> seqZ 1 n) in *.
  exists shares, t'. split; [exact Hshare |].
  split; [unfold shares; rewrite length_fmap; apply length_seqZ |].
  intros S Hsub HlenS.
  assert (forall sh, sh ∈ S -> 1 <= sh.1 <= n /\ sh.2 = peval coeffs sh.1 mod q) as Hsh.
  { intros sh Hin. apply (elem_of_submseteq _ _ _ Hin) in Hsub.
    apply list_elem_of_fmap in Hsub as (i & -> & Hi). apply elem_of_seqZ in Hi.
    simpl. split; [lia |].
    rewrite polynomial_value; [reflexivity | lia | rewrite Z.mod_small; lia |].
    unfold coeffs. simpl. lia. }
  assert (NoDup (S.*1)) as Hnd.
  { apply (submseteq_NoDup _ (shares.*1)).
    - apply fmap_submseteq. exact Hsub.
    - unfold shares. rewrite <- list_fmap_compose.
      rewrite (list_fmap_ext _ id) by (intros; reflexivity).
      rewrite list_fmap_id. apply NoDup_seqZ. }
  assert (NoDup ((fun x => x mod q) <$> S.*1)) as Hndq.
  { apply NoDup_mod_small; [exact Hnd |].
    apply Forall_fmap, Forall_forall. intros sh Hin. simpl.
    destruct (Hsh sh Hin) as [Hx _]. lia. }
  rewrite (reconstruct_value q Hprime S Hndq). f_equal.
  rewrite (lagrange_interpolation_zero q Hprime coeffs S Hndq).
  - unfold coeffs. rewrite peval_cons, Z.mul_0_l, Z.add_0_r. apply Z.mod_small. exact Hs.
  - unfold coeffs. simpl. lia.
  - intros sh Hin. destruct (Hsh sh Hin) as [_ ->]. apply Z.mod_mod. lia.
Qed.

Lemma shamir_round_trip_witness :
  exists shares t',
    Ex09.share 3 1 3 7 example_tape = Ok (shares, t') /\
    length shares = 3%nat /\
    forall S, S ⊆+ shares -> length S = 2%nat -> Ex09.reconstruct S 7 = Ok 3.
Proof.
  apply (shamir_round_trip 3 1 3 7 example_tape); try lia.
  apply primeb_sound. reflexivity.
Defined.

(** The shares of the secret 3 on [example_tape] are [(1, 5)], [(2, 0)] and
    [(3, 2)]; the last and the first, in this order, give the secret back. *)
Example shamir_round_trip_example :
  (exists t', Ex09.share 3 1 3 7 example_tape = Ok ([(1, 5); (2, 0); (3, 2)], t')) /\
  Ex09.reconstruct [(3, 2); (1, 5)] 7 = Ok 3.
Proof. split; [eexists |]; vm_compute; reflexivity. Qed.

(** ** Threshold ElGamal (reference solution): recombination *)

Lemma zprod_mul_pow (c e : Z) (l : list Z) :
  0 <= e ->
  zprod ((fun x => x * (x - c) ^ e) <$> l)
  = zprod l * zprod ((fun x => x - c) <$> l) ^ e.
Proof.
  intros He. induction l as [| a l IH]; rewrite ?fmap_cons, ?zprod_cons.
  - cbn. rewrite Z.pow_1_l by exact He. reflexivity.
  - rewrite IH, Z.pow_mul_l. ring.
Qed.

Section ThresholdElGamal.
Variables p q : Z.
Hypothesis prime_p : Z.prime p.
Hypothesis prime_q : Z.prime q.

Lemma pow_mod_nonzero (a e : Z) : 0 <= e -> a mod p <> 0 -> a ^ e mod p <> 0.
Proof.
  pose proof (Z.prime_ge_2 _ prime_p) as Hp. intros He Ha.
  pattern e. apply natlike_ind; [| | exact He].
  - rewrite Z.pow_0_r, Z.mod_1_l by lia. lia.
  - intros k Hk IH. rewrite Z.pow_succ_r by exact Hk.
    intros [Hz | Hz]%(mul_mod_zero p prime_p); contradiction.
Qed.

Lemma modInverse_any (m x : Z) :
  Z.prime m -> x mod m <> 0 -> modInverse x m = Ok (x ^ (m - 2) mod m).
Proof.
  intros Hm Hx. pose proof (Z.prime_ge_2 _ Hm) as Hm2.
  unfold modInverse. destruct (Z.ltb_spec x 0).
  - assert ((m + x) mod m = x mod m) as Hmx
      by (rewrite <- Z.add_mod_idemp_l, Z.mod_same, Z.add_0_l by lia; reflexivity).
    rewrite power_nonzero by (lia || rewrite Hmx; exact Hx).
    f_equal. apply mod_pow_cong. exact Hmx.
  - apply power_nonzero; (lia || assumption).
Qed.

Lemma distinct_points_differ (xs : list Z) (i k : nat) (xi xk : Z) :
  NoDup ((fun x => x mod q) <$> xs) ->
  xs !! i = Some xi -> xs !! k = Some xk -> k <> i -> (xk - xi) mod q <> 0.
Proof.
  intros Hnd Hi Hk Hne Hz. apply (cong_sub_zero q) in Hz. apply Hne.
  apply (NoDup_lookup _ _ _ (xk mod q) Hnd).
  - rewrite list_lookup_fmap, Hk. reflexivity.
  - rewrite list_lookup_fmap, Hi, Hz. reflexivity.
Qed.

(** The exponent [recover] computes for the decryption share at position
    [i] is the Lagrange coefficient at 0, reduced modulo [q]. *)
Lemma recover_exp_value (D : list (Z * Z)) (i : nat) (di : Z * Z) :
  NoDup ((fun x => x mod q) <$> D.*1) -> D !! i = Some di ->
  exists e,
    Sol10.recover_exp q D (Z.of_nat i) di.1 = Ok e /\ 0 <= e /\
    e mod q = (zprod (delete i D.*1)
               * zprod ((fun xj => xj - di.1) <$> delete i D.*1) ^ (q - 2)) mod q.
Proof.
  pose proof (Z.prime_ge_2 _ prime_q) as Hq. intros Hnd Hi.
  set (xs := D.*1) in *.
  assert (xs !! i = Some di.1) as Hxi
    by (unfold xs; rewrite list_lookup_fmap, Hi; reflexivity).
  set (fe := fun (j : nat) (xj : Z) =>
               if decide (j = i) then 1 else xj * (xj - di.1) ^ (q - 2)).
  unfold Sol10.recover_exp.
  loop_invariant (fun pre e =>
      0 <= e /\ e mod q = zprod (imap fe (take (length pre) xs)) mod q)
    as (e & Hrun & Hpos & He).
  - simpl. split; [lia | reflexivity].
  - intros pre [j [x_j d_j]] post e Hl [Hpos He].
    apply enumerate_middle in Hl as [Hj Hk]. simpl in Hj, Hk. subst j.
    set (k := length pre) in *.
    assert (xs !! k = Some x_j) as Hxk
      by (unfold xs; rewrite list_lookup_fmap, Hk; reflexivity).
    assert (take (length (pre ++ [(Z.of_nat k, (x_j, d_j))])) xs = take k xs ++ [x_j])
      as Htake.
    { rewrite length_app. simpl. fold k. rewrite Nat.add_1_r.
      apply take_S_r. exact Hxk. }
    assert (length (take k xs) = k) as Hlk
      by (apply length_take_le; apply lookup_lt_Some in Hxk; lia).
    rewrite Htake, imap_app, zprod_app, Hlk. simpl imap.
    rewrite Nat.add_0_r. unfold zprod at 2. simpl foldr. rewrite Z.mul_1_r.
    unfold fe at 2.
    case_bool_decide as Hik.
    + destruct (decide (k = i)) as [-> | Hne]; [lia |].
      rewrite py_mod_ok by lia. simpl.
      rewrite (modInverse_any q) by
        (exact prime_q || apply (distinct_points_differ xs i k); assumption).
      simpl. rewrite py_mod_ok by lia.
      eexists. split; [reflexivity |].
      split; [apply Z.mod_pos_bound; lia |].
      rewrite Z.mod_mod by lia. rewrite <- Z.mul_assoc.
      apply mod_mul_cong; [exact He |].
      apply mod_mul_cong; apply Z.mod_mod; lia.
    + destruct (decide (k = i)) as [_ | Hne]; [| lia].
      eexists. split; [reflexivity |]. rewrite Z.mul_1_r. split; assumption.
  - exists e. split; [exact Hrun |]. split; [exact Hpos |].
    rewrite He, enumerate_length, take_ge by (unfold xs; rewrite length_fmap; lia).
    unfold fe. rewrite (zprod_imap_except i (fun xj => xj * (xj - di.1) ^ (q - 2))).
    rewrite zprod_mul_pow by lia. reflexivity.
Qed.

Lemma decrypt_all_value (g pk R C : Z) (S : list (Z * Z)) :
  R mod p <> 0 -> Forall (fun sh => 0 <= sh.2) S ->
  Sol10.decrypt_all p q g pk S (R, C) = Ok ((fun sh => (sh.1, R ^ sh.2 mod p)) <$> S).
Proof.
  pose proof (Z.prime_ge_2 _ prime_p) as Hp. intros HR Hall.
  unfold Sol10.decrypt_all.
  loop_invariant (fun pre D => D = (fun sh => (sh.1, R ^ sh.2 mod p)) <$> pre)
    as (D & -> & ->).
  - reflexivity.
  - intros pre [x_i sk_i] post D Hl ->.
    assert (0 <= sk_i) as Hsk.
    { rewrite Forall_forall in Hall. apply (Hall (x_i, sk_i)).
      rewrite Hl. apply elem_of_middle. }
    unfold Sol10.decrypt. rewrite power_nonzero by (assumption || lia). simpl.
    eexists. split; [reflexivity |]. rewrite fmap_app. reflexivity.
  - reflexivity.
Qed.

(** [recover] on the decryption shares [R^y mod p] of shares [(x, y)]
    whose Lagrange sum at 0 is [s] modulo [q]: the product of the loop is
    [R^s mod p], and the result is [C] divided by it. *)
Lemma recover_value (g R C s : Z) (S : list (Z * Z)) :
  R mod p <> 0 -> R ^ q mod p = 1 -> 0 <= s ->
  NoDup ((fun x => x mod q) <$> S.*1) ->
  Forall (fun sh => 0 <= sh.2) S ->
  zsum (imap (lagrange_term q S.*1) S) mod q = s mod q ->
  Sol10.recover p q g ((fun sh => (sh.1, R ^ sh.2 mod p)) <$> S) (R, C)
  = Ok ((C * ((R ^ s mod p) ^ (p - 2) mod p)) mod p).
Proof.
  pose proof (Z.prime_ge_2 _ prime_p) as Hp. pose proof (Z.prime_ge_2 _ prime_q) as Hq.
  intros HR HRq Hs Hnd Hall Hsum.
  set (D := (fun sh => (sh.1, R ^ sh.2 mod p)) <$> S).
  assert (D.*1 = S.*1) as HD1.
  { unfold D. rewrite <- list_fmap_compose. apply list_fmap_ext. intros; reflexivity. }
  unfold Sol10.recover.
  loop_invariant (fun pre prod =>
      exists E, 0 <= E /\ prod = R ^ E mod p /\
      E mod q = zsum (imap (lagrange_term q S.*1) (take (length pre) S)) mod q)
    as (prod & -> & E & HE & -> & HEq).
  - exists 0. split; [lia |]. split; [| reflexivity].
    rewrite Z.pow_0_r, Z.mod_1_l by lia. reflexivity.
  - intros pre [i [x_i d_i]] post prod Hl (E & HE & -> & HEq).
    apply enumerate_middle in Hl as [Hi Hk]. simpl in Hi, Hk. subst i.
    set (k := length pre) in *.
    unfold D in Hk. rewrite list_lookup_fmap in Hk.
    destruct (S !! k) as [sh |] eqn:Hsh; [| discriminate]. injection Hk as <- <-.
    assert (D !! k = Some (sh.1, R ^ sh.2 mod p)) as HDk
      by (unfold D; rewrite list_lookup_fmap, Hsh; reflexivity).
    assert (0 <= sh.2) as Hy.
    { rewrite Forall_forall in Hall. apply Hall, (list_elem_of_lookup_2 _ k). exact Hsh. }
    destruct (recover_exp_value D k _ ltac:(rewrite HD1; exact Hnd) HDk)
      as (e & He & Hepos & Heq).
    simpl in He, Heq. rewrite He. simpl.
    rewrite power_nonzero; [| exact Hepos | lia |].
    2:{ rewrite Z.mod_mod by lia. apply pow_mod_nonzero; assumption. }
    simpl. rewrite py_mod_ok by lia.
    eexists. split; [reflexivity |].
    exists (E + sh.2 * e). split; [nia |]. split.
    + rewrite Z.pow_add_r, Z.pow_mul_r by nia.
      apply mod_mul_cong; [apply Z.mod_mod; lia |].
      rewrite Z.mod_mod by lia. apply mod_pow_cong. apply Z.mod_mod. lia.
    + rewrite length_app. simpl. fold k. rewrite Nat.add_1_r.
      rewrite (take_S_r _ _ _ Hsh), imap_app, zsum_app.
      rewrite length_take_le by (apply lookup_lt_Some in Hsh; lia).
      simpl imap. rewrite Nat.add_0_r.
      change (zsum [?a]) with (a + 0). rewrite Z.add_0_r.
      apply mod_add_cong; [exact HEq |].
      unfold lagrange_term. apply mod_mul_cong; [reflexivity |].
      rewrite Heq, HD1. reflexivity.
  - simpl. rewrite enumerate_length in HEq.
    unfold D in HEq. rewrite length_fmap, firstn_all in HEq.
    assert (R ^ E mod p = R ^ s mod p) as ->.
    { apply (pow_cong_exponent R p q);
        [lia | lia | exact HRq | exact HE | exact Hs | rewrite HEq; exact Hsum]. }
    rewrite (modInverse_any p) by
      (exact prime_p || (rewrite Z.mod_mod by lia; apply pow_mod_nonzero; assumption)).
    simpl. rewrite py_mod_ok by lia. reflexivity.
Qed.

End ThresholdElGamal.

Lemma pow_mod_one_nonzero (p g q : Z) : 1 < p -> 1 <= q -> g ^ q mod p = 1 -> g mod p <> 0.
Proof.
  intros Hp Hq Hg Hz. rewrite <- Z.mod_pow_l, Hz, Z.pow_0_l, Z.mod_0_l in Hg; lia.
Qed.

(** X20. Where the threshold ElGamal round trip of the reference solution
    does hold: for primes [p] and [q] and [g] with [g^q = 1 (mod p)], a
    key pair [(pk, shares)] produced by [KeyGen] and a message
    [0 <= m < p], [recover] applied to the decryption shares of
    [encrypt(p,q,g,pk,m)] returns [m] for every [(f+1)]-subset of the
    shares whose x-coordinates happen to be pairwise distinct and
    nonzero. *)
Theorem threshold_elgamal_round_trip (p q g n f m pk : Z) (shares : list (Z * Z))
    (c : Z * Z) (t t1 t2 : tape) :
  Z.prime p -> Z.prime q -> g ^ q mod p = 1 -> 0 <= f -> 0 <= m < p ->
  Sol10.KeyGen p q g n f t = Ok ((pk, shares), t1) ->
  Sol10.encrypt p q g pk m t1 = Ok (c, t2) ->
  forall S, S ⊆+ shares -> length S = Z.to_nat (f + 1) ->
    NoDup S.*1 -> Forall (fun sh => sh.1 <> 0) S ->
    exists D, Sol10.decrypt_all p q g pk S c = Ok D /\
              Sol10.recover p q g D c = Ok m.
Proof.
  intros Hp Hq Hg Hf Hm Hkg Henc S Hsub HlenS Hnd Hnz.
  pose proof (Z.prime_ge_2 _ Hp) as Hp2. pose proof (Z.prime_ge_2 _ Hq) as Hq2.
  assert (g mod p <> 0) as Hgnz by (apply (pow_mod_one_nonzero p g q); lia || assumption).
  (* the key pair *)
  assert (3 <= q) as Hq3.
  { destruct (Z.le_gt_cases 3 q) as [| Hlt]; [assumption |]. exfalso.
    unfold Sol10.KeyGen, randint in Hkg.
    destruct (Z.leb_spec 2 (q - 1)); [lia | discriminate]. }
  destruct (Sol10_KeyGen_spec p q g n f t) as
    (s & cs & pk' & shares' & t1' & Hkg' & Hs & Hpk & Hlen & _ & Hall); [lia | lia |].
  rewrite Hkg in Hkg'. injection Hkg' as <- <- <-.
  rewrite power_nonzero in Hpk by (lia || assumption). injection Hpk as <-.
  (* the ciphertext *)
  unfold Sol10.encrypt in Henc.
  destruct (randint_ok 2 (q - 1) t1) as [Hr Hrr]; [lia |].
  rewrite Hr in Henc. simpl in Henc.
  set (r := 2 + t1 0%nat mod (q - 1 - 2 + 1)) in *.
  rewrite (power_nonzero g r p) in Henc by (lia || assumption). simpl in Henc.
  rewrite (power_nonzero (g ^ s mod p) r p) in Henc;
    [| lia | lia | rewrite Z.mod_mod by lia; apply pow_mod_nonzero; (assumption || lia)].
  simpl in Henc. rewrite py_mod_ok in Henc by lia. injection Henc as <- <-.
  set (R := g ^ r mod p).
  assert (R mod p <> 0) as HR
    by (unfold R; rewrite Z.mod_mod by lia; apply pow_mod_nonzero; (assumption || lia)).
  assert (R ^ q mod p = 1) as HRq.
  { unfold R. rewrite Z.mod_pow_l, <- Z.pow_mul_r, Z.mul_comm, Z.pow_mul_r by lia.
    apply pow_mod_one; (lia || assumption). }
  (* the chosen shares *)
  rewrite Forall_forall in Hall, Hnz.
  assert (forall sh, sh ∈ S ->
            0 <= sh.1 < q /\ 0 <= sh.2 /\ sh.2 mod q = peval (s :: rev cs) sh.1 mod q) as Hsh.
  { intros sh Hin. pose proof (Hnz sh Hin) as Hx.
    apply (elem_of_submseteq _ _ _ Hin) in Hsub.
    destruct (Hall sh Hsub) as (Hx1 & Hy & Hpoly).
    rewrite Sol10_polynomial_value in Hpoly;
      [| lia | rewrite Z.mod_small; lia | rewrite length_app; simpl; lia].
    injection Hpoly as Hpoly. rewrite rev_app_distr in Hpoly. simpl in Hpoly.
    split; [lia |]. split; [lia |].
    rewrite <- Hpoly at 1. apply Z.mod_mod. lia. }
  assert (NoDup ((fun x => x mod q) <$> S.*1)) as Hndq.
  { apply NoDup_mod_small; [exact Hnd |].
    apply Forall_fmap, Forall_forall. intros sh Hin. apply (Hsh sh Hin). }
  assert (Forall (fun sh => 0 <= sh.2) S) as Hys
    by (apply Forall_forall; intros sh Hin; apply (Hsh sh Hin)).
  assert (zsum (imap (lagrange_term q S.*1) S) mod q = s mod q) as Hsum.
  { rewrite (lagrange_interpolation_zero q Hq (s :: rev cs) S Hndq).
    - rewrite peval_cons, Z.mul_0_l, Z.add_0_r. reflexivity.
    - simpl. rewrite length_rev. lia.
    - intros sh Hin. apply (Hsh sh Hin). }
  (* decryption shares and recombination *)
  eexists. split; [apply (decrypt_all_value p q Hp); assumption |].
  rewrite (recover_value p q Hp Hq g R _ s S) by (assumption || lia).
  f_equal. fold R.
  assert ((g ^ s mod p) ^ r mod p = R ^ s mod p) as ->.
  { unfold R. rewrite !Z.mod_pow_l, <- !Z.pow_mul_r by lia. f_equal. f_equal. ring. }
  set (K := R ^ s mod p).
  assert (K mod p <> 0) as HK
    by (unfold K; rewrite Z.mod_mod by lia; apply pow_mod_nonzero; (assumption || lia)).
  rewrite Z.mul_mod_idemp_l, Z.mul_mod_idemp_r by lia.
  replace (K * m * K ^ (p - 2)) with (m * (K ^ (p - 2) * K)) by ring.
  rewrite <- Z.mul_mod_idemp_r, (fermat_inverse p Hp K HK), Z.mul_1_r by lia.
  apply Z.mod_small. exact Hm.
Qed.

Lemma threshold_elgamal_round_trip_witness :
  exists D, Sol10.decrypt_all 23 11 2 9 [(6, 10); (2, 3)] (16, 13) = Ok D /\
            Sol10.recover 23 11 2 D (16, 13) = Ok 6.
Proof.
  eapply (threshold_elgamal_round_trip 23 11 2 3 1 6 9 [(6, 10); (2, 3); (9, 7)] (16, 13)
            example_tape_distinct).
  - apply primeb_sound. reflexivity.
  - apply primeb_sound. reflexivity.
  - reflexivity.
  - lia.
  - lia.
  - vm_compute. reflexivity.
  - vm_compute. reflexivity.
  - apply submseteq_skip, submseteq_skip, submseteq_nil_l.
  - reflexivity.
  - apply (bool_decide_unpack _). vm_compute. exact I.
  - repeat constructor; simpl; lia.
Defined.

(** C2. The round trip of the reference solution fails on key pairs that
    its own [KeyGen] produces: [share] draws every x-coordinate with
    [randint(0, q-1)] and never checks that they differ.  With [p = 23],
    [q = 11], [g = 2] (of order 11), [n = 3], [f = 1] and a tape whose
    draws repeat, [KeyGen] gives every share the x-coordinate 2; for the
    message 6 the two decryption shares are [(2, 12)], [(2, 12)],
    [modInverse(0, q) = 0] makes both exponents 0, and [recover] returns
    8, where [main] asserts [m == reconstructed]. *)
Theorem recover_on_repeated_coordinates :
  2 ^ 11 mod 23 = 1 /\
  exists t1 t2,
    Sol10.KeyGen 23 11 2 3 1 example_tape = Ok ((16, [(2, 8); (2, 8); (2, 8)]), t1) /\
    Sol10.encrypt 23 11 2 16 6 t1 = Ok ((16, 8), t2) /\
    [(2, 8); (2, 8)] ⊆+ [(2, 8); (2, 8); (2, 8)] /\
    Sol10.decrypt_all 23 11 2 16 [(2, 8); (2, 8)] (16, 8) = Ok [(2, 12); (2, 12)] /\
    Sol10.recover 23 11 2 [(2, 12); (2, 12)] (16, 8) = Ok 8.
Proof.
  split; [reflexivity |]. eexists. eexists.
  split; [vm_compute; reflexivity |].
  split; [vm_compute; reflexivity |].
  split; [apply submseteq_skip, submseteq_skip, submseteq_nil_l |].
  split; vm_compute; reflexivity.
Qed.

(** * Further properties of the code *)

(** ** [power] and [modInverse] *)

Lemma power_loop_nonpos (result x e p : Z) : e <= 0 -> power_loop result x e p = result.
Proof.
  intros He. rewrite power_loop_eq. destruct (Z.ltb_spec 0 e); [lia | reflexivity].
Qed.

Lemma power_range (x e p : Z) :
  0 < p -> exists v, power x e p = Ok v /\ 0 <= v < p.
Proof.
  intros Hp. destruct (Z.eq_dec (x mod p) 0) as [Hz | Hnz].
  - exists 0. split; [apply power_zero; lia | lia].
  - assert (1 < p) by (destruct (Z.eq_dec p 1) as [-> |]; [rewrite Z.mod_1_r in Hnz |]; lia).
    destruct (Z.le_gt_cases 0 e) as [He | He].
    + exists (x ^ e mod p). split; [apply power_nonzero; assumption |].
      apply Z.mod_pos_bound. lia.
    + exists 1. split; [| lia]. unfold power. rewrite py_mod_ok by lia. simpl.
      destruct (Z.eqb_spec (x mod p) 0); [contradiction |].
      rewrite power_loop_nonpos by lia. reflexivity.
Qed.

(** X1. For a modulus [p > 0] and any exponent, [power] returns a value in
    [0, p); for an exponent [e <= 0] and a base that is not a multiple of
    [p] the value is 1: a negative exponent is not inverted. *)
Theorem power_in_range (x e p : Z) :
  0 < p ->
  exists v, power x e p = Ok v /\ 0 <= v < p /\
            (e <= 0 -> x mod p <> 0 -> v = 1).
Proof.
  intros Hp. destruct (power_range x e p Hp) as (v & Hv & Hr).
  exists v. split; [exact Hv |]. split; [exact Hr |].
  intros He Hnz. unfold power in Hv. rewrite py_mod_ok in Hv by lia. simpl in Hv.
  destruct (Z.eqb_spec (x mod p) 0); [contradiction |].
  rewrite power_loop_nonpos in Hv by exact He. congruence.
Qed.

Lemma power_in_range_witness :
  exists v, power 3 (-2) 7 = Ok v /\ 0 <= v < 7 /\ (-2 <= 0 -> 3 mod 7 <> 0 -> v = 1).
Proof. apply (power_in_range 3 (-2) 7). lia. Defined.

(** X2. For a prime [q] and [x] not a multiple of [q], of either sign,
    [modInverse(x, q)] returns the inverse of [x] modulo [q], in [0, q). *)
Theorem modInverse_correct (x q : Z) :
  Z.prime q -> x mod q <> 0 ->
  exists v, modInverse x q = Ok v /\ 0 <= v < q /\ (v * x) mod q = 1.
Proof.
  intros Hq Hx. pose proof (Z.prime_ge_2 _ Hq) as Hq2.
  exists (x ^ (q - 2) mod q). split; [apply modInverse_any; assumption |].
  split; [apply Z.mod_pos_bound; lia |].
  rewrite Z.mul_mod_idemp_l by lia. apply fermat_inverse; assumption.
Qed.

Lemma modInverse_correct_witness :
  exists v, modInverse (-3) 7 = Ok v /\ 0 <= v < 7 /\ (v * -3) mod 7 = 1.
Proof.
  apply (modInverse_correct (-3) 7); [apply primeb_sound; reflexivity |].
  vm_compute. discriminate.
Defined.

(** ** Evaluation points that are multiples of the modulus *)

(** X3. At a point that is a multiple of [q], [polynomial] returns 0 in
    Exercise09 and in the reference solution of Exercise10, whatever the
    coefficients: [power] returns 0 for the base also at exponent 0, so
    the constant term is lost. *)
Theorem polynomial_at_multiple (val : Z) (cs : list Z) (f q : Z) :
  q <> 0 -> val mod q = 0 ->
  (Z.to_nat (f + 1) <= length cs)%nat ->
  Ex09.polynomial val cs f q = Ok 0 /\ Sol10.polynomial val cs f q = Ok 0.
Proof.
  intros Hq Hval Hlen. split.
  - unfold Ex09.polynomial.
    loop_invariant (fun _ s => s = 0) as (v & -> & ->); [reflexivity | | reflexivity].
    intros pre i post s Hl ->.
    assert (i ∈ range 0 (f + 1)) as Hi by (rewrite Hl; apply elem_of_middle).
    apply range_elem in Hi.
    destruct (getitem_total cs i) as (c & -> & _); [lia |]. simpl.
    rewrite power_zero by assumption. simpl.
    rewrite py_mod_ok by exact Hq. eexists. split; [reflexivity |].
    rewrite Z.mul_0_r. apply Z.mod_0_l. exact Hq.
  - unfold Sol10.polynomial.
    loop_invariant (fun _ s => s = 0) as (v & -> & ->); [reflexivity | | reflexivity].
    intros pre [i coeff] post s _ ->.
    rewrite power_zero by assumption. simpl.
    rewrite py_mod_ok by exact Hq. eexists. split; [reflexivity |].
    rewrite Z.mul_0_r. apply Z.mod_0_l. exact Hq.
Qed.

Lemma polynomial_at_multiple_witness :
  Ex09.polynomial 7 [3; 4] 1 7 = Ok 0 /\ Sol10.polynomial 7 [3; 4] 1 7 = Ok 0.
Proof. apply (polynomial_at_multiple 7 [3; 4] 1 7); [lia | reflexivity | simpl; lia]. Defined.

(** ** Reconstruction from more than [f+1] shares, and in the submitted
       Exercise10 file *)

(** Any shares of the polynomial [coeffs], at least as many as it has
    coefficients and taken from the indices [1..n], reconstruct its
    constant term. *)
Lemma reconstruct_polynomial_shares (q : Z) (coeffs : list Z) (f n : Z)
    (S : list (Z * Z)) :
  Z.prime q -> n < q ->
  length coeffs = Z.to_nat (f + 1) -> (0 < length coeffs <= length S)%nat ->
  S ⊆+ (fun i => (i, value_of (Ex09.polynomial i coeffs f q))) <$> seqZ 1 n ->
  Ex09.reconstruct S q = Ok (peval coeffs 0 mod q).
Proof.
  intros Hprime Hq Hlen HlenS Hsub.
  pose proof (Z.prime_ge_2 _ Hprime) as Hq2.
  set (shares := (fun i => (i, value_of (Ex09.polynomial i coeffs f q))) <$> seqZ 1 n) in *.
  assert (forall sh, sh ∈ S -> 1 <= sh.1 <= n /\ sh.2 = peval coeffs sh.1 mod q) as Hsh.
  { intros sh Hin. apply (elem_of_submseteq _ _ _ Hin) in Hsub.
    apply list_elem_of_fmap in Hsub as (i & -> & Hi). apply elem_of_seqZ in Hi.
    simpl. split; [lia |].
    rewrite polynomial_value; [reflexivity | lia | rewrite Z.mod_small; lia | exact Hlen]. }
  assert (NoDup (S.*1)) as Hnd.
  { apply (submseteq_NoDup _ (shares.*1)).
    - apply fmap_submseteq. exact Hsub.
    - unfold shares. rewrite <- list_fmap_compose.
      rewrite (list_fmap_ext _ id) by (intros; reflexivity).
      rewrite list_fmap_id. apply NoDup_seqZ. }
  assert (NoDup ((fun x => x mod q) <$> S.*1)) as Hndq.
  { apply NoDup_mod_small; [exact Hnd |].
    apply Forall_fmap, Forall_forall. intros sh Hin. simpl.
    destruct (Hsh sh Hin) as [Hx _]. lia. }
  rewrite (reconstruct_value q Hprime S Hndq). f_equal.
  apply (lagrange_interpolation_zero q Hprime coeffs S Hndq); [lia |].
  intros sh Hin. destruct (Hsh sh Hin) as [_ ->]. apply Z.mod_mod. lia.
Qed.

(** X4. Shamir reconstruction needs no exact count: for a prime [q > n]
    and a secret [0 <= s < q], [reconstruct] returns [s] on every
    selection of at least [f+1] of the [n] shares, in any order. *)
Theorem shamir_round_trip_at_least (s f n q : Z) (t : tape) :
  Z.prime q -> 0 <= s < q -> 0 <= f -> n < q ->
  exists shares t',
    Ex09.share s f n q t = Ok (shares, t') /\
    forall S, S ⊆+ shares -> (Z.to_nat (f + 1) <= length S)%nat ->
      Ex09.reconstruct S q = Ok s.
Proof.
  intros Hprime Hs Hf Hq.
  destruct (share_spec s f n q t) as (cs & t' & _ & Hlen & Hshare); [lia |].
  eexists _, t'. split; [exact Hshare |].
  intros S Hsub HlenS.
  rewrite (reconstruct_polynomial_shares q (s :: cs) f n S); try assumption.
  - rewrite peval_cons, Z.mul_0_l, Z.add_0_r, Z.mod_small by lia. reflexivity.
  - simpl. lia.
  - simpl. simpl in HlenS. lia.
Qed.

Lemma shamir_round_trip_at_least_witness :
  exists shares t',
    Ex09.share 3 1 3 7 example_tape = Ok (shares, t') /\
    forall S, S ⊆+ shares -> (Z.to_nat (1 + 1) <= length S)%nat ->
      Ex09.reconstruct S 7 = Ok 3.
Proof.
  apply (shamir_round_trip_at_least 3 1 3 7 example_tape); try lia.
  apply primeb_sound. reflexivity.
Defined.

(** All three shares of the example give the secret back. *)
Example shamir_three_shares : Ex09.reconstruct [(2, 0); (3, 2); (1, 5)] 7 = Ok 3.
Proof. vm_compute. reflexivity. Qed.

(** X5. The check of [main] in the submitted Exercise10 file,
    [assert (sk == skrec)]: [KeyGen] shares the secret key modulo [p], and
    for a prime [p > n] with [q <= p], [reconstruct(s, p)] returns the
    secret key on any [f+1] of the shares that [KeyGen] returns. *)
Theorem Ordiales10_key_reconstruction (g q p f n sk pk : Z) (shares : list (Z * Z))
    (t t' : tape) :
  Z.prime p -> q <= p -> 0 <= f -> n < p ->
  Ordiales10.KeyGen g q p f n t = Ok ((sk, pk, shares), t') ->
  forall S, S ⊆+ shares -> length S = Z.to_nat (f + 1) ->
    Ordiales10.reconstruct S p = Ok sk.
Proof.
  intros Hprime Hqp Hf Hn Hkg S Hsub HlenS.
  pose proof (Z.prime_ge_2 _ Hprime) as Hp2.
  unfold Ordiales10.KeyGen in Hkg.
  assert (3 <= q) as Hq3.
  { destruct (Z.le_gt_cases 3 q) as [| Hlt]; [assumption |]. exfalso.
    unfold randint in Hkg. destruct (Z.leb_spec 2 (q - 1)); [lia | discriminate]. }
  destruct (randint_ok 2 (q - 1) t) as [Hr Hx]; [lia |].
  rewrite Hr in Hkg. simpl in Hkg.
  set (x := 2 + t 0%nat mod (q - 1 - 2 + 1)) in *.
  destruct (power_total g x p) as (y & Hy); [lia |]. rewrite Hy in Hkg. simpl in Hkg.
  destruct (Ordiales10_share_spec x f n p (tape_tail t)) as (cs & t1 & _ & Hlen & Hshare);
    [lia |].
  rewrite Hshare in Hkg. simpl in Hkg. injection Hkg as <- <- <- <-.
  change (Ordiales10.reconstruct S p) with (Ex09.reconstruct S p).
  rewrite (reconstruct_polynomial_shares p (x :: cs) f n S); try assumption.
  - rewrite peval_cons, Z.mul_0_l, Z.add_0_r, Z.mod_small by lia. reflexivity.
  - simpl. lia.
  - simpl. lia.
Qed.

Lemma Ordiales10_key_reconstruction_witness :
  Ordiales10.reconstruct [(3, 10); (1, 6)] 23 = Ok 4.
Proof.
  eapply (Ordiales10_key_reconstruction 2 11 23 1 3 4 16 [(1, 6); (2, 8); (3, 10)]
            example_tape).
  - apply primeb_sound. reflexivity.
  - lia.
  - lia.
  - lia.
  - vm_compute. reflexivity.
  - transitivity [(1, 6); (3, 10)].
    + apply Permutation_submseteq, Permutation_swap.
    + apply sublist_submseteq. repeat constructor.
  - reflexivity.
Defined.

(** For an exponent of at least one the test [x == 0] of [power] changes
    nothing: the result is the residue of the power whatever the base. *)
Lemma power_pos_exponent (x e p : Z) :
  1 <= e -> 0 < p -> power x e p = Ok (x ^ e mod p).
Proof.
  intros He Hp. destruct (Z.eq_dec (x mod p) 0) as [Hz | Hnz].
  - rewrite power_zero by (lia || assumption). f_equal.
    rewrite <- Z.mod_pow_l, Hz, Z.pow_0_l by lia. rewrite Z.mod_0_l; lia.
  - apply power_nonzero; lia.
Qed.

(** X6. The first check of [main] in the submitted Exercise10 file: for any
    positive modulus [p], any [g] and [q >= 3], [KeyGen] and [Enc] return,
    and hashing [power(R, sk, p)] and xor-ing it with [C] gives the
    message back, whatever the hash function is. *)
Theorem Ordiales10_decrypt_with_sk (sha256_int : Z -> Z) (g q p f n m : Z) (t : tape) :
  0 < p -> 3 <= q ->
  exists sk pk shares t1 R C t2,
    Ordiales10.KeyGen g q p f n t = Ok ((sk, pk, shares), t1) /\
    Ordiales10.Enc sha256_int g q p pk m t1 = Ok ((R, C), t2) /\
    Ordiales10.main_decrypt_with_sk sha256_int R C sk p = Ok m.
Proof.
  intros Hp Hq. unfold Ordiales10.KeyGen, Ordiales10.Enc, Ordiales10.main_decrypt_with_sk.
  destruct (randint_ok 2 (q - 1) t) as [Hr Hx]; [lia |]. rewrite Hr. simpl.
  set (x := 2 + t 0%nat mod (q - 1 - 2 + 1)) in *.
  rewrite (power_pos_exponent g x p) by lia. simpl.
  destruct (Ordiales10_share_spec x f n p (tape_tail t)) as (cs & t1 & _ & _ & Hshare);
    [lia |].
  rewrite Hshare. simpl.
  destruct (randint_ok 2 (q - 1) t1) as [Hr1 Hx1]; [lia |].
  set (r := 2 + t1 0%nat mod (q - 1 - 2 + 1)) in *.
  eexists x, (g ^ x mod p), _, t1, (g ^ r mod p), _, (tape_tail t1).
  split; [reflexivity |]. rewrite Hr1. simpl.
  rewrite (power_pos_exponent g r p), (power_pos_exponent (g ^ x mod p) r p) by lia.
  simpl. split; [reflexivity |].
  rewrite (power_pos_exponent (g ^ r mod p) x p) by lia. simpl. f_equal.
  rewrite !Z.mod_pow_l, <- !Z.pow_mul_r, (Z.mul_comm r x) by lia.
  rewrite Z.lxor_comm, Z.lxor_assoc, Z.lxor_nilpotent, Z.lxor_0_r. reflexivity.
Qed.

Lemma Ordiales10_decrypt_with_sk_witness :
  exists sk pk shares t1 R C t2,
    Ordiales10.KeyGen 2 11 23 1 3 example_tape = Ok ((sk, pk, shares), t1) /\
    Ordiales10.Enc (fun v => v * 7 + 1) 2 11 23 pk 1234 t1 = Ok ((R, C), t2) /\
    Ordiales10.main_decrypt_with_sk (fun v => v * 7 + 1) R C sk 23 = Ok 1234.
Proof.
  apply (Ordiales10_decrypt_with_sk (fun v => v * 7 + 1) 2 11 23 1 3 1234 example_tape); lia.
Defined.

(** ** The accumulator without primality of [p] and [q] *)

Section AccumulatorAlgebra.
Import Acc.
Variable hash_to_prime : string -> Z -> Z.

Abbreviation H := (Acc.H hash_to_prime).
Abbreviation update := (Acc.update hash_to_prime).
Abbreviation updates := (Acc.updates hash_to_prime).
Abbreviation proof := (Acc.proof hash_to_prime).
Abbreviation is_member := (Acc.is_member hash_to_prime).
Abbreviation update_exponent := (Acc.update_exponent hash_to_prime).
Abbreviation fresh_witness := (Acc.fresh_witness hash_to_prime).

(** X7. A subscript outside [-len <= i < len] makes [update], [proof] and
    [is_member] raise [IndexError]: each of them reads [x[i]] or [w[i]]
    before anything else. *)
Theorem index_out_of_range (self : Accumulator) (i : Z) (v : string) :
  length (w self) = length (x self) ->
  Z.of_nat (length (x self)) <= i \/ i < - Z.of_nat (length (x self)) ->
  update self i v = Raise IndexError /\
  proof self i v = Raise IndexError /\
  is_member self i v = Raise IndexError.
Proof.
  intros Hlen Hi.
  assert (py_index (length (x self)) i = None) as Hidx.
  { unfold py_index. destruct (Z.leb_spec 0 i).
    - destruct (Z.ltb_spec i (Z.of_nat (length (x self)))); [lia | reflexivity].
    - destruct (Z.leb_spec (- Z.of_nat (length (x self))) i); [lia | reflexivity]. }
  unfold Acc.update, Acc.proof, Acc.is_member, getitem.
  rewrite Hlen, Hidx. simpl. auto.
Qed.

(** Two [update] calls that change two different slots [i] and [j]: both
    exponents are read off the state before the calls. *)
Lemma update_twice (self : Accumulator) (i j : Z) (u v xi xj : string) :
  0 <= i < n self -> 0 <= j < n self -> i <> j ->
  length (x self) = Z.to_nat (n self) -> length (w self) = Z.to_nat (n self) ->
  N self <> 0 -> 0 < phi self ->
  x self !! Z.to_nat i = Some xi -> x self !! Z.to_nat j = Some xj ->
  xi <> u -> xj <> v ->
  Z.gcd (H self i xi) (phi self) = 1 -> Z.gcd (H self j xj) (phi self) = 1 ->
  0 <= H self i u -> 0 <= H self j v ->
  let ei := update_exponent self i xi u in
  let ej := update_exponent self j xj v in
  updates self [(i, u); (j, v)] =
  Ok (mkAccumulator (p self) (q self) (N self) (phi self) (seed self) (n self)
        (<[Z.to_nat j := v]> (<[Z.to_nat i := u]> (x self)))
        (imap (fun k wk => if bool_decide (Z.of_nat k = i) then wk ^ ej mod N self
                           else if bool_decide (Z.of_nat k = j) then wk ^ ei mod N self
                           else wk ^ (ei * ej) mod N self) (w self))
        (security self) (r self) (alpha self ^ (ei * ej) mod N self)).
Proof.
  intros Hi Hj Hne Hlx Hlw HN Hphi Hxi Hxj Hu Hv Hgi Hgj Hpu Hpv ei ej.
  assert (0 <= ei) as Hei.
  { unfold ei, Acc.update_exponent. apply Z.mul_nonneg_nonneg; [| exact Hpu].
    unfold Z.invmod. apply Z.mod_pos_bound. lia. }
  assert (0 <= ej) as Hej.
  { unfold ej, Acc.update_exponent. apply Z.mul_nonneg_nonneg; [| exact Hpv].
    unfold Z.invmod. apply Z.mod_pos_bound. lia. }
  unfold Acc.updates. cbn [for_each].
  rewrite (update_changed hash_to_prime self i u xi (Z.to_nat i)); try assumption.
  2:{ apply py_index_nonneg. lia. }
  fold ei. cbn [mbind result_bind]. simpl.
  match goal with |- context [Acc.update _ ?s1 j v] => set (self1 := s1) end.
  rewrite (update_changed hash_to_prime self1 j v xj (Z.to_nat j)); try assumption.
  - simpl. f_equal. f_equal.
    + apply list_eq. intros k. rewrite !list_lookup_imap.
      destruct (w self !! k) as [wk |]; [| reflexivity]. simpl. f_equal.
      change (Acc.update_exponent hash_to_prime self1 j xj v) with ej.
      repeat case_bool_decide; try lia; try reflexivity.
      rewrite Z.mod_pow_l, <- Z.pow_mul_r by lia. reflexivity.
    + change (Acc.update_exponent hash_to_prime self1 j xj v) with ej.
      rewrite Z.mod_pow_l, <- Z.pow_mul_r by lia. reflexivity.
  - simpl. rewrite length_insert. apply py_index_nonneg. lia.
  - simpl. rewrite list_lookup_insert_ne by lia. exact Hxj.
  - simpl. rewrite length_imap. exact Hlw.
Qed.

(** X8. Two [update] calls on different in-range slots commute: when both
    values are new and the hash values involved are non-negative and
    invertible modulo [phi], either order returns, and both leave the
    same accumulator. *)
Theorem updates_commute (self : Accumulator) (i j : Z) (u v xi xj : string) :
  0 <= i < n self -> 0 <= j < n self -> i <> j ->
  length (x self) = Z.to_nat (n self) -> length (w self) = Z.to_nat (n self) ->
  N self <> 0 -> 0 < phi self ->
  x self !! Z.to_nat i = Some xi -> x self !! Z.to_nat j = Some xj ->
  xi <> u -> xj <> v ->
  Z.gcd (H self i xi) (phi self) = 1 -> Z.gcd (H self j xj) (phi self) = 1 ->
  0 <= H self i u -> 0 <= H self j v ->
  exists self',
    updates self [(i, u); (j, v)] = Ok self' /\
    updates self [(j, v); (i, u)] = Ok self'.
Proof.
  intros Hi Hj Hne Hlx Hlw HN Hphi Hxi Hxj Hu Hv Hgi Hgj Hpu Hpv.
  eexists. split.
  - apply (update_twice self i j u v xi xj); assumption.
  - rewrite (update_twice self j i v u xj xi) by (assumption || lia).
    f_equal. f_equal.
    + apply list_insert_insert_ne. lia.
    + apply list_eq. intros k. rewrite !list_lookup_imap.
      destruct (w self !! k) as [wk |]; [| reflexivity]. simpl. f_equal.
      repeat case_bool_decide; try lia; try reflexivity.
      rewrite Z.mul_comm. reflexivity.
    + rewrite Z.mul_comm. reflexivity.
Qed.

(** X9. Updating a slot and then updating it back restores the
    accumulator: for distinct primes [p], [q], a slot [i] holding [a], the
    two hash values positive and coprime to [phi], and [alpha] and the
    witnesses reduced units modulo [N], [update(i, b)] followed by
    [update(i, a)] returns the object in its first state. *)
Theorem update_and_back (p0 q0 : Z) (self : Accumulator) (i : Z) (a b : string) :
  Z.prime p0 -> Z.prime q0 -> p0 <> q0 ->
  N self = p0 * q0 -> phi self = (p0 - 1) * (q0 - 1) ->
  0 <= i < n self ->
  length (x self) = Z.to_nat (n self) -> length (w self) = Z.to_nat (n self) ->
  x self !! Z.to_nat i = Some a -> a <> b ->
  0 < H self i a -> 0 < H self i b ->
  Z.gcd (H self i a) (phi self) = 1 -> Z.gcd (H self i b) (phi self) = 1 ->
  Z.gcd (alpha self) (N self) = 1 -> 0 <= alpha self < N self ->
  Forall (fun wj => Z.gcd wj (N self) = 1 /\ 0 <= wj < N self) (w self) ->
  updates self [(i, b); (i, a)] = Ok self.
Proof.
  intros Hp Hq Hpq HN Hphi Hi Hlx Hlw Hxa Hab Hpa Hpb Hga Hgb Halpha Harange Hw.
  pose proof (N0_gt_1 p0 q0 Hp Hq Hpq) as HN1.
  pose proof (phi0_ge_2 p0 q0 Hp Hq Hpq) as Hphi2.
  rewrite <- HN in HN1. rewrite <- Hphi in Hphi2.
  set (e1 := update_exponent self i a b).
  set (e2 := Z.invmod (H self i b) (phi self) * H self i a).
  assert (0 <= e1) as He1.
  { unfold e1, Acc.update_exponent. apply Z.mul_nonneg_nonneg; [| lia].
    unfold Z.invmod. apply Z.mod_pos_bound. lia. }
  assert (0 <= e2) as He2.
  { unfold e2. apply Z.mul_nonneg_nonneg; [| lia].
    unfold Z.invmod. apply Z.mod_pos_bound. lia. }
  assert ((e1 * e2) mod phi self = 1 mod phi self) as He.
  { unfold e1, e2, Acc.update_exponent.
    replace (Z.invmod (H self i a) (phi self) * H self i b *
             (Z.invmod (H self i b) (phi self) * H self i a))
      with ((Z.invmod (H self i a) (phi self) * H self i a) *
            (Z.invmod (H self i b) (phi self) * H self i b)) by ring.
    rewrite Zmult_mod, !Z.invmod_coprime by (lia || assumption). reflexivity. }
  assert (forall u, Z.gcd u (N self) = 1 -> 0 <= u < N self ->
                    (u ^ e1 mod N self) ^ e2 mod N self = u) as Hback.
  { intros u Hu Hrange.
    rewrite Z.mod_pow_l, <- Z.pow_mul_r by lia.
    rewrite (pow_cong_exponent u (N self) (phi self) (e1 * e2) 1); try lia.
    - rewrite Z.pow_1_r. apply Z.mod_small. exact Hrange.
    - rewrite HN, Hphi. apply euler_pq; try assumption. rewrite <- HN. exact Hu. }
  unfold Acc.updates. cbn [for_each].
  rewrite (update_changed hash_to_prime self i b a (Z.to_nat i)); try assumption;
    try lia.
  2:{ apply py_index_nonneg. lia. }
  fold e1. cbn [mbind result_bind]. simpl.
  match goal with |- context [Acc.update _ ?s1 i a] => set (self1 := s1) end.
  rewrite (update_changed hash_to_prime self1 i a b (Z.to_nat i)).
  - simpl. change (Acc.update_exponent hash_to_prime self1 i b a) with e2.
    destruct self as [sp sq sN sphi sseed sn sx sw ssec sr salpha]. simpl in *.
    do 2 f_equal.
    + rewrite list_insert_insert_eq. apply list_insert_id. exact Hxa.
    + apply list_eq. intros k. rewrite !list_lookup_imap.
      destruct (sw !! k) as [wk |] eqn:Hwk; [| reflexivity]. simpl. f_equal.
      case_bool_decide; [| reflexivity].
      rewrite Forall_forall in Hw.
      destruct (Hw wk) as [Hu Hr]; [apply list_elem_of_lookup; eauto |].
      apply Hback; assumption.
    + apply Hback; assumption.
  - simpl. rewrite length_insert. apply py_index_nonneg. lia.
  - simpl. apply list_lookup_insert_eq. lia.
  - congruence.
  - simpl. rewrite length_imap. exact Hlw.
  - simpl. lia.
  - simpl. lia.
  - exact Hgb.
  - simpl. unfold Acc.H in *. simpl. lia.
Qed.

Section FirstUpdate.
Variables p0 q0 n0 : Z.
Hypothesis p0_ge_2 : 2 <= p0.
Hypothesis q0_ge_2 : 2 <= q0.
Hypothesis hash_pos : forall s sd, 0 < hash_to_prime s sd.
Hypothesis hash_coprime :
  forall s sd, Z.gcd (hash_to_prime s sd) ((p0 - 1) * (q0 - 1)) = 1.

Abbreviation N0 := (p0 * q0).
Abbreviation phi0 := ((p0 - 1) * (q0 - 1)).
Abbreviation untouched := (Acc.untouched hash_to_prime p0 q0 n0).

Lemma invmod_nonneg (a : Z) : 0 <= Z.invmod a phi0.
Proof. unfold Z.invmod. apply Z.mod_pos_bound. nia. Qed.

(** [__init__] returns for any [p, q >= 2], prime or not, and leaves every
    slot with the witness computed from [alpha]. *)
Lemma init_untouched (seed : option Z) (security time_ns : Z) (t : tape) (i : nat) :
  (i < Z.to_nat n0)%nat ->
  exists a0,
    Acc.init hash_to_prime p0 q0 n0 seed security time_ns t = Ok (a0, tape_tail t) /\
    untouched i a0.
Proof.
  intros Hi.
  assert (0 < N0) as HN0 by nia. assert (0 < phi0) as Hphi0 by nia.
  unfold Acc.init. unfold randbelow.
  destruct (Z.ltb_spec 0 N0) as [_ |]; [| lia]. simpl.
  set (sd := match seed with Some s => s | None => time_ns end).
  set (xs := replicate (Z.to_nat n0) ""%string).
  set (self0 := mkAccumulator p0 q0 N0 phi0 sd n0 xs (replicate (Z.to_nat n0) 0)
                  security (t 0%nat mod N0) 0).
  assert (forall j, 0 <= j < n0 -> getitem xs j = Ok ""%string) as Hget.
  { intros j Hj. apply getitem_nonneg; [lia |]. apply lookup_replicate_2. lia. }
  match goal with |- context [for_each (range 0 n0) ?b 1] => set (body := b) end.
  destruct (for_each_inv (fun _ s => 0 <= s) (range 0 n0) body 1) as (prod & -> & Hprod).
  { lia. }
  { intros pre j post s Hl Hs.
    assert (j ∈ range 0 n0) as Hin by (rewrite Hl; apply elem_of_middle).
    unfold range in Hin. apply elem_of_seqZ in Hin.
    unfold body. rewrite Hget by lia. simpl.
    rewrite py_pow_inverse by (try lia; apply hash_coprime). simpl.
    rewrite py_mod_ok by lia. simpl. eexists. split; [reflexivity |].
    apply Z.mul_nonneg_nonneg; [lia |]. apply Z.mod_pos_bound. lia. }
  simpl. rewrite py_pow_nonneg by lia. simpl.
  set (a := (t 0%nat mod N0) ^ prod mod N0).
  assert (range 0 n0 = range 0 (Z.of_nat (length (replicate (Z.to_nat n0) 0)))) as ->.
  { unfold range, seqZ. rewrite length_replicate, !Z.sub_0_r, Nat2Z.id. reflexivity. }
  rewrite (for_each_range_imap
             (fun k _ => a ^ Z.invmod (H self0 (Z.of_nat k) "") phi0 mod N0)).
  2:{ intros k c w' Hw' Hk _. apply lookup_replicate in Hk as [_ Hk].
      rewrite Hget by lia. simpl.
      rewrite py_pow_inverse by (try lia; apply hash_coprime). simpl.
      rewrite py_pow_nonneg by (try lia; apply invmod_nonneg). simpl.
      apply setitem_nat. apply (lookup_lt_Some _ _ _ Hw'). }
  simpl. eexists. split; [reflexivity |].
  constructor; simpl; try reflexivity.
  - apply length_replicate.
  - rewrite length_imap. apply length_replicate.
  - apply lookup_replicate_2. exact Hi.
  - exists ""%string, (a ^ Z.invmod (H self0 (Z.of_nat i) "") phi0 mod N0). simpl.
    split; [apply lookup_replicate_2; exact Hi |].
    split; [rewrite list_lookup_imap, lookup_replicate_2 by exact Hi; reflexivity |].
    reflexivity.
Qed.

(** An [update] of another slot returns and raises [alpha] and the witness
    of slot [i] to the same power. *)
Lemma update_other_untouched (self : Accumulator) (i : nat) (j : Z) (v : string) :
  untouched i self -> 0 <= j < n0 -> j <> Z.of_nat i ->
  exists b self', update self j v = Ok (b, self') /\ untouched i self'.
Proof.
  intros [HN Hphi Hn Hlx Hlw Hx (xi & wi & Hxi & Hwi & Hfresh)] Hj Hne.
  assert (0 < N0) as HN0 by nia. assert (0 < phi0) as Hphi0 by nia.
  assert (Z.to_nat j < length (x self))%nat as Hjlen by lia.
  destruct (lookup_lt_is_Some_2 _ _ Hjlen) as [xj Hxj].
  destruct (String.eqb_spec xj v) as [-> | Hxv].
  - exists false, self. split.
    + apply update_same_value_noop_aux; [lia | exact Hxj].
    + constructor; try assumption. exists xi, wi. auto.
  - eexists true, _. split.
    + apply (update_changed hash_to_prime self j v xj (Z.to_nat j)); try assumption.
      * apply py_index_nonneg. lia.
      * lia.
      * lia.
      * rewrite Hphi. lia.
      * rewrite Hphi. apply hash_coprime.
      * pose proof (hash_pos (pretty j +:+ v) (seed self)). unfold Acc.H. lia.
    + set (e := update_exponent self j xj v).
      assert (0 <= e) as He.
      { unfold e, Acc.update_exponent. apply Z.mul_nonneg_nonneg.
        - rewrite Hphi. apply invmod_nonneg.
        - pose proof (hash_pos (pretty j +:+ v) (seed self)). unfold Acc.H. lia. }
      assert (i <> Z.to_nat j) as Hij by lia.
      constructor; simpl; try assumption.
      * rewrite length_insert. exact Hlx.
      * rewrite length_imap. exact Hlw.
      * rewrite list_lookup_insert_ne by lia. exact Hx.
      * exists xi, (wi ^ e mod N self). simpl.
        split; [rewrite list_lookup_insert_ne by lia; exact Hxi |].
        split.
        { rewrite list_lookup_imap, Hwi. simpl.
          rewrite bool_decide_true by lia. reflexivity. }
        change (Acc.H hash_to_prime _ (Z.of_nat i) xi) with (H self (Z.of_nat i) xi).
        set (hi := Z.invmod (H self (Z.of_nat i) xi) (phi self)) in *.
        assert (0 <= hi) by (unfold hi; rewrite Hphi; apply invmod_nonneg).
        rewrite Hfresh, !Z.mod_pow_l, <- !Z.pow_mul_r by lia.
        rewrite (Z.mul_comm hi e). reflexivity.
Qed.

(** The first [update] of a slot makes its new value a member, by
    [(alpha^h)^pv = alpha^(h*pv)] alone. *)
Lemma update_untouched_member (self : Accumulator) (i : nat) (v : string) :
  untouched i self -> (i < Z.to_nat n0)%nat -> v <> ""%string ->
  exists self', update self (Z.of_nat i) v = Ok (true, self') /\
                is_member self' (Z.of_nat i) v = Ok true.
Proof.
  intros [HN Hphi Hn Hlx Hlw Hx (xi & wi & Hxi & Hwi & Hfresh)] Hi Hv.
  assert (0 < N0) as HN0 by nia. assert (0 < phi0) as Hphi0 by nia.
  assert (xi = ""%string) as -> by congruence.
  pose proof (hash_pos (pretty (Z.of_nat i) +:+ v) (seed self)) as Hpv.
  eexists. split.
  - apply (update_changed hash_to_prime self (Z.of_nat i) v "" i); try assumption.
    + rewrite py_index_nonneg by lia. rewrite Nat2Z.id. reflexivity.
    + congruence.
    + lia.
    + lia.
    + rewrite Hphi. lia.
    + rewrite Hphi. apply hash_coprime.
    + unfold Acc.H. lia.
  - unfold Acc.is_member, Acc.proof. simpl.
    rewrite (getitem_nat _ i v) by (apply list_lookup_insert_eq; lia). simpl.
    rewrite String.eqb_refl. simpl.
    rewrite (getitem_nat _ i wi).
    2:{ rewrite list_lookup_imap, Hwi. simpl.
        rewrite bool_decide_false by lia. reflexivity. }
    simpl. rewrite py_pow_nonneg by (unfold Acc.H; simpl; lia). simpl.
    do 2 f_equal. apply Z.eqb_eq.
    change (Acc.H hash_to_prime _ (Z.of_nat i) v) with (H self (Z.of_nat i) v).
    unfold Acc.update_exponent.
    set (hi := Z.invmod (H self (Z.of_nat i) "") (phi self)) in *.
    assert (0 <= hi) by (unfold hi; rewrite Hphi; apply invmod_nonneg).
    rewrite Hfresh, Z.mod_pow_l, <- Z.pow_mul_r by (unfold Acc.H; lia).
    reflexivity.
Qed.

Lemma updates_untouched (calls : list (Z * string)) (self : Accumulator) (i : nat) :
  untouched i self ->
  Forall (fun c => 0 <= c.1 < n0 /\ c.1 <> Z.of_nat i) calls ->
  exists self', updates self calls = Ok self' /\ untouched i self'.
Proof.
  revert self. induction calls as [| [j v] calls IH]; intros self Hut Hcalls.
  - exists self. split; [reflexivity | exact Hut].
  - apply Forall_cons in Hcalls as [[Hj Hne] Hcalls]. simpl in Hj, Hne.
    destruct (update_other_untouched self i j v Hut Hj Hne) as (b & self1 & Hup & Hut1).
    destruct (IH self1 Hut1 Hcalls) as (self' & Hups & Hut').
    exists self'. split; [| exact Hut'].
    unfold Acc.updates. simpl. rewrite Hup. simpl. exact Hups.
Qed.

(** X10. Membership after the first update of a slot needs no primality:
    for any [p, q >= 2] and hash values positive and coprime to
    [(p-1)(q-1)], [__init__] returns, any sequence of [update] calls on
    other in-range slots returns, and then [update(i, v)] with a
    non-empty [v] returns [True] and [is_member(i, v)] is [True]. *)
Theorem first_update_is_member (seed : option Z) (security time_ns : Z) (t : tape)
    (calls : list (Z * string)) (i : Z) (v : string) :
  0 <= i < n0 -> v <> ""%string ->
  Forall (fun c => 0 <= c.1 < n0 /\ c.1 <> i) calls ->
  exists a0 t' self self',
    Acc.init hash_to_prime p0 q0 n0 seed security time_ns t = Ok (a0, t') /\
    updates a0 calls = Ok self /\
    update self i v = Ok (true, self') /\
    is_member self' i v = Ok true.
Proof.
  intros Hi Hv Hcalls.
  assert (Z.to_nat i < Z.to_nat n0)%nat as Hi' by lia.
  destruct (init_untouched seed security time_ns t (Z.to_nat i) Hi') as (a0 & Hinit & Hut0).
  destruct (updates_untouched calls a0 (Z.to_nat i) Hut0) as (self & Hups & Hut).
  { eapply Forall_impl; [exact Hcalls |]. intros c Hc. simpl in Hc. simpl.
    rewrite Z2Nat.id by lia. exact Hc. }
  destruct (update_untouched_member self (Z.to_nat i) v Hut Hi' Hv) as (self' & Hup & Hmem).
  rewrite Z2Nat.id in Hup, Hmem by lia.
  exists a0, (tape_tail t), self, self'. auto.
Qed.

End FirstUpdate.
End AccumulatorAlgebra.

Lemma updates_commute_witness :
  exists self',
    Acc.updates example_hash example_acc [(0, "a"); (1, "b")]%string = Ok self' /\
    Acc.updates example_hash example_acc [(1, "b"); (0, "a")]%string = Ok self'.
Proof.
  apply (updates_commute example_hash example_acc 0 1 "a" "b" "" "");
    try reflexivity; try discriminate; simpl; lia.
Defined.

Lemma update_and_back_witness :
  Acc.updates example_hash example_acc [(0, "a"); (0, "")]%string = Ok example_acc.
Proof.
  apply (update_and_back example_hash 3 5 example_acc 0 "" "a");
    try reflexivity; try discriminate; try (simpl; lia).
  - apply primeb_sound. reflexivity.
  - apply primeb_sound. reflexivity.
  - repeat constructor; simpl; lia.
Defined.

Lemma first_update_is_member_witness :
  exists a0 t' self self',
    Acc.init example_hash 15 9 3 (Some 128) 2048 0 example_tape = Ok (a0, t') /\
    Acc.updates example_hash a0 [(1, "a"); (1, "b"); (2, "c")]%string = Ok self /\
    Acc.update example_hash self 0 "hello" = Ok (true, self') /\
    Acc.is_member example_hash self' 0 "hello" = Ok true.
Proof.
  apply (first_update_is_member example_hash 15 9 3); try lia.
  - apply example_hash_pos.
  - intros s sd. unfold example_hash. destruct (String.eqb s "0"); reflexivity.
  - discriminate.
  - repeat constructor; simpl; lia.
Defined.

Lemma index_out_of_range_witness :
  Acc.update example_hash example_acc 2 "a" = Raise IndexError /\
  Acc.proof example_hash example_acc 2 "a" = Raise IndexError /\
  Acc.is_member example_hash example_acc 2 "a" = Raise IndexError.
Proof.
  apply (index_out_of_range example_hash example_acc 2 "a"); [reflexivity | simpl; lia].
Defined.

(** ** [randomsubgroup] *)

(** One pass of the [while True] loop: the candidate that the next tape
    entry gives. *)
Lemma randomsubgroup_step (fuel : nat) (q p : Z) (t : tape) :
  Z.prime p -> 3 <= p -> 0 < q ->
  let g := (2 + t 0%nat mod (p - 2)) ^ ((p - 1) / q) mod p in
  randomsubgroup (S fuel) q p t =
  if negb (g =? 1) then Some (Ok (g, tape_tail t))
  else randomsubgroup fuel q p (tape_tail t).
Proof.
  intros Hprime Hp Hq g. cbn [randomsubgroup].
  destruct (randint_ok 2 (p - 1) t) as [Hr Hh]; [lia |].
  replace (p - 1 - 2 + 1) with (p - 2) in Hr, Hh by lia.
  rewrite Hr. cbn [mbind result_bind run_lift].
  unfold py_floordiv. destruct (Z.eqb_spec q 0) as [| _]; [lia |].
  cbn [mbind result_bind].
  rewrite power_nonzero.
  - reflexivity.
  - apply Z.div_pos; lia.
  - lia.
  - rewrite Z.mod_small; lia.
Qed.

(** X11. [randomsubgroup(q, p)] for a prime [p >= 3] and [q] dividing
    [p - 1]: as soon as one of the draws [h] has [h^((p-1)/q) mod p]
    different from 1, the loop ends, and what it returns is an element
    [1 < g < p] with [g^q = 1 (mod p)]. *)
Theorem randomsubgroup_in_subgroup (fuel k : nat) (q p : Z) (t : tape) :
  Z.prime p -> 3 <= p -> 0 < q -> (q | p - 1) -> (k < fuel)%nat ->
  (2 + t k mod (p - 2)) ^ ((p - 1) / q) mod p <> 1 ->
  exists g t', randomsubgroup fuel q p t = Some (Ok (g, t')) /\
               1 < g < p /\ g ^ q mod p = 1.
Proof.
  intros Hprime Hp Hq Hdiv. revert k t.
  induction fuel as [| fuel IH]; intros k t Hk Hcand; [lia |].
  rewrite randomsubgroup_step by assumption.
  set (h := 2 + t 0%nat mod (p - 2)).
  assert (2 <= h <= p - 1) as Hh by (pose proof (Z.mod_pos_bound (t 0%nat) (p - 2)); lia).
  assert (h mod p <> 0) as Hhp by (rewrite Z.mod_small; lia).
  set (g := h ^ ((p - 1) / q) mod p).
  destruct (Z.eqb_spec g 1) as [Hg1 | Hg1]; simpl.
  - destruct k as [| k]; [contradiction |].
    apply (IH k (tape_tail t)); [lia | exact Hcand].
  - exists g, (tape_tail t). split; [reflexivity |].
    assert (0 <= (p - 1) / q) as He by (apply Z.div_pos; lia).
    assert (g <> 0) as Hg0.
    { unfold g. apply (pow_mod_nonzero p Hprime); assumption. }
    pose proof (Z.mod_pos_bound (h ^ ((p - 1) / q)) p) as Hb.
    split; [fold g in Hb; lia |].
    unfold g. rewrite Z.mod_pow_l, <- Z.pow_mul_r by lia.
    destruct Hdiv as [c Hc].
    replace ((p - 1) / q * q) with (p - 1)
      by (rewrite Hc, Z.div_mul by lia; reflexivity).
    apply Z.fermat_nz; assumption.
Qed.

Lemma randomsubgroup_in_subgroup_witness :
  exists g t', randomsubgroup 2 11 23 example_tape = Some (Ok (g, t')) /\
               1 < g < 23 /\ g ^ 11 mod 23 = 1.
Proof.
  apply (randomsubgroup_in_subgroup 2 0 11 23 example_tape); try lia.
  - apply primeb_sound. reflexivity.
  - exists 2. reflexivity.
  - vm_compute. discriminate.
Defined.

(** ** Exercise04: exponential ElGamal *)

Lemma run_bind_Ok_inv {A B : Type} (m : run A) (k : A -> run B) (b : B) :
  run_bind m k = Some (Ok b) -> exists a, m = Some (Ok a) /\ k a = Some (Ok b).
Proof. destruct m as [[a | e] |]; simpl; [eauto | discriminate | discriminate]. Qed.

(** [for i in l: if power(g,i,p) - h == 0: m_dec.append(i)] keeps the
    elements of [l] whose power is [h]. *)
Lemma scan_filter (g p h : Z) (l acc : list Z) :
  0 < p -> g mod p <> 0 -> Forall (fun i => 0 <= i) l ->
  for_each l
    (fun i m_dec =>
       gi ← power g i p;
       if gi - h =? 0 then Ok (m_dec ++ [i]) else Ok m_dec)
    acc
  = Ok (acc ++ filter (fun i => g ^ i mod p = h) l).
Proof.
  intros Hp Hg. revert acc. induction l as [| i l IH]; intros acc Hl.
  - simpl. rewrite app_nil_r. reflexivity.
  - apply Forall_cons in Hl as [Hi Hl]. cbn [for_each].
    rewrite power_nonzero by assumption. cbn [mbind result_bind].
    destruct (Z.eqb_spec (g ^ i mod p - h) 0) as [Heq | Hne].
    + cbn [mbind result_bind]. rewrite IH by exact Hl.
      rewrite filter_cons_True by lia. rewrite <- app_assoc. reflexivity.
    + cbn [mbind result_bind]. rewrite IH by exact Hl.
      rewrite filter_cons_False by lia. reflexivity.
Qed.

Section PrimeOrder.
Variables p q g : Z.
Hypothesis prime_p : Z.prime p.
Hypothesis prime_q : Z.prime q.
Hypothesis g_order : g ^ q mod p = 1.
Hypothesis g_not_one : g mod p <> 1.

Lemma generator_unit : g mod p <> 0.
Proof.
  pose proof (Z.prime_ge_2 _ prime_p). pose proof (Z.prime_ge_2 _ prime_q).
  apply (pow_mod_one_nonzero p g q); (lia || assumption).
Qed.

Lemma order_injective_le (i e : Z) :
  0 <= e <= i -> i < q -> g ^ i mod p = g ^ e mod p -> i = e.
Proof.
  pose proof (Z.prime_ge_2 _ prime_p) as Hp2. pose proof (Z.prime_ge_2 _ prime_q) as Hq2.
  intros Hei Hiq Heq. destruct (Z.eq_dec i e) as [| Hne]; [assumption | exfalso].
  set (d := i - e). assert (0 < d < q) as Hd0 by (unfold d; lia).
  assert (g ^ d mod p = 1) as Hd.
  { assert ((g ^ (q - e) * g ^ i) mod p = (g ^ (q - e) * g ^ e) mod p) as Hmul
      by (apply mod_mul_cong; [reflexivity | exact Heq]).
    rewrite <- !Z.pow_add_r in Hmul by lia.
    replace (q - e + e) with q in Hmul by lia.
    replace (q - e + i) with (q + d) in Hmul by (unfold d; lia).
    rewrite g_order, Z.pow_add_r, Zmult_mod, g_order in Hmul by lia.
    rewrite Z.mul_1_l, Z.mod_mod in Hmul by lia. exact Hmul. }
  set (u := Z.invmod d q).
  assert ((u * d) mod q = 1) as Hu.
  { apply Z.invmod_coprime; [lia |]. unfold Z.coprime. rewrite Z.gcd_comm.
    apply Z.coprime_prime_small; [exact prime_q | lia]. }
  assert (0 <= u) as Hu0 by (unfold u, Z.invmod; apply Z.mod_pos_bound; lia).
  apply g_not_one.
  rewrite <- (Z.pow_1_r g) at 1.
  rewrite <- (pow_cong_exponent g p q (d * u) 1); try lia; try assumption.
  - rewrite Z.pow_mul_r by lia. rewrite <- Z.mod_pow_l, Hd, Z.pow_1_l by lia.
    apply Z.mod_1_l. lia.
  - rewrite (Z.mul_comm d u), Hu. symmetry. apply Z.mod_1_l. lia.
Qed.

(** [g] has order [q]: exponents below [q] with the same power are the
    same exponent. *)
Lemma order_injective (i e : Z) :
  0 <= i < q -> 0 <= e < q -> g ^ i mod p = g ^ e mod p -> i = e.
Proof.
  intros Hi He Heq. destruct (Z.le_gt_cases e i).
  - apply order_injective_le; (lia || assumption).
  - symmetry. apply order_injective_le; [lia | lia | symmetry; assumption].
Qed.

(** The inner loop of [dec] finds the exponent [e] when it is below
    [maxvalue], and nothing else. *)
Lemma filter_discrete_log (e : Z) (k : nat) :
  0 <= e < q -> Z.of_nat k <= q ->
  filter (fun i => g ^ i mod p = g ^ e mod p) (seqZ 0 (Z.of_nat k))
  = if bool_decide (e < Z.of_nat k) then [e] else [].
Proof.
  intros He. induction k as [| k IH]; intros Hk.
  - rewrite bool_decide_false by lia. reflexivity.
  - rewrite seqZ_S, filter_app, IH by lia. rewrite Z.add_0_l.
    destruct (Z.eq_dec e (Z.of_nat k)) as [-> | Hne].
    + rewrite bool_decide_false, bool_decide_true by lia.
      rewrite filter_cons_True by reflexivity. reflexivity.
    + rewrite filter_cons_False.
      * rewrite filter_nil, app_nil_r.
        repeat case_bool_decide; (reflexivity || lia).
      * intros Heq. apply Hne. symmetry. apply order_injective; (lia || assumption).
Qed.

(** [dec] on a ciphertext of the shape that [enc] builds: since the
    entries of [C] are products that were not reduced modulo [p], the
    floor division by [power(R, x, p)] is exact. *)
Lemma dec_value (x r maxvalue : Z) (m : list Z) :
  0 <= x -> 0 <= r -> maxvalue <= q ->
  Forall (fun e => 0 <= e < q) m ->
  Ex04b.dec g x (g ^ r mod p,
                 (fun e => (g ^ e mod p) * ((g ^ x mod p) ^ r mod p)) <$> m) p maxvalue
  = Ok (filter (fun e => e < maxvalue) m).
Proof.
  pose proof (Z.prime_ge_2 _ prime_p) as Hp2. pose proof generator_unit as Hg.
  intros Hx Hr Hmax Hm. unfold Ex04b.dec. cbn [fst snd].
  assert ((g ^ x mod p) ^ r mod p <> 0) as Hb.
  { apply (pow_mod_nonzero p prime_p); [lia |].
    rewrite Z.mod_mod by lia. apply (pow_mod_nonzero p prime_p); assumption. }
  rewrite power_nonzero by (try lia; rewrite Z.mod_mod by lia;
                            apply (pow_mod_nonzero p prime_p); assumption).
  cbn [mbind result_bind]. unfold py_floordiv. cbn beta.
  assert ((g ^ r mod p) ^ x mod p = (g ^ x mod p) ^ r mod p) as ->.
  { rewrite !Z.mod_pow_l, <- !Z.pow_mul_r by lia. rewrite (Z.mul_comm r x). reflexivity. }
  destruct (Z.eqb_spec ((g ^ x mod p) ^ r mod p) 0) as [| _]; [contradiction |].
  cbn [mbind result_bind].
  match goal with
  | |- for_each ?l ?body [] = _ =>
      cut (forall acc, for_each l body acc = Ok (acc ++ filter (fun e => e < maxvalue) m));
        [intros Hgen; apply (Hgen []) |]
  end.
  induction m as [| e m IH]; intros acc.
  - rewrite filter_nil, app_nil_r. reflexivity.
  - apply Forall_cons in Hm as [He Hm]. rewrite fmap_cons. cbn [for_each].
    rewrite Z.div_mul by exact Hb.
    rewrite scan_filter.
    + cbn [mbind result_bind]. rewrite IH by exact Hm.
      rewrite <- app_assoc. do 2 f_equal.
      unfold range. rewrite Z.sub_0_r.
      destruct (Z.le_gt_cases maxvalue 0) as [Hneg | Hpos].
      * rewrite seqZ_nil by lia. rewrite filter_cons_False by lia. reflexivity.
      * rewrite <- (Z2Nat.id maxvalue) at 1 by lia.
        rewrite filter_discrete_log by lia. rewrite Z2Nat.id by lia.
        case_bool_decide.
        -- rewrite filter_cons_True by assumption. reflexivity.
        -- rewrite filter_cons_False by assumption. reflexivity.
    + lia.
    + exact Hg.
    + apply Forall_forall. intros i Hin. apply range_elem in Hin. lia.
Qed.

(** What [keyGen] and [enc] return, when they return. *)
Lemma keyGen_value (fuel : nat) (t t1 : tape) (y x : Z) :
  Ex04b.keyGen fuel g q p t = Some (Ok ((y, x), t1)) ->
  0 <= x /\ y = g ^ x mod p.
Proof.
  pose proof (Z.prime_ge_2 _ prime_p) as Hp2. pose proof generator_unit as Hg.
  unfold Ex04b.keyGen. intros ([h t0] & _ & Hk)%run_bind_Ok_inv.
  unfold run_lift in Hk. injection Hk as Hk.
  apply bind_Ok_inv in Hk as ([e t2] & _ & Hk).
  apply bind_Ok_inv in Hk as (x' & Hx & Hk).
  apply bind_Ok_inv in Hk as (y' & Hy & Hk).
  injection Hk as <- <- <-.
  destruct (power_range h e p) as (v & Hv & Hrange); [lia |].
  rewrite Hv in Hx. injection Hx as <-.
  rewrite power_nonzero in Hy by (lia || assumption).
  injection Hy as <-. split; [lia | reflexivity].
Qed.

Lemma enc_value (fuel : nat) (t t1 : tape) (y R : Z) (m C : list Z) :
  y mod p <> 0 -> Forall (fun e => 0 <= e) m ->
  Ex04b.enc fuel y m g q p t = Some (Ok ((R, C), t1)) ->
  exists r, 0 <= r /\ R = g ^ r mod p /\
            C = (fun e => (g ^ e mod p) * (y ^ r mod p)) <$> m.
Proof.
  pose proof (Z.prime_ge_2 _ prime_p) as Hp2. pose proof generator_unit as Hg.
  intros Hy Hm. unfold Ex04b.enc. intros ([h t0] & _ & Hk)%run_bind_Ok_inv.
  unfold run_lift in Hk. injection Hk as Hk.
  apply bind_Ok_inv in Hk as ([e t2] & _ & Hk).
  apply bind_Ok_inv in Hk as (r & Hr & Hk).
  apply bind_Ok_inv in Hk as (R' & HR & Hk).
  apply bind_Ok_inv in Hk as (C' & HC & Hk).
  injection Hk as <- <- <-.
  destruct (power_range h e p) as (v & Hv & Hrange); [lia |].
  rewrite Hv in Hr. injection Hr as <-.
  rewrite power_nonzero in HR by (lia || assumption). injection HR as <-.
  exists v. split; [lia |]. split; [reflexivity |].
  match type of HC with for_each _ ?body _ = _ =>
    destruct (for_each_inv
      (fun pre C => C = (fun e => (g ^ e mod p) * (y ^ v mod p)) <$> pre) m body [])
      as (C'' & HC'' & HI)
  end.
  - reflexivity.
  - intros pre e' post s Hl ->.
    assert (0 <= e') as He'.
    { apply (proj1 (Forall_forall _ _) Hm). rewrite Hl. apply elem_of_middle. }
    rewrite !power_nonzero by (lia || assumption). cbn [mbind result_bind].
    eexists. split; [reflexivity |]. rewrite fmap_app. reflexivity.
  - congruence.
Qed.

End PrimeOrder.

(** X12. Exponential ElGamal of [ex04_4-2-b.py] decrypts: for primes [p]
    and [q], a generator [g] of order [q] modulo [p], a key pair from
    [keyGen] and a list [m] of numbers in [0, q), [dec] applied to what
    [enc] returns gives back, in order, the numbers of [m] that are
    below [maxvalue] (for [maxvalue <= q]); so all of [m] when every
    number is below [maxvalue]. *)
Theorem exponential_elgamal_round_trip (fuel fuel' : nat) (p q g maxvalue : Z)
    (m : list Z) (t t1 t2 : tape) (y x R : Z) (C : list Z) :
  Z.prime p -> Z.prime q -> g ^ q mod p = 1 -> g mod p <> 1 ->
  Forall (fun e => 0 <= e < q) m -> maxvalue <= q ->
  Ex04b.keyGen fuel g q p t = Some (Ok ((y, x), t1)) ->
  Ex04b.enc fuel' y m g q p t1 = Some (Ok ((R, C), t2)) ->
  Ex04b.dec g x (R, C) p maxvalue = Ok (filter (fun e => e < maxvalue) m) /\
  (Forall (fun e => e < maxvalue) m -> Ex04b.dec g x (R, C) p maxvalue = Ok m).
Proof.
  intros Hp Hq Hord Hg1 Hm Hmax Hkg Henc.
  pose proof (Z.prime_ge_2 _ Hp) as Hp2.
  pose proof (generator_unit p q g Hp Hq Hord) as Hg.
  destruct (keyGen_value p q g Hp Hq Hord Hg1 fuel t t1 y x Hkg) as [Hx ->].
  destruct (enc_value p q g Hp Hq Hord Hg1 fuel' t1 t2 (g ^ x mod p) R m C) as (r & Hr & -> & ->).
  { rewrite Z.mod_mod by lia. apply (pow_mod_nonzero p Hp); assumption. }
  { eapply Forall_impl; [exact Hm |]. intros e He. simpl in He. lia. }
  { exact Henc. }
  assert (Ex04b.dec g x
            (g ^ r mod p, (fun e => g ^ e mod p * ((g ^ x mod p) ^ r mod p)) <$> m)
            p maxvalue = Ok (filter (fun e => e < maxvalue) m)) as Hdec
    by (apply (dec_value p q g Hp Hq Hord Hg1); assumption).
  split; [exact Hdec |].
  intros Hall. rewrite Hdec. f_equal.
  clear -Hall. induction Hall as [| e m He _ IH]; [reflexivity |].
  rewrite filter_cons_True by exact He. f_equal. exact IH.
Qed.

Lemma exponential_elgamal_round_trip_witness :
  exists y x t1 R C t2,
    Ex04b.keyGen 2 2 11 23 example_tape = Some (Ok ((y, x), t1)) /\
    Ex04b.enc 2 y [3; 9; 5] 2 11 23 t1 = Some (Ok ((R, C), t2)) /\
    Ex04b.dec 2 x (R, C) 23 8 = Ok [3; 5].
Proof.
  do 6 eexists. split; [vm_compute; reflexivity |]. split; [vm_compute; reflexivity |].
  eapply (exponential_elgamal_round_trip 2 2 23 11 2 8 [3; 9; 5] example_tape).
  - apply primeb_sound. reflexivity.
  - apply primeb_sound. reflexivity.
  - reflexivity.
  - discriminate.
  - repeat constructor; lia.
  - lia.
  - vm_compute. reflexivity.
  - vm_compute. reflexivity.
Defined.

(** X13. The timing loop at the end of [ex04_4-2-b.py] encrypts [m = [i]]
    and calls [dec(sk_B, m_enc, p, i)]: because [range(0, i)] stops before
    [i], that call returns the empty list for every [0 <= i < q]. *)
Theorem timing_loop_decrypts_nothing (fuel fuel' : nat) (p q g i : Z)
    (t t1 t2 : tape) (y x R : Z) (C : list Z) :
  Z.prime p -> Z.prime q -> g ^ q mod p = 1 -> g mod p <> 1 ->
  0 <= i < q ->
  Ex04b.keyGen fuel g q p t = Some (Ok ((y, x), t1)) ->
  Ex04b.enc fuel' y [i] g q p t1 = Some (Ok ((R, C), t2)) ->
  Ex04b.dec g x (R, C) p i = Ok [].
Proof.
  intros Hp Hq Hord Hg1 Hi Hkg Henc.
  pose proof (Z.prime_ge_2 _ Hp) as Hp2.
  pose proof (generator_unit p q g Hp Hq Hord) as Hg.
  destruct (keyGen_value p q g Hp Hq Hord Hg1 fuel t t1 y x Hkg) as [Hx ->].
  destruct (enc_value p q g Hp Hq Hord Hg1 fuel' t1 t2 (g ^ x mod p) R [i] C) as (r & Hr & -> & ->).
  { rewrite Z.mod_mod by lia. apply (pow_mod_nonzero p Hp); assumption. }
  { repeat constructor. lia. }
  { exact Henc. }
  rewrite (dec_value p q g Hp Hq Hord Hg1) by (repeat constructor; lia).
  rewrite filter_cons_False by lia. reflexivity.
Qed.

Lemma timing_loop_decrypts_nothing_witness :
  exists y x t1 R C t2,
    Ex04b.keyGen 2 2 11 23 example_tape = Some (Ok ((y, x), t1)) /\
    Ex04b.enc 2 y [7] 2 11 23 t1 = Some (Ok ((R, C), t2)) /\
    Ex04b.dec 2 x (R, C) 23 7 = Ok [].
Proof.
  do 6 eexists. split; [vm_compute; reflexivity |]. split; [vm_compute; reflexivity |].
  eapply (timing_loop_decrypts_nothing 2 2 23 11 2 7 example_tape).
  - apply primeb_sound. reflexivity.
  - apply primeb_sound. reflexivity.
  - reflexivity.
  - discriminate.
  - lia.
  - vm_compute. reflexivity.
  - vm_compute. reflexivity.
Defined.

Lemma Ex04a_enc_value (fuel : nat) (t t1 : tape) (y m g q p R C : Z) :
  0 < p -> g mod p <> 0 -> y mod p <> 0 -> 0 <= m ->
  Ex04a.enc fuel y m g q p t = Some (Ok ((R, C), t1)) ->
  exists r, 0 <= r /\ R = g ^ r mod p /\ C = (g ^ m mod p) * (y ^ r mod p).
Proof.
  intros Hp Hg Hy Hm. unfold Ex04a.enc. intros ([h t0] & _ & Hk)%run_bind_Ok_inv.
  unfold run_lift in Hk. injection Hk as Hk.
  apply bind_Ok_inv in Hk as ([e t2] & _ & Hk).
  apply bind_Ok_inv in Hk as (r & Hr & Hk).
  destruct (power_range h e p) as (v & Hv & Hrange); [lia |].
  rewrite Hv in Hr. injection Hr as <-.
  rewrite !power_nonzero in Hk by (lia || assumption).
  injection Hk as <- <- <-.
  exists v. split; [lia |]. split; reflexivity.
Qed.

(** X14. The ciphertexts of [ex04_4-2-a.py] are additively homomorphic:
    the component-wise product modulo [p] that the script forms from the
    encryptions of [m1] and [m2] under the same public key is
    [(g^r, g^(m1+m2) * y^r)] modulo [p] for some [r >= 0], a ciphertext
    of the sum. *)
Theorem ciphertext_product_encrypts_sum (fuel fuel' : nat) (y m1 m2 g q p : Z)
    (t t1 t2 : tape) (c1 c2 : Z * Z) :
  0 < p -> g mod p <> 0 -> y mod p <> 0 -> 0 <= m1 -> 0 <= m2 ->
  Ex04a.enc fuel y m1 g q p t = Some (Ok (c1, t1)) ->
  Ex04a.enc fuel' y m2 g q p t1 = Some (Ok (c2, t2)) ->
  exists r, 0 <= r /\
    Ex04a.m_encs c1 c2 p = Ok (g ^ r mod p, (g ^ (m1 + m2) * y ^ r) mod p).
Proof.
  intros Hp Hg Hy Hm1 Hm2 H1 H2. destruct c1 as [R1 C1], c2 as [R2 C2].
  destruct (Ex04a_enc_value fuel t t1 y m1 g q p R1 C1) as (r1 & Hr1 & -> & ->);
    try assumption.
  destruct (Ex04a_enc_value fuel' t1 t2 y m2 g q p R2 C2) as (r2 & Hr2 & -> & ->);
    try assumption.
  exists (r1 + r2). split; [lia |].
  unfold Ex04a.m_encs. cbn [fst snd]. rewrite !py_mod_ok by lia.
  cbn [mbind result_bind]. do 2 f_equal.
  - rewrite <- Zmult_mod, <- Z.pow_add_r by lia. reflexivity.
  - rewrite !Z.pow_add_r by lia.
    replace (g ^ m1 * g ^ m2 * (y ^ r1 * y ^ r2))
      with ((g ^ m1 * y ^ r1) * (g ^ m2 * y ^ r2)) by ring.
    apply mod_mul_cong; symmetry; apply Zmult_mod.
Qed.

Lemma ciphertext_product_encrypts_sum_witness :
  exists c1 t1 c2 t2 r,
    Ex04a.enc 2 6 3 2 11 23 example_tape = Some (Ok (c1, t1)) /\
    Ex04a.enc 2 6 4 2 11 23 t1 = Some (Ok (c2, t2)) /\
    0 <= r /\
    Ex04a.m_encs c1 c2 23 = Ok (2 ^ r mod 23, (2 ^ (3 + 4) * 6 ^ r) mod 23).
Proof.
  do 4 eexists.
  assert (forall (P Q : Prop) (R : Z -> Prop), P -> Q -> (exists r, R r) ->
            exists r, P /\ Q /\ R r) as Hsplit
    by (intros P Q R HP HQ [r HR]; exists r; auto).
  apply Hsplit; [vm_compute; reflexivity | vm_compute; reflexivity |].
  eapply (ciphertext_product_encrypts_sum 2 2 6 3 4 2 11 23 example_tape); try lia.
  - discriminate.
  - discriminate.
  - vm_compute. reflexivity.
  - vm_compute. reflexivity.
Defined.

(** ** The primality test of [accumulator.py] *)

Lemma split_twos_eq (s d : Z) :
  Primality.split_twos s d =
  if s =? 0 then None
  else if s mod 2 =? 0 then Primality.split_twos (s / 2) (d + 1)
  else Some (s, d).
Proof.
  rewrite Primality.split_twos_equation_1.
  destruct (Z.eq_dec s 0) as [Hs | Hs]; simpl.
  - destruct (Z.eqb_spec s 0); [reflexivity | contradiction].
  - destruct (Z.eqb_spec s 0); [contradiction |].
    destruct (Z.eq_dec (s mod 2) 0) as [Hm | Hm]; simpl.
    + destruct (Z.eqb_spec (s mod 2) 0); [reflexivity | contradiction].
    + destruct (Z.eqb_spec (s mod 2) 0); [contradiction | reflexivity].
Qed.

(** The first loop of [miller_rabin] ends for a positive [s] and splits
    off the powers of two. *)
Lemma split_twos_spec (s0 : Z) :
  0 < s0 -> forall d0,
  exists s d, Primality.split_twos s0 d0 = Some (s, d0 + d) /\
              0 <= d /\ s0 = s * 2 ^ d /\ s mod 2 = 1 /\ (s0 mod 2 = 0 -> 1 <= d).
Proof.
  intros Hpos. assert (0 <= s0) as Hnn by lia. revert Hpos.
  pattern s0. apply Zlt_0_ind; [clear s0 Hnn | exact Hnn].
  intros s0 IH _ Hpos d0. rewrite split_twos_eq.
  destruct (Z.eqb_spec s0 0) as [| _]; [lia |].
  pose proof (Z.div_mod s0 2) as Hdm. pose proof (Z.mod_pos_bound s0 2) as Hmb.
  destruct (Z.eqb_spec (s0 mod 2) 0) as [Hev | Hodd].
  - destruct (IH (s0 / 2)) with (d0 := d0 + 1) as (s & d & Hsplit & Hd & Hs & Hsodd & _);
      [lia | lia |].
    exists s, (d + 1). split; [rewrite Hsplit; do 2 f_equal; lia |].
    split; [lia |]. split; [| split; [exact Hsodd | lia]].
    rewrite Z.pow_add_r, Z.pow_1_r by lia. lia.
  - exists s0, 0. split; [rewrite Z.add_0_r; reflexivity |].
    split; [lia |]. split; [rewrite Z.pow_0_r; lia |]. split; lia.
Qed.

(** A square root of 1 modulo a prime is 1 or -1. *)
Lemma sqrt_one_prime (n x : Z) :
  Z.prime n -> 0 <= x < n -> x ^ 2 mod n = 1 -> x = 1 \/ x = n - 1.
Proof.
  intros Hprime Hx Hsq. pose proof (Z.prime_ge_2 _ Hprime) as Hn.
  assert ((n | (x - 1) * (x + 1))) as Hdiv.
  { apply Z.mod_divide; [lia |].
    replace ((x - 1) * (x + 1)) with (x ^ 2 - 1) by ring.
    apply Z.cong_iff_0. rewrite Hsq. symmetry. apply Z.mod_1_l. lia. }
  apply (Z.divide_prime_mul _ _ _ Hprime) in Hdiv as [[k Hk] | [k Hk]].
  - left. assert (k = 0) by nia. lia.
  - right. assert (k = 1) by nia. lia.
Qed.

(** The inner [while] loop ends within [d - i] passes when [i < d]. *)
Lemma witness_loop_total (fuel : nat) (n d : Z) :
  n <> 0 -> forall i x, 0 <= i < d -> (Z.to_nat (d - i) <= fuel)%nat ->
  exists b, Primality.witness_loop fuel n d i x = Some (Ok b).
Proof.
  intros Hn. induction fuel as [| fuel IH]; intros i x Hi Hfuel; [lia |].
  cbn [Primality.witness_loop].
  destruct (Z.eqb_spec x (n - 1)) as [| Hx]; cbn [negb]; [eauto |].
  destruct (Z.eqb_spec i (d - 1)) as [| Hid]; [eauto |].
  rewrite py_mod_ok by exact Hn. cbn [run_lift run_bind].
  apply IH; lia.
Qed.

(** For a prime [n] the inner loop finds [-1] on the way from a value
    other than 1 to 1. *)
Lemma witness_loop_complete (fuel : nat) (n d : Z) :
  Z.prime n -> forall i x, 0 <= i < d -> (Z.to_nat (d - i) <= fuel)%nat ->
  0 <= x < n -> x <> 1 -> x ^ (2 ^ (d - i)) mod n = 1 ->
  Primality.witness_loop fuel n d i x = Some (Ok true).
Proof.
  intros Hprime. pose proof (Z.prime_ge_2 _ Hprime) as Hn.
  induction fuel as [| fuel IH]; intros i x Hi Hfuel Hx Hx1 Hpow; [lia |].
  cbn [Primality.witness_loop].
  destruct (Z.eqb_spec x (n - 1)) as [| Hxn]; cbn [negb]; [reflexivity |].
  destruct (Z.eqb_spec i (d - 1)) as [Hid | Hid].
  - exfalso. replace (d - i) with 1 in Hpow by lia. rewrite Z.pow_1_r in Hpow.
    destruct (sqrt_one_prime n x Hprime Hx Hpow); contradiction.
  - rewrite py_mod_ok by lia. cbn [run_lift run_bind].
    apply IH; try lia.
    + apply Z.mod_pos_bound. lia.
    + intros Hsq. destruct (sqrt_one_prime n x Hprime Hx Hsq); contradiction.
    + rewrite Z.mod_pow_l, <- Z.pow_mul_r by (try lia; apply Z.pow_nonneg; lia).
      replace (2 * 2 ^ (d - (i + 1))) with (2 ^ (d - i)); [exact Hpow |].
      replace (d - i) with (Z.succ (d - (i + 1))) by lia.
      rewrite Z.pow_succ_r by lia. reflexivity.
Qed.

(** The rounds of [miller_rabin] for an odd [n >= 5]: every round
    returns, and no round rejects a prime. *)
Lemma rounds_loop_spec (fuel rounds : nat) (n s d : Z) (t : tape) :
  5 <= n -> 0 <= s -> 1 <= d -> (Z.to_nat d <= fuel)%nat ->
  exists b t', Primality.rounds_loop fuel rounds n s d t = Some (Ok (b, t')) /\
               (Z.prime n -> n - 1 = s * 2 ^ d -> b = true).
Proof.
  intros Hn Hs Hd Hfuel. revert t.
  induction rounds as [| rounds IH]; intros t.
  - exists true, t. split; [reflexivity | auto].
  - cbn [Primality.rounds_loop]. unfold Primality.randrange.
    destruct (Z.ltb_spec 2 (n - 1)) as [_ |]; [| lia].
    cbn [mbind result_bind].
    set (a := 2 + t 0%nat mod (n - 1 - 2)).
    assert (2 <= a <= n - 2) as Ha
      by (pose proof (Z.mod_pos_bound (t 0%nat) (n - 1 - 2)); lia).
    rewrite py_pow_nonneg by lia. cbn [mbind result_bind run_lift run_bind].
    destruct (Z.eqb_spec (a ^ s mod n) 1) as [| Hx1]; cbn [negb]; [apply IH |].
    destruct (witness_loop_total fuel n d ltac:(lia) 0 (a ^ s mod n)) as [b Hb];
      [lia | lia |].
    rewrite Hb. cbn [run_bind]. destruct b; [apply IH |].
    exists false, (tape_tail t). split; [reflexivity |].
    intros Hprime Hsd. exfalso.
    rewrite (witness_loop_complete fuel n d Hprime 0 (a ^ s mod n)) in Hb;
      [discriminate | lia | lia | apply Z.mod_pos_bound; lia | exact Hx1 |].
    rewrite Z.sub_0_r, Z.mod_pow_l, <- Z.pow_mul_r, <- Hsd
      by (try lia; apply Z.pow_nonneg; lia).
    apply Z.fermat_nz; [exact Hprime |]. rewrite Z.mod_small; lia.
Qed.

(** [is_prime] returns for every [n] once the fuel covers the binary
    length of [n], and it returns [True] when [n] is prime. *)
Lemma is_prime_returns (fuel : nat) (n : Z) (t : tape) :
  n <= 2 ^ Z.of_nat fuel ->
  exists b t', Primality.is_prime fuel n t = Some (Ok (b, t')) /\
               (Z.prime n -> b = true).
Proof.
  intros Hfuel. unfold Primality.is_prime.
  destruct (Z.ltb_spec n 2) as [Hlt2 | Hge2].
  { exists false, t. split; [reflexivity |].
    intros Hprime. pose proof (Z.prime_ge_2 _ Hprime). lia. }
  destruct (Z.ltb_spec n 4) as [Hlt4 | Hge4].
  { exists true, t. split; [reflexivity | auto]. }
  destruct (Z.eqb_spec (n mod 2) 0) as [Hev | Hodd]; cbn [orb].
  { exists false, t. split; [reflexivity |].
    intros [_ Hprime]. exfalso. apply (Hprime 2); [lia |].
    apply Z.mod_divide; [lia | exact Hev]. }
  destruct (Z.eqb_spec (n mod 3) 0) as [Hthree | Hnthree].
  { exists false, t. split; [reflexivity |].
    intros [_ Hprime]. exfalso. apply (Hprime 3); [lia |].
    apply Z.mod_divide; [lia | exact Hthree]. }
  assert (5 <= n) as Hn5.
  { destruct (Z.eq_dec n 4) as [-> |]; [exfalso; apply Hodd; reflexivity | lia]. }
  assert ((n - 1) mod 2 = 0) as Heven.
  { pose proof (Z.mod_pos_bound n 2). pose proof (Z.div_mod n 2).
    rewrite <- Z.cong_iff_0. rewrite (Z.mod_small 1) by lia. lia. }
  destruct (split_twos_spec (n - 1) ltac:(lia) 0)
    as (s & d & Hsplit & Hd0 & Hsd & Hsodd & Hd1).
  specialize (Hd1 Heven). rewrite Z.add_0_l in Hsplit.
  assert (0 < s) as Hs by nia.
  assert (Z.to_nat d <= fuel)%nat as Hdf.
  { assert (2 ^ d < 2 ^ Z.of_nat fuel) as Hlt by nia.
    apply Z.pow_lt_mono_r_iff in Hlt; lia. }
  unfold Primality.miller_rabin. rewrite Hsplit. cbn [option_map run_bind].
  destruct (rounds_loop_spec fuel (Z.to_nat 5) n s d t) as (b & t' & Hrounds & Hb);
    try lia.
  exists b, t'. split; [exact Hrounds |]. intros Hprime. apply Hb; assumption.
Qed.

(** X15. [is_prime] is total: for every integer [n] and every state of the
    random generator it returns a truth value, without an exception, once
    the fuel of the model covers the binary length of [n].  (The inner
    loop of [miller_rabin] is only bounded because [is_prime] has
    filtered the even numbers out.) *)
Theorem is_prime_total (fuel : nat) (n : Z) (t : tape) :
  n <= 2 ^ Z.of_nat fuel ->
  exists b t', Primality.is_prime fuel n t = Some (Ok (b, t')).
Proof.
  intros Hfuel.
  destruct (is_prime_returns fuel n t Hfuel) as (b & t' & Hret & _).
  exists b, t'. exact Hret.
Qed.

Lemma is_prime_total_witness :
  exists b t', Primality.is_prime 5 25 example_tape = Some (Ok (b, t')).
Proof. apply (is_prime_total 5 25 example_tape). vm_compute. discriminate. Defined.

(** X16. [is_prime] never rejects a prime, whatever the random bases
    are: for a prime [n] it returns [True]. *)
Theorem is_prime_accepts_primes (fuel : nat) (n : Z) (t : tape) :
  Z.prime n -> n <= 2 ^ Z.of_nat fuel ->
  exists t', Primality.is_prime fuel n t = Some (Ok (true, t')).
Proof.
  intros Hprime Hfuel.
  destruct (is_prime_returns fuel n t Hfuel) as (b & t' & Hret & Hb).
  exists t'. rewrite Hret, (Hb Hprime). reflexivity.
Qed.

Lemma is_prime_accepts_primes_witness :
  exists t', Primality.is_prime 5 29 example_tape_distinct = Some (Ok (true, t')).
Proof.
  apply (is_prime_accepts_primes 5 29 example_tape_distinct).
  - apply primeb_sound. reflexivity.
  - vm_compute. discriminate.
Defined.

(** The loop of [hash_to_prime] stops at the latest at the first prime of
    the progression [p, p+2, p+4, ...]. *)
Lemma next_prime_loop_spec (fuel search : nat) :
  forall (k : nat) (p : Z) (t : tape),
  (k < search)%nat -> Z.prime (p + 2 * Z.of_nat k) ->
  p + 2 * Z.of_nat k <= 2 ^ Z.of_nat fuel ->
  exists r (j : nat) t0 t1,
    Primality.next_prime_loop fuel search p t = Some (Ok r) /\
    r = p + 2 * Z.of_nat j /\ (j <= k)%nat /\
    Primality.is_prime fuel r t0 = Some (Ok (true, t1)).
Proof.
  induction search as [| search IH]; intros k p t Hk Hprime Hfuel; [lia |].
  cbn [Primality.next_prime_loop].
  destruct (is_prime_returns fuel p t) as (b & t' & Hret & Hb); [lia |].
  rewrite Hret. cbn [run_bind]. destruct b; cbn [negb].
  - exists p, 0%nat, t, t'. split; [reflexivity |].
    split; [lia |]. split; [lia | exact Hret].
  - destruct k as [| k].
    + rewrite Z.mul_0_r, Z.add_0_r in Hprime. specialize (Hb Hprime). discriminate.
    + destruct (IH k (p + 2) t') as (r & j & t0 & t1 & Hloop & Hr & Hj & Hacc).
      * lia.
      * replace (p + 2 + 2 * Z.of_nat k) with (p + 2 * Z.of_nat (S k)) by lia.
        exact Hprime.
      * lia.
      * exists r, (S j), t0, t1. split; [exact Hloop |].
        split; [lia |]. split; [lia | exact Hacc].
Qed.

(** X17. [hash_to_prime(input, seed)] returns as soon as the progression
    [h, h+2, h+4, ...] from [h = sha256(input) * 2^64 + 1] holds a prime:
    the value returned is an odd number of that progression, not beyond
    its first prime, and one that [is_prime] accepts. *)
Theorem hash_to_prime_returns (sha256_hex_int : string -> Z) (seeded : Z -> tape)
    (fuel search k : nat) (input : string) (seed : Z) :
  let h := sha256_hex_int input * 2 ^ 64 + 1 in
  (k < search)%nat -> Z.prime (h + 2 * Z.of_nat k) ->
  h + 2 * Z.of_nat k <= 2 ^ Z.of_nat fuel ->
  exists r t0 t1,
    Primality.hash_to_prime sha256_hex_int seeded fuel search input seed = Some (Ok r) /\
    h <= r <= h + 2 * Z.of_nat k /\ r mod 2 = 1 /\
    Primality.is_prime fuel r t0 = Some (Ok (true, t1)).
Proof.
  intros h Hk Hprime Hfuel. unfold Primality.hash_to_prime. fold h.
  destruct (next_prime_loop_spec fuel search k h (seeded seed) Hk Hprime Hfuel)
    as (r & j & t0 & t1 & Hloop & Hr & Hj & Hacc).
  exists r, t0, t1. split; [exact Hloop |]. split; [lia |]. split; [| exact Hacc].
  rewrite Hr. unfold h.
  replace (sha256_hex_int input * 2 ^ 64 + 1 + 2 * Z.of_nat j)
    with (1 + (sha256_hex_int input * 2 ^ 63 + Z.of_nat j) * 2) by lia.
  rewrite Z.mod_add by lia. reflexivity.
Qed.

Lemma hash_to_prime_returns_witness :
  exists r t0 t1,
    Primality.hash_to_prime (fun _ => 0) (fun _ => example_tape) 3 4 "hello" 128
      = Some (Ok r) /\
    0 * 2 ^ 64 + 1 <= r <= 0 * 2 ^ 64 + 1 + 2 * Z.of_nat 1 /\ r mod 2 = 1 /\
    Primality.is_prime 3 r t0 = Some (Ok (true, t1)).
Proof.
  apply (hash_to_prime_returns (fun _ => 0) (fun _ => example_tape) 3 4 1 "hello" 128).
  - lia.
  - apply primeb_sound. reflexivity.
  - vm_compute. discriminate.
Defined.

(** ** The coefficient list of [polynomial] in Exercise09 *)

Lemma for_each_app {A S : Type} (l1 l2 : list A) (body : A -> S -> result S) (s : S) :
  for_each (l1 ++ l2) body s = (s' ← for_each l1 body s; for_each l2 body s').
Proof.
  revert s. induction l1 as [| a l1 IH]; intros s; simpl; [reflexivity |].
  destruct (body a s) as [s' | e]; simpl; [apply IH | reflexivity].
Qed.

Lemma for_each_ext {A S : Type} (l : list A) (body body' : A -> S -> result S) (s : S) :
  (forall a s, a ∈ l -> body a s = body' a s) ->
  for_each l body s = for_each l body' s.
Proof.
  revert s. induction l as [| a l IH]; intros s Hext; simpl; [reflexivity |].
  rewrite (Hext a s) by left.
  destruct (body' a s) as [s' | e]; simpl; [| reflexivity].
  apply IH. intros a' s'' Hin. apply Hext. right. exact Hin.
Qed.

(** X18. [polynomial] of Exercise09 reads exactly the first [f+1]
    coefficients: with fewer in the list it raises [IndexError] (for a
    modulus other than 0), and whatever follows the first [f+1] does not
    change its result. *)
Theorem polynomial_reads_coefficients (val : Z) (cs : list Z) (f q : Z) :
  q <> 0 -> 0 <= f ->
  ((length cs < Z.to_nat (f + 1))%nat ->
     Ex09.polynomial val cs f q = Raise IndexError) /\
  ((Z.to_nat (f + 1) <= length cs)%nat -> forall more,
     Ex09.polynomial val (cs ++ more) f q = Ex09.polynomial val cs f q).
Proof.
  intros Hq Hf. split.
  - intros Hlen. unfold Ex09.polynomial, range. rewrite Z.sub_0_r.
    set (len := Z.of_nat (length cs)).
    replace (f + 1) with (len + (f + 1 - len)) by lia.
    rewrite seqZ_app, for_each_app by lia.
    match goal with |- context [for_each (seqZ 0 len) ?body 0] =>
      destruct (for_each_inv (fun _ _ => True) (seqZ 0 len) body 0) as (s' & -> & _)
    end.
    + exact I.
    + intros pre i post s Hl _.
      assert (i ∈ seqZ 0 len) as Hi by (rewrite Hl; apply elem_of_middle).
      apply elem_of_seqZ in Hi.
      destruct (getitem_total cs i) as (c & -> & _); [lia |]. simpl.
      destruct (power_total val i q) as (pw & ->); [lia |]. simpl.
      rewrite py_mod_ok by lia. eauto.
    + cbn [mbind result_bind]. rewrite seqZ_cons by lia. cbn [for_each].
      rewrite Z.add_0_l. unfold getitem, py_index.
      destruct (Z.leb_spec 0 len); [| lia].
      destruct (Z.ltb_spec len (Z.of_nat (length cs))); [lia | reflexivity].
  - intros Hlen more. unfold Ex09.polynomial. apply for_each_ext.
    intros i s Hi. apply range_elem in Hi.
    destruct (getitem_total cs i) as (c & Hget & Hlook); [lia |].
    rewrite Hget. rewrite (getitem_nonneg (cs ++ more) i c); [reflexivity | lia |].
    rewrite lookup_app_l by lia. exact Hlook.
Qed.

Lemma polynomial_reads_coefficients_witness :
  Ex09.polynomial 5 [3; 4] 2 7 = Raise IndexError /\
  Ex09.polynomial 5 ([3; 4; 6] ++ [9; 9]) 2 7 = Ex09.polynomial 5 [3; 4; 6] 2 7.
Proof.
  split.
  - apply (proj1 (polynomial_reads_coefficients 5 [3; 4] 2 7 ltac:(lia) ltac:(lia))).
    vm_compute. lia.
  - apply (proj2 (polynomial_reads_coefficients 5 [3; 4; 6] 2 7 ltac:(lia) ltac:(lia))).
    vm_compute. lia.
Defined.

(** ** [miller_rabin] outside [is_prime] *)

(** With [d = 0] the test [i == d-1] never holds, and from a value that
    squares to itself the inner loop has no way out. *)
Lemma witness_loop_stuck (fuel : nat) (n x : Z) :
  n <> 0 -> x <> n - 1 -> x ^ 2 mod n = x ->
  forall i, 0 <= i -> Primality.witness_loop fuel n 0 i x = None.
Proof.
  intros Hn Hx Hsq. induction fuel as [| fuel IH]; intros i Hi;
    cbn [Primality.witness_loop];
    destruct (Z.eqb_spec x (n - 1)) as [| _]; try contradiction; cbn [negb].
  - reflexivity.
  - destruct (Z.eqb_spec i (0 - 1)) as [| _]; [lia |].
    rewrite py_mod_ok by exact Hn. cbn [run_lift run_bind]. rewrite Hsq.
    apply IH. lia.
Qed.

(** X19. Called on an even [n >= 4], [miller_rabin] need not return: there
    [d = 0], and when the first base [a] gives [x = a^(n-1) mod n] with
    [x*x = x (mod n)] other than 1 and [n-1] (for instance 0, as for every
    base when [n = 4]), the inner [while] loop runs forever: the model
    returns no result on any fuel.  [is_prime] never makes that call. *)
Theorem miller_rabin_diverges (fuel : nat) (n k : Z) (t : tape) :
  4 <= n -> n mod 2 = 0 -> 1 <= k ->
  let x := (2 + t 0%nat mod (n - 3)) ^ (n - 1) mod n in
  x <> 1 -> x <> n - 1 -> x ^ 2 mod n = x ->
  Primality.miller_rabin fuel n k t = None.
Proof.
  intros Hn Hev Hk x Hx1 Hxn Hsq. unfold Primality.miller_rabin.
  rewrite split_twos_eq.
  destruct (Z.eqb_spec (n - 1) 0) as [| _]; [lia |].
  destruct (Z.eqb_spec ((n - 1) mod 2) 0) as [Hodd | _].
  { exfalso. pose proof (Z.div_mod n 2). pose proof (Z.div_mod (n - 1) 2). lia. }
  cbn [option_map run_bind].
  destruct (Z.to_nat k) as [| rounds] eqn:Hrounds; [lia |].
  cbn [Primality.rounds_loop]. unfold Primality.randrange.
  destruct (Z.ltb_spec 2 (n - 1)) as [_ |]; [| lia].
  cbn [mbind result_bind].
  replace (n - 1 - 2) with (n - 3) by lia.
  rewrite py_pow_nonneg by lia. cbn [mbind result_bind run_lift run_bind].
  fold x. destruct (Z.eqb_spec x 1) as [| _]; [contradiction |]. cbn [negb].
  rewrite witness_loop_stuck by (lia || assumption). reflexivity.
Qed.

Lemma miller_rabin_diverges_witness :
  Primality.miller_rabin 1000 6 5 example_tape = None.
Proof.
  apply (miller_rabin_diverges 1000 6 5 example_tape); try lia; try reflexivity;
    vm_compute; discriminate.
Defined.
